(** * The layer classifier of why-react-code-looks-like-that

    A shallow embedding of [src/classifier.ts]: the lexical bracket matcher,
    the region collector ([visit]), the comment scanner, and the overlap
    resolver; of [src/decorator.ts], which hands the regions to the editor;
    and of [updateDecorations] of [src/extension.ts]; followed by the
    properties that the specification states about them, and by further
    properties of the same code.  Two refinements of the entry point make
    explicit what a function of the text alone cannot show: the objects
    that a call creates on the heap, and the call stack that the recursion
    of the walks consumes.

    Offsets are JavaScript numbers that only ever hold integers; they are
    modelled as [Z].  Source text is a [string]; [sourceText[pos]] is
    [charAt], which is [None] where JavaScript yields [undefined].

    The file has three parts: the model of the code, the vocabulary in which
    the properties are stated (with sample documents), and the properties
    with their proofs. *)

From Stdlib Require Import ZArith Ascii String.
From stdpp Require Import base decidable option list list_numbers strings gmap.

Local Open Scope Z_scope.

(** ** Layers and regions ([types.ts], [classifier.ts] lines 126-138) *)

Inductive SyntaxLayer := javascript | typescript | jsx | react.

Global Instance SyntaxLayer_eq_dec : EqDecision SyntaxLayer.
Proof. solve_decision. Defined.

(** [PRIORITY]: higher number wins when regions overlap. *)
Definition PRIORITY (layer : SyntaxLayer) : Z :=
  match layer with
  | javascript => 1
  | jsx => 2
  | typescript => 3
  | react => 4
  end.

Record RawRegion := mkRawRegion {
  start : Z;
  end_ : Z;
  layer : SyntaxLayer;
  priority : Z;
}.

Record ClassifiedRegion := mkRegion {
  region_start : Z;
  region_end : Z;
  region_layer : SyntaxLayer;
}.

Global Instance RawRegion_eq_dec : EqDecision RawRegion.
Proof. solve_decision. Defined.

Global Instance ClassifiedRegion_eq_dec : EqDecision ClassifiedRegion.
Proof. solve_decision. Defined.

(** ** Source text access *)

(** [sourceText[pos]]: [None] stands for [undefined] (negative index, or an
    index at or past the end of the text). *)
Definition charAt (sourceText : string) (pos : Z) : option ascii :=
  if decide (0 ≤ pos) then String.get (Z.to_nat pos) sourceText else None.

(** [sourceText[pos] === c]. *)
Definition charIs (sourceText : string) (pos : Z) (c : ascii) : bool :=
  bool_decide (charAt sourceText pos = Some c).

Definition textLen (sourceText : string) : Z :=
  Z.of_nat (String.length sourceText).

(** ** Lexical bracket matcher ([classifier.ts] lines 158-210) *)

(** The [while (pos > 0 && sourceText[pos] !== '<') pos--] loop.  It runs at
    most [pos] times, so [steps] is a bound on the iterations that are left,
    not a cut-off: see [scanOpening_steps]. *)
Fixpoint scanOpening (steps : nat) (sourceText : string) (pos : Z) : Z :=
  match steps with
  | O => pos
  | S steps' =>
      if bool_decide (0 < pos) && negb (charIs sourceText pos "<"%char)
      then scanOpening steps' sourceText (pos - 1)
      else pos
  end.

Definition findOpeningBracket (sourceText : string) (beforePos : Z) : Z :=
  let pos := scanOpening (Z.to_nat beforePos) sourceText beforePos in
  if charIs sourceText pos "<"%char then pos else -1.

(** The [while (pos < sourceText.length && depth > 0)] loop; the state is
    [(pos, depth)].  [steps] bounds the iterations left
    ([sourceText.length - pos]): see [scanClose_steps]. *)
Fixpoint scanClose (steps : nat) (sourceText : string) (pos depth : Z) : Z * Z :=
  match steps with
  | O => (pos, depth)
  | S steps' =>
      if bool_decide (pos < textLen sourceText) && bool_decide (0 < depth)
      then
        let depth' :=
          if charIs sourceText pos "<"%char then depth + 1
          else if charIs sourceText pos ">"%char then depth - 1
          else depth in
        scanClose steps' sourceText (pos + 1) depth'
      else (pos, depth)
  end.

Definition findMatchingCloseBracket (sourceText : string) (openBracketPos : Z) : Z :=
  let pos0 := openBracketPos + 1 in
  let '(pos, depth) :=
    scanClose (Z.to_nat (textLen sourceText - pos0)) sourceText pos0 1 in
  if bool_decide (depth = 0) then pos - 1 else -1.

(** ** Overlap resolver ([classifier.ts] lines 1171-1220) *)

(** The two arrays indexed by character offset. *)
Record Maps := mkMaps {
  positionMap : list (option SyntaxLayer);
  priorityMap : list Z;
}.

(** [arr[i]] for an integer [i]: [None] is [undefined]. *)
Definition arrGet {A} (arr : list A) (i : Z) : option A :=
  if decide (0 ≤ i) then arr !! Z.to_nat i else None.

(** Body of the inner loop at offset [i].  Outside the array
    [priorityMap[i]] is [undefined] and [region.priority > undefined] is
    false, so nothing is written. *)
Definition paintOffset (region : RawRegion) (maps : Maps) (i : Z) : Maps :=
  match arrGet (priorityMap maps) i with
  | Some recorded =>
      if bool_decide (recorded < priority region)
      then {| positionMap := <[Z.to_nat i := Some (layer region)]> (positionMap maps);
              priorityMap := <[Z.to_nat i := priority region]> (priorityMap maps) |}
      else maps
  | None => maps
  end.

(** [for (let i = region.start; i < region.end && i < textLength; i++)]. *)
Definition paintRegion (textLength : nat) (maps : Maps) (region : RawRegion) : Maps :=
  foldl (paintOffset region) maps
        (seqZ (start region) (Z.min (end_ region) (Z.of_nat textLength) - start region)).

Definition paintAll (rawRegions : list RawRegion) (textLength : nat) : Maps :=
  foldl (paintRegion textLength)
        {| positionMap := replicate textLength None;
           priorityMap := replicate textLength 0 |}
        rawRegions.

(** State of the merging pass. *)
Record MergeState := mkMergeState {
  result : list ClassifiedRegion;
  currentLayer : option SyntaxLayer;
  currentStart : Z;
}.

(** [result.push({start: currentStart, end: i, layer: currentLayer})] under
    the guard [currentLayer !== null]. *)
Definition pushCurrent (ms : MergeState) (i : Z) : list ClassifiedRegion :=
  match currentLayer ms with
  | Some l => result ms ++ [mkRegion (currentStart ms) i l]
  | None => result ms
  end.

Definition mergeStep (posMap : list (option SyntaxLayer)) (ms : MergeState) (i : nat)
  : MergeState :=
  let layer := mjoin (posMap !! i) in
  if bool_decide (layer ≠ currentLayer ms)
  then {| result := pushCurrent ms (Z.of_nat i);
          currentLayer := layer;
          currentStart := Z.of_nat i |}
  else ms.

Definition mergeRuns (posMap : list (option SyntaxLayer)) (textLength : nat)
  : list ClassifiedRegion :=
  pushCurrent
    (foldl (mergeStep posMap) (mkMergeState [] None 0) (seq 0 textLength))
    (Z.of_nat textLength).

Definition resolveOverlaps (rawRegions : list RawRegion) (textLength : nat)
  : list ClassifiedRegion :=
  if bool_decide (rawRegions = []) || bool_decide (textLength = 0%nat)
  then []
  else mergeRuns (positionMap (paintAll rawRegions textLength)) textLength.

(** [getLayerAt] of [classifier.test.ts]: the layer of the first region that
    contains [position]. *)
Definition getLayerAt (regions : list ClassifiedRegion) (position : Z)
  : option SyntaxLayer :=
  region_layer <$>
    List.find (fun r => bool_decide (region_start r ≤ position)
                        && bool_decide (position < region_end r)) regions.

(** ** The syntax tree delivered by the parser

    The parser is the TypeScript compiler API, an external collaborator.
    A node is modelled by the accessors that [classifier.ts] reads from it.
    [SyntaxKind] lists the kinds the classifier tests for; every other kind
    is [OtherKind]. *)

Inductive SyntaxKind :=
  (* tokens and keywords *)
  | EndOfFileToken | ColonToken | QuestionToken
  | DeclareKeyword | AbstractKeyword | PublicKeyword | PrivateKeyword
  | ProtectedKeyword | ReadonlyKeyword | AccessorKeyword | OverrideKeyword
  (* names and literals *)
  | Identifier | StringLiteral | NumericLiteral | JsxText
  (* JSX *)
  | JsxElement | JsxSelfClosingElement | JsxOpeningElement | JsxClosingElement
  | JsxOpeningFragment | JsxClosingFragment | JsxExpression
  | JsxSpreadAttribute | JsxAttribute
  (* statements and declarations *)
  | SourceFile | ExpressionStatement | VariableStatement | VariableDeclaration
  | InterfaceDeclaration | TypeAliasDeclaration | EnumDeclaration
  | ModuleDeclaration | ClassDeclaration | FunctionDeclaration
  | MethodDeclaration | PropertySignature | PropertyDeclaration | Parameter_
  | GetAccessor | ImportDeclaration | ExportDeclaration | ExportAssignment
  | NamedImports | NamedExports | Decorator
  | IfStatement | ForStatement | ForInStatement | ForOfStatement
  | WhileStatement | DoStatement | SwitchStatement | TryStatement
  | ThrowStatement | ReturnStatement
  (* expressions *)
  | ExpressionWithTypeArguments | AsExpression | TypeAssertionExpression
  | SatisfiesExpression | NonNullExpression | ArrowFunction
  | FunctionExpression | PropertyAccessExpression | ElementAccessExpression
  | CallExpression | NewExpression | ObjectLiteralExpression
  | ArrayLiteralExpression | PropertyAssignment | ConditionalExpression
  | BinaryExpression | PrefixUnaryExpression | PostfixUnaryExpression
  | TemplateExpression | AwaitExpression | SpreadElement
  | ParenthesizedExpression
  (* types *)
  | TypeReference | TypeLiteral | TypeParameter | TypePredicate | TypeQuery
  | TypeOperator | IndexedAccessType | MappedType | ConditionalType
  | InferType | UnionType | IntersectionType | ArrayType | TupleType
  | LiteralType | FunctionType | ConstructorType | ParenthesizedType
  | ThisType
  | OtherKind.

Definition SyntaxKind_code (k : SyntaxKind) : positive :=
  Eval cbv in
  match k with
  | EndOfFileToken => 1 | ColonToken => 2 | QuestionToken => 3
  | DeclareKeyword => 4 | AbstractKeyword => 5 | PublicKeyword => 6
  | PrivateKeyword => 7 | ProtectedKeyword => 8 | ReadonlyKeyword => 9
  | AccessorKeyword => 10 | OverrideKeyword => 11 | Identifier => 12
  | StringLiteral => 13 | NumericLiteral => 14 | JsxText => 15
  | JsxElement => 16 | JsxSelfClosingElement => 17 | JsxOpeningElement => 18
  | JsxClosingElement => 19 | JsxOpeningFragment => 20
  | JsxClosingFragment => 21 | JsxExpression => 22
  | JsxSpreadAttribute => 23 | JsxAttribute => 24 | SourceFile => 25
  | ExpressionStatement => 26 | VariableStatement => 27
  | VariableDeclaration => 28 | InterfaceDeclaration => 29
  | TypeAliasDeclaration => 30 | EnumDeclaration => 31
  | ModuleDeclaration => 32 | ClassDeclaration => 33
  | FunctionDeclaration => 34 | MethodDeclaration => 35
  | PropertySignature => 36 | PropertyDeclaration => 37 | Parameter_ => 38
  | GetAccessor => 39 | ImportDeclaration => 40 | ExportDeclaration => 41
  | ExportAssignment => 42 | NamedImports => 43 | NamedExports => 44
  | Decorator => 45 | IfStatement => 46 | ForStatement => 47
  | ForInStatement => 48 | ForOfStatement => 49 | WhileStatement => 50
  | DoStatement => 51 | SwitchStatement => 52 | TryStatement => 53
  | ThrowStatement => 54 | ReturnStatement => 55
  | ExpressionWithTypeArguments => 56 | AsExpression => 57
  | TypeAssertionExpression => 58 | SatisfiesExpression => 59
  | NonNullExpression => 60 | ArrowFunction => 61 | FunctionExpression => 62
  | PropertyAccessExpression => 63 | ElementAccessExpression => 64
  | CallExpression => 65 | NewExpression => 66
  | ObjectLiteralExpression => 67 | ArrayLiteralExpression => 68
  | PropertyAssignment => 69 | ConditionalExpression => 70
  | BinaryExpression => 71 | PrefixUnaryExpression => 72
  | PostfixUnaryExpression => 73 | TemplateExpression => 74
  | AwaitExpression => 75 | SpreadElement => 76
  | ParenthesizedExpression => 77 | TypeReference => 78 | TypeLiteral => 79
  | TypeParameter => 80 | TypePredicate => 81 | TypeQuery => 82
  | TypeOperator => 83 | IndexedAccessType => 84 | MappedType => 85
  | ConditionalType => 86 | InferType => 87 | UnionType => 88
  | IntersectionType => 89 | ArrayType => 90 | TupleType => 91
  | LiteralType => 92 | FunctionType => 93 | ConstructorType => 94
  | ParenthesizedType => 95 | ThisType => 96 | OtherKind => 97
  end%positive.

Global Instance SyntaxKind_eq_dec : EqDecision SyntaxKind.
Proof.
  intros k1 k2.
  destruct (decide (SyntaxKind_code k1 = SyntaxKind_code k2)) as [E|E].
  - left. abstract (destruct k1; destruct k2; (reflexivity || discriminate)).
  - right. intros ->. exact (E eq_refl).
Defined.

(** A node, as the accessors read by the classifier.  Optional properties
    are [option]s; an array-valued property that may be [undefined]
    ([typeArguments], [typeParameters], [modifiers], [heritageClauses]) is
    the empty list in that case, since every read of it in [classifier.ts]
    treats [undefined] and the empty array alike.  [children] is the JSX
    child list of a [JsxElement]; [forEachChild] lists the nodes that
    [ts.forEachChild] passes to its callback, in order; [getChildren] is
    the token-level child list of [node.getChildren(sourceFile)]. *)
Local Unset Elimination Schemes.
Inductive Node := mkNode {
  kind : SyntaxKind;
  getFullStart : Z;
  getStart : Z;
  getEnd : Z;
  text : string;
  flags : Z;
  isTypeOnly : bool;
  expression : option Node;
  tagName : option Node;
  name : option Node;
  type : option Node;
  questionToken : option Node;
  initializer : option Node;
  openingElement : option Node;
  attributes : option Node;
  declarationList : option Node;
  importClause : option Node;
  namedBindings : option Node;
  exportClause : option Node;
  typeName : option Node;
  typeArguments : list Node;
  typeParameters : list Node;
  modifiers : list Node;
  properties : list Node;
  children : list Node;
  declarations : list Node;
  heritageClauses : list Node;
  types : list Node;
  elements : list Node;
  arguments : list Node;
  forEachChild : list Node;
  getChildren : list Node;
}.
Local Set Elimination Schemes.

(** A node of kind [k] spanning [pos .. e], its text starting at [s], with
    no property set; trees are built from it with the [with_] setters. *)
Definition leaf (k : SyntaxKind) (pos s e : Z) : Node :=
  mkNode k pos s e "" 0 false None None None None None None None None None
         None None None None [] [] [] [] [] [] [] [] [] [] [] [].

(** Properties that the TypeScript declarations make mandatory for the node
    kind at hand are read with [req]; on the trees the parser builds it
    never meets [None]. *)
Definition req (field : option Node) : Node :=
  default (leaf OtherKind 0 0 0) field.

(** [ts.isXxx(node)] is a test on [node.kind]. *)
Definition isKind (k : SyntaxKind) (node : Node) : bool :=
  bool_decide (kind node = k).

(** [ts.isXxx(field)] on a property that may be absent. *)
Definition isSome (k : SyntaxKind) (field : option Node) : bool :=
  match field with Some node => isKind k node | None => false end.

(** [node.getText(sourceFile)]:
    [sourceFile.text.substring(node.getStart(sourceFile), node.getEnd())],
    with [substring]'s clamping and swapping of its arguments. *)
Definition substring (sourceText : string) (a b : Z) : string :=
  let clamp x := Z.max 0 (Z.min x (textLen sourceText)) in
  let lo := Z.min (clamp a) (clamp b) in
  let hi := Z.max (clamp a) (clamp b) in
  String.substring (Z.to_nat lo) (Z.to_nat (hi - lo)) sourceText.

Definition getText (sourceText : string) (node : Node) : string :=
  substring sourceText (getStart node) (getEnd node).

(** ** Name tables ([classifier.ts] lines 4-123) *)

Definition REACT_HOOKS : gset string :=
  list_to_set
    ["useState"; "useEffect"; "useContext"; "useReducer"; "useCallback";
     "useMemo"; "useRef"; "useImperativeHandle"; "useLayoutEffect";
     "useDebugValue"; "useDeferredValue"; "useTransition"; "useId";
     "useSyncExternalStore"; "useInsertionEffect"; "use"].

Definition REACT_TYPES : gset string :=
  list_to_set
    ["FC"; "FunctionComponent"; "ComponentType"; "ComponentClass";
     "ElementType"; "ExoticComponent"; "ForwardRefExoticComponent";
     "MemoExoticComponent"; "LazyExoticComponent";
     "ReactNode"; "ReactElement"; "ReactChild"; "ReactFragment";
     "ReactPortal"; "ReactText";
     "Element"; "IntrinsicElements";
     "PropsWithChildren"; "PropsWithRef"; "ComponentProps";
     "ComponentPropsWithRef"; "ComponentPropsWithoutRef";
     "HTMLAttributes"; "SVGAttributes"; "HTMLProps"; "CSSProperties";
     "DOMAttributes"; "AriaAttributes";
     "Ref"; "RefObject"; "MutableRefObject"; "ForwardedRef"; "LegacyRef";
     "RefCallback"; "ElementRef"; "ComponentRef";
     "SyntheticEvent"; "ChangeEvent"; "MouseEvent"; "FormEvent";
     "KeyboardEvent"; "FocusEvent"; "DragEvent"; "TouchEvent";
     "PointerEvent"; "WheelEvent"; "AnimationEvent"; "TransitionEvent";
     "ClipboardEvent"; "CompositionEvent"; "UIEvent";
     "Dispatch"; "SetStateAction"; "ReducerState"; "ReducerAction";
     "Context"; "Provider"; "Consumer";
     "Suspense"; "SuspenseProps"; "StrictMode"; "Profiler"; "ProfilerProps";
     "Fragment";
     "Key"].

Definition REACT_UTILS : gset string :=
  list_to_set
    ["memo"; "forwardRef"; "lazy"; "createContext"; "createRef";
     "cloneElement"; "isValidElement"; "createElement"; "Children";
     "Fragment"; "Suspense"; "StrictMode"; "Profiler"].

Definition REACT_JSX_ATTRIBUTES : gset string := list_to_set ["key"; "ref"].

Definition REACT_DIRECTIVES : gset string :=
  list_to_set ["use client"; "use server"].

(** [set.has(x)]. *)
Definition has (set : gset string) (x : string) : bool := bool_decide (x ∈ set).

(** ** Tests on strings *)

Definition inRange (lo hi c : ascii) : bool :=
  (nat_of_ascii lo <=? nat_of_ascii c)%nat && (nat_of_ascii c <=? nat_of_ascii hi)%nat.

Definition isUpper (c : ascii) : bool := inRange "A" "Z" c.

Definition isAlphaNum (c : ascii) : bool :=
  inRange "a" "z" c || inRange "A" "Z" c || inRange "0" "9" c.

(** [s.startsWith(p)]. *)
Definition startsWith (s p : string) : bool := String.prefix p s.

(** [s.includes(p)]. *)
Definition includes (s p : string) : bool :=
  bool_decide (is_Some (String.index 0 p s)).

(** The class [\s] of JavaScript regular expressions, for code units
    below 256. *)
Definition isWhiteSpace (c : ascii) : bool :=
  let n := nat_of_ascii c in
  ((9 <=? n) && (n <=? 13) || (n =? 32) || (n =? 160))%nat.

(** [/\s/.test(sourceText[pos])].  On [undefined] the test sees the string
    ["undefined"], which holds no white space. *)
Definition isWhiteSpaceAt (sourceText : string) (pos : Z) : bool :=
  match charAt sourceText pos with
  | Some c => isWhiteSpace c
  | None => false
  end.

(** [/^React\.use([A-Z]|$)/.test(callee)]. *)
Definition isQualifiedHook (callee : string) : bool :=
  startsWith callee "React.use" &&
  match String.get 9 callee with
  | Some c => isUpper c
  | None => true
  end.

(** [isPascalCase]: [/^[A-Z][a-zA-Z0-9]*$/.test(name)]. *)
Definition isPascalCase (name : string) : bool :=
  match name with
  | String c rest => isUpper c && forallb isAlphaNum (list_ascii_of_string rest)
  | EmptyString => false
  end.

(** ** Region collector ([classifyDocument], [classifier.ts] lines 212-1124) *)

(** The two objects allocated by one call of [classifyDocument] and updated
    by the walk: the candidate list and the set of enum names seen so far. *)
Record State := mkState {
  rawRegions : list RawRegion;
  enumNames : gset string;
}.

Definition initialState : State := mkState [] ∅.

Definition addRegion (start end_ : Z) (layer : SyntaxLayer) (st : State) : State :=
  if bool_decide (start < end_)
  then mkState (rawRegions st ++ [mkRawRegion start end_ layer (PRIORITY layer)])
               (enumNames st)
  else st.

(** [addRegion] over the whole text span of a node. *)
Definition addSpan (node : Node) (layer : SyntaxLayer) (st : State) : State :=
  addRegion (getStart node) (getEnd node) layer st.

Definition findColonToken (node : Node) : option Node :=
  List.find (isKind ColonToken) (getChildren node).

Definition findTypeParameterListRange (typeParameters : list Node) (sourceText : string)
  : option (Z * Z) :=
  match typeParameters with
  | [] => None
  | firstParam :: _ =>
      let openBracket := findOpeningBracket sourceText (getStart firstParam - 1) in
      if bool_decide (openBracket = -1) then None
      else
        let closeBracket := findMatchingCloseBracket sourceText openBracket in
        if bool_decide (closeBracket = -1) then None
        else Some (openBracket, closeBracket + 1)
  end.

(** The block that [visit] repeats for every [typeParameters] list:
    [if (range) addRegion(range[0], range[1], "typescript")]. *)
Definition addTypeParametersRegion (typeParameters : list Node) (sourceText : string)
    (st : State) : State :=
  match findTypeParameterListRange typeParameters sourceText with
  | Some (lo, hi) => addRegion lo hi typescript st
  | None => st
  end.

(** The block that [visit] repeats, inline, for every [typeArguments] list:
    locate ['<'] before the first argument, then its matching ['>'], and
    add the span when both are found. *)
Definition addTypeArgumentsRegion (typeArguments : list Node) (sourceText : string)
    (st : State) : State :=
  match typeArguments with
  | [] => st
  | firstTypeArg :: _ =>
      let openBracket := findOpeningBracket sourceText (getStart firstTypeArg - 1) in
      if bool_decide (openBracket ≠ -1) then
        let closeBracket := findMatchingCloseBracket sourceText openBracket in
        if bool_decide (closeBracket ≠ -1)
        then addRegion openBracket (closeBracket + 1) typescript st
        else st
      else st
  end.

(** [for (const modifier of node.modifiers)
       if (modifier.kind === k1 || ...) addRegion(..., "typescript")]. *)
Definition addModifierRegions (kinds : list SyntaxKind) (node : Node) (st : State)
  : State :=
  foldl (fun st modifier =>
           if bool_decide (kind modifier ∈ kinds)
           then addSpan modifier typescript st else st)
        st (modifiers node).

(** [node.modifiers?.some(m => m.kind === ts.SyntaxKind.DeclareKeyword)]. *)
Definition hasDeclare (node : Node) : bool :=
  existsb (isKind DeclareKeyword) (modifiers node).

(** Return-type annotation: from the colon token to the end of the type. *)
Definition addReturnTypeRegion (node : Node) (st : State) : State :=
  match type node with
  | Some ty =>
      match findColonToken node with
      | Some colonToken => addRegion (getStart colonToken) (getEnd ty) typescript st
      | None => st
      end
  | None => st
  end.

(** Type annotation of a binding: as above, but starting at the question
    token when there is one. *)
Definition addAnnotationRegion (node : Node) (st : State) : State :=
  match type node with
  | Some ty =>
      match findColonToken node with
      | Some colonToken =>
          let start :=
            match questionToken node with
            | Some q => getStart q
            | None => getStart colonToken
            end in
          addRegion start (getEnd ty) typescript st
      | None => st
      end
  | None => st
  end.

(** *** Default classification ([classifyNode], lines 1222-1335) *)

Definition isTypeScriptNode (node : Node) : bool :=
  bool_decide (kind node ∈
    [TypeAliasDeclaration; InterfaceDeclaration; TypeReference; TypeLiteral;
     EnumDeclaration; TypeParameter; TypePredicate; TypeQuery; TypeOperator;
     IndexedAccessType; MappedType; ConditionalType; InferType; UnionType;
     IntersectionType; ArrayType; TupleType; LiteralType; FunctionType;
     ConstructorType; ParenthesizedType; ThisType]).

Definition isJsxStructuralNode (node : Node) : bool :=
  bool_decide (kind node ∈ [JsxOpeningFragment; JsxClosingFragment; JsxText]).

Definition isJavaScriptNode (node : Node) : bool :=
  bool_decide (kind node ∈
    [VariableDeclaration; VariableStatement; FunctionDeclaration; ArrowFunction;
     FunctionExpression; PropertyAccessExpression; ElementAccessExpression;
     ObjectLiteralExpression; ArrayLiteralExpression; ConditionalExpression;
     BinaryExpression; PrefixUnaryExpression; PostfixUnaryExpression;
     TemplateExpression; IfStatement; ForStatement; ForInStatement;
     ForOfStatement; WhileStatement; DoStatement; SwitchStatement;
     TryStatement; ThrowStatement; ReturnStatement; ClassDeclaration;
     ImportDeclaration; ExportDeclaration; ExportAssignment; AwaitExpression;
     SpreadElement; Parameter_; Identifier; StringLiteral; NumericLiteral;
     ParenthesizedExpression]).

Definition classifyNode (sourceText : string) (node : Node) : option SyntaxLayer :=
  if isTypeScriptNode node then
    if isKind TypeReference node then
      let typeName := getText sourceText (req (typeName node)) in
      if startsWith typeName "React." || startsWith typeName "JSX."
         || has REACT_TYPES typeName
      then Some react else Some typescript
    else Some typescript
  else if isJsxStructuralNode node then Some jsx
  else if isKind Identifier node && bool_decide (text node = "React") then Some react
  else if isJavaScriptNode node then Some javascript
  else None.

(** *** The special cases of [visit] (lines 232-1105)

    Every branch of [visit] first adds its regions and then, as its last
    action, either returns, or runs [ts.forEachChild(node, visit)], or calls
    [visit] on one chosen property.  [dispatch] computes the first part and
    names the second as a [Descent]; [visit] below carries it out. *)

Inductive Descent :=
  | Return                  (* return without visiting anything *)
  | ForEachChild            (* ts.forEachChild(node, visit) *)
  | VisitExpression         (* visit(node.expression) *)
  | VisitInitializer        (* visit(initializer) *)
  | VisitChildrenFrom1.     (* for (i = 1; ...) visit(node.children[i]) *)

(** [ts.NodeFlags.Using]. *)
Definition NodeFlags_Using : Z := 4.

Section Rules.

Variable sourceText : string.

(** Lines 237-245: the guard of the misparsed generic arrow function. *)
Definition isMisparsedGenericArrow (node : Node) : bool :=
  isKind JsxElement node &&
  let opening := req (openingElement node) in
  isSome Identifier (tagName opening) &&
  bool_decide (length (properties (req (attributes opening))) = 0%nat) &&
  match children node with
  | first :: _ => isKind JsxText first && includes (getText sourceText first) "=>"
  | [] => false
  end.

Definition onMisparsedGenericArrow (node : Node) (st : State) : State * Descent :=
  let opening := req (openingElement node) in
  let st := addRegion (getStart node) (getEnd opening) typescript st in
  let st := addRegion (getEnd opening) (getEnd node) javascript st in
  (st, VisitChildrenFrom1).

(** [ts.isPropertyAccessExpression(tagName) && ts.isIdentifier(tagName.expression)
     && tagName.expression.text === "React"]. *)
Definition isReactMember (tagName : Node) : bool :=
  isKind PropertyAccessExpression tagName &&
  isSome Identifier (expression tagName) &&
  bool_decide (text (req (expression tagName)) = "React").

(** Lines 259-295 and 299-335: self-closing and opening elements differ only
    in the width of the closing token ([closeWidth] is 2 for ["/>"], 1 for
    [">"]). *)
Definition onJsxTag (closeWidth : Z) (node : Node) (st : State) : State * Descent :=
  let start := getStart node in
  let tagName := req (tagName node) in
  let end_ := getEnd node in
  let st :=
    if isReactMember tagName then
      let st := addRegion start (start + 1) jsx st in
      addSpan tagName react st
    else addRegion start (getEnd tagName) jsx st in
  let st := addTypeArgumentsRegion (typeArguments node) sourceText st in
  let st := addRegion (end_ - closeWidth) end_ jsx st in
  (st, ForEachChild).

(** Lines 338-358. *)
Definition onJsxClosingElement (node : Node) (st : State) : State * Descent :=
  let start := getStart node in
  let tagName := req (tagName node) in
  let end_ := getEnd node in
  if isReactMember tagName then
    let st := addRegion start (start + 2) jsx st in
    let st := addSpan tagName react st in
    let st := addRegion (end_ - 1) end_ jsx st in
    (st, Return)
  else (addRegion start end_ jsx st, Return).

(** Lines 361-373. *)
Definition onJsxExpression (node : Node) (st : State) : State * Descent :=
  let start := getStart node in
  let end_ := getEnd node in
  let st := addRegion start (start + 1) jsx st in
  let st := if charIs sourceText (end_ - 1) "}"%char
            then addRegion (end_ - 1) end_ jsx st else st in
  (st, ForEachChild).

(** [while (spreadStart < end && /\s/.test(sourceText[spreadStart])) spreadStart++],
    at most [end - spreadStart] iterations. *)
Fixpoint skipWhiteSpace (steps : nat) (spreadStart end_ : Z) : Z :=
  match steps with
  | O => spreadStart
  | S steps' =>
      if bool_decide (spreadStart < end_) && isWhiteSpaceAt sourceText spreadStart
      then skipWhiteSpace steps' (spreadStart + 1) end_
      else spreadStart
  end.

(** Lines 377-394. *)
Definition onJsxSpreadAttribute (node : Node) (st : State) : State * Descent :=
  let start := getStart node in
  let end_ := getEnd node in
  let spreadStart := skipWhiteSpace (Z.to_nat (end_ - (start + 1))) (start + 1) end_ in
  let spreadEnd := spreadStart + 3 in
  let st := addRegion start spreadEnd jsx st in
  let st := addRegion (end_ - 1) end_ jsx st in
  (st, ForEachChild).

(** Lines 398-427. *)
Definition onJsxAttribute (node : Node) (st : State) : State * Descent :=
  let nameNode := req (name node) in
  let nameEnd := getEnd nameNode in
  let st :=
    if isKind Identifier nameNode then
      if has REACT_JSX_ATTRIBUTES (text nameNode)
      then addRegion (getStart nameNode) nameEnd react st
      else addRegion (getStart nameNode) nameEnd jsx st
    else st in
  match initializer node with
  | Some initializer =>
      let st := addRegion nameEnd (getStart initializer) jsx st in
      if isKind StringLiteral initializer
      then (addSpan initializer jsx st, Return)
      else if isKind JsxExpression initializer then (st, VisitInitializer)
      else (st, Return)
  | None => (st, Return)
  end.

(** Lines 439-448. *)
Definition onDirective (node : Node) (st : State) : State * Descent :=
  let directive := text (req (expression node)) in
  if has REACT_DIRECTIVES directive
  then (addSpan node react st, Return)
  else (addSpan node javascript st, Return).

(** Lines 452-483. *)
Definition onVariableStatement (node : Node) (st : State) : State * Descent :=
  if hasDeclare node then (addSpan node typescript st, Return)
  else
    let declarationList := req (declarationList node) in
    let isUsingDeclaration :=
      bool_decide (Z.land (flags declarationList) NodeFlags_Using ≠ 0) in
    if isUsingDeclaration then
      let declStart := getStart declarationList in
      let st :=
        match declarations declarationList with
        | firstDecl :: _ => addRegion declStart (getStart firstDecl) typescript st
        | [] => st
        end in
      (addSpan node javascript st, ForEachChild)
    else (addSpan node javascript st, ForEachChild).

(** Lines 506-512. *)
Definition onEnumDeclaration (node : Node) (st : State) : State * Descent :=
  let st :=
    match name node with
    | Some name => mkState (rawRegions st) ({[ text name ]} ∪ enumNames st)
    | None => st
    end in
  (addSpan node typescript st, Return).

(** Lines 524-544. *)
Definition onExpressionWithTypeArguments (node : Node) (st : State) : State * Descent :=
  let expr := req (expression node) in
  let st :=
    if isKind Identifier expr && has REACT_TYPES (text expr)
    then addSpan expr react st else st in
  let st := addTypeArgumentsRegion (typeArguments node) sourceText st in
  (st, ForEachChild).

(** Lines 548-593. *)
Definition onClassDeclaration (node : Node) (st : State) : State * Descent :=
  if hasDeclare node then (addSpan node typescript st, Return)
  else
    let st := addSpan node javascript st in
    let st := addModifierRegions [AbstractKeyword] node st in
    let st := addTypeParametersRegion (typeParameters node) sourceText st in
    let st :=
      foldl (fun st clause =>
               foldl (fun st type =>
                        addTypeArgumentsRegion (typeArguments type) sourceText st)
                     st (types clause))
            st (heritageClauses node) in
    (st, ForEachChild).

(** Lines 597-605 and 623-631: [expr as Type], [expr satisfies Type]. *)
Definition onAsOrSatisfies (node : Node) (st : State) : State * Descent :=
  let expr := req (expression node) in
  let st := addSpan expr javascript st in
  let st := addRegion (getEnd expr) (getEnd node) typescript st in
  (st, VisitExpression).

(** Lines 609-619. *)
Definition onTypeAssertion (node : Node) (st : State) : State * Descent :=
  let start := getStart node in
  let expr := req (expression node) in
  let exprStart := getStart expr in
  let st := addRegion start exprStart typescript st in
  let st := addRegion exprStart (getEnd expr) javascript st in
  (st, VisitExpression).

(** Lines 635-643. *)
Definition onNonNull (node : Node) (st : State) : State * Descent :=
  let expr := req (expression node) in
  let st := addSpan expr javascript st in
  let st := addRegion (getEnd node - 1) (getEnd node) typescript st in
  (st, VisitExpression).

(** Lines 660-688. *)
Definition onParameter (node : Node) (st : State) : State * Descent :=
  let st := addSpan node javascript st in
  let st := addModifierRegions
              [PublicKeyword; PrivateKeyword; ProtectedKeyword; ReadonlyKeyword]
              node st in
  (addAnnotationRegion node st, ForEachChild).

(** Lines 706-735. *)
Definition onPropertyDeclaration (node : Node) (st : State) : State * Descent :=
  let st := addSpan node javascript st in
  let st := addModifierRegions
              [PublicKeyword; PrivateKeyword; ProtectedKeyword; ReadonlyKeyword;
               AbstractKeyword; AccessorKeyword]
              node st in
  (addAnnotationRegion node st, ForEachChild).

(** Lines 739-766. *)
Definition onFunctionDeclaration (node : Node) (st : State) : State * Descent :=
  if hasDeclare node then (addSpan node typescript st, Return)
  else
    let st := addSpan node javascript st in
    let st := addReturnTypeRegion node st in
    let st := addTypeParametersRegion (typeParameters node) sourceText st in
    (st, ForEachChild).

(** Lines 769-799. *)
Definition onMethodDeclaration (node : Node) (st : State) : State * Descent :=
  let st := addSpan node javascript st in
  let st := addModifierRegions
              [PublicKeyword; PrivateKeyword; ProtectedKeyword; AbstractKeyword;
               OverrideKeyword]
              node st in
  let st := addReturnTypeRegion node st in
  let st := addTypeParametersRegion (typeParameters node) sourceText st in
  (st, ForEachChild).

(** Lines 802-818 and 821-837: arrow functions and function expressions. *)
Definition onFunctionLike (node : Node) (st : State) : State * Descent :=
  let st := addSpan node javascript st in
  let st := addReturnTypeRegion node st in
  let st := addTypeParametersRegion (typeParameters node) sourceText st in
  (st, ForEachChild).

(** The loop over the specifiers of a type-only import or export. *)
Definition addReactSpecifiers (specifiers : list Node) (st : State) : State :=
  foldl (fun st specifier =>
           let name := req (name specifier) in
           if has REACT_TYPES (text name) then addSpan name react st else st)
        st specifiers.

(** The loop over the specifiers of an ordinary import or export. *)
Definition addTypeOnlySpecifiers (specifiers : list Node) (st : State) : State :=
  foldl (fun st specifier =>
           if isTypeOnly specifier then
             let name := req (name specifier) in
             let specStart := getStart specifier in
             let nameStart := getStart name in
             let st := addRegion specStart nameStart typescript st in
             if has REACT_TYPES (text name)
             then addRegion nameStart (getEnd name) react st
             else addRegion nameStart (getEnd name) typescript st
           else st)
        st specifiers.

(** [clause && ts.isNamedImports(clause)] (or [isNamedExports]), then
    [clause.elements]. *)
Definition specifiersOf (k : SyntaxKind) (clause : option Node) : list Node :=
  match clause with
  | Some c => if isKind k c then elements c else []
  | None => []
  end.

(** Lines 840-879. *)
Definition onImportDeclaration (node : Node) (st : State) : State * Descent :=
  let namedBindings := importClause node ≫= namedBindings in
  if from_option isTypeOnly false (importClause node) then
    let st := addSpan node typescript st in
    (addReactSpecifiers (specifiersOf NamedImports namedBindings) st, Return)
  else
    let st := addSpan node javascript st in
    (addTypeOnlySpecifiers (specifiersOf NamedImports namedBindings) st, ForEachChild).

(** Lines 882-921. *)
Definition onExportDeclaration (node : Node) (st : State) : State * Descent :=
  if isTypeOnly node then
    let st := addSpan node typescript st in
    (addReactSpecifiers (specifiersOf NamedExports (exportClause node)) st, Return)
  else
    let st := addSpan node javascript st in
    (addTypeOnlySpecifiers (specifiersOf NamedExports (exportClause node)) st,
     ForEachChild).

(** Lines 940-948: the guard of the enum member access. *)
Definition isEnumAccess (node : Node) (st : State) : bool :=
  isKind PropertyAccessExpression node &&
  isSome Identifier (expression node) &&
  bool_decide (text (req (expression node)) ∈ enumNames st).

(** Lines 1014-1064: [React.createElement(...)]. *)
Definition onCreateElement (node : Node) (st : State) : State * Descent :=
  let st := addSpan (req (expression node)) react st in
  let st :=
    match arguments node !! 0%nat with
    | Some firstArg =>
        if isKind Identifier firstArg && isPascalCase (text firstArg)
        then addSpan firstArg react st
        else if isKind PropertyAccessExpression firstArg
                && bool_decide (getText sourceText (req (expression firstArg)) = "React")
        then addSpan firstArg react st
        else st
    | None => st
    end in
  let st :=
    match arguments node !! 1%nat with
    | Some propsArg =>
        if isKind ObjectLiteralExpression propsArg then
          foldl (fun st prop =>
                   if isKind PropertyAssignment prop && isSome Identifier (name prop)
                      && bool_decide (text (req (name prop)) = "key")
                   then addSpan (req (name prop)) react st else st)
                st (properties propsArg)
        else st
    | None => st
    end in
  (st, ForEachChild).

(** Lines 951-1085. *)
Definition onCallExpression (node : Node) (st : State) : State * Descent :=
  let expr := req (expression node) in
  let callee := getText sourceText expr in
  let st := addTypeArgumentsRegion (typeArguments node) sourceText st in
  if has REACT_HOOKS callee then
    let st := addSpan expr react st in
    (addSpan node javascript st, ForEachChild)
  else if isQualifiedHook callee then
    let st := addSpan expr react st in
    (addSpan node javascript st, ForEachChild)
  else if has REACT_UTILS callee then
    let st := addSpan expr react st in
    (addSpan node javascript st, ForEachChild)
  else if bool_decide (callee = "React.createElement")
          || bool_decide (callee = "createElement") then
    onCreateElement node st
  else if startsWith callee "React." then
    let st := addSpan expr react st in
    (addSpan node javascript st, ForEachChild)
  else (addSpan node javascript st, ForEachChild).

(** Lines 1088-1105. *)
Definition onNewExpression (node : Node) (st : State) : State * Descent :=
  let st := addSpan node javascript st in
  (addTypeArgumentsRegion (typeArguments node) sourceText st, ForEachChild).

(** Lines 1109-1114: the standard classification. *)
Definition onOtherNode (node : Node) (st : State) : State * Descent :=
  match classifyNode sourceText node with
  | Some layer => (addSpan node layer st, ForEachChild)
  | None => (st, ForEachChild)
  end.

(** The chain of [if]s of [visit], in source order. *)
Definition dispatch (node : Node) (st : State) : State * Descent :=
  if isMisparsedGenericArrow node then onMisparsedGenericArrow node st
  else if isKind JsxSelfClosingElement node then onJsxTag 2 node st
  else if isKind JsxOpeningElement node then onJsxTag 1 node st
  else if isKind JsxClosingElement node then onJsxClosingElement node st
  else if isKind JsxExpression node then onJsxExpression node st
  else if isKind JsxSpreadAttribute node then onJsxSpreadAttribute node st
  else if isKind JsxAttribute node then onJsxAttribute node st
  else if isKind Decorator node then (addSpan node typescript st, Return)
  else if isKind ExpressionStatement node && isSome StringLiteral (expression node)
  then onDirective node st
  else if isKind VariableStatement node then onVariableStatement node st
  else if isKind InterfaceDeclaration node
  then (addSpan node typescript st, ForEachChild)
  else if isKind TypeAliasDeclaration node
  then (addSpan node typescript st, ForEachChild)
  else if isKind EnumDeclaration node then onEnumDeclaration node st
  else if isKind ModuleDeclaration node then (addSpan node typescript st, Return)
  else if isKind ExpressionWithTypeArguments node
  then onExpressionWithTypeArguments node st
  else if isKind ClassDeclaration node then onClassDeclaration node st
  else if isKind AsExpression node then onAsOrSatisfies node st
  else if isKind TypeAssertionExpression node then onTypeAssertion node st
  else if isKind SatisfiesExpression node then onAsOrSatisfies node st
  else if isKind NonNullExpression node then onNonNull node st
  else if isKind VariableDeclaration node && bool_decide (is_Some (type node))
  then (addReturnTypeRegion node (addSpan node javascript st), ForEachChild)
  else if isKind Parameter_ node then onParameter node st
  else if isKind PropertySignature node && bool_decide (is_Some (type node))
  then (addAnnotationRegion node st, ForEachChild)
  else if isKind PropertyDeclaration node then onPropertyDeclaration node st
  else if isKind FunctionDeclaration node then onFunctionDeclaration node st
  else if isKind MethodDeclaration node then onMethodDeclaration node st
  else if isKind ArrowFunction node then onFunctionLike node st
  else if isKind FunctionExpression node then onFunctionLike node st
  else if isKind ImportDeclaration node then onImportDeclaration node st
  else if isKind ExportDeclaration node then onExportDeclaration node st
  else if isKind GetAccessor node
  then (addReturnTypeRegion node (addSpan node javascript st), ForEachChild)
  else if isEnumAccess node st then (addSpan node typescript st, Return)
  else if isKind CallExpression node then onCallExpression node st
  else if isKind NewExpression node then onNewExpression node st
  else onOtherNode node st.

(** [visit]: the regions of the node itself, then the descent the branch
    asks for. *)
Fixpoint visit (node : Node) (st : State) {struct node} : State :=
  let '(st, descent) := dispatch node st in
  match descent with
  | Return => st
  | ForEachChild => foldl (fun st child => visit child st) st (forEachChild node)
  | VisitExpression =>
      match expression node with Some e => visit e st | None => st end
  | VisitInitializer =>
      match initializer node with Some i => visit i st | None => st end
  | VisitChildrenFrom1 =>
      match children node with
      | _ :: rest => foldl (fun st child => visit child st) st rest
      | [] => st
      end
  end.

End Rules.

(** *** Building trees

    [with_f v node] is [node] with property [f] set to [v]. *)

Definition with_text (v : string) (node : Node) : Node :=
  mkNode (kind node) (getFullStart node) (getStart node) (getEnd node) v
        (flags node) (isTypeOnly node) (expression node) (tagName node)
        (name node) (type node) (questionToken node) (initializer node)
        (openingElement node) (attributes node) (declarationList node)
        (importClause node) (namedBindings node) (exportClause node)
        (typeName node) (typeArguments node) (typeParameters node)
        (modifiers node) (properties node) (children node) (declarations node)
        (heritageClauses node) (types node) (elements node) (arguments node)
        (forEachChild node) (getChildren node).

Definition with_expression (v : Node) (node : Node) : Node :=
  mkNode (kind node) (getFullStart node) (getStart node) (getEnd node)
        (text node) (flags node) (isTypeOnly node) (Some v) (tagName node)
        (name node) (type node) (questionToken node) (initializer node)
        (openingElement node) (attributes node) (declarationList node)
        (importClause node) (namedBindings node) (exportClause node)
        (typeName node) (typeArguments node) (typeParameters node)
        (modifiers node) (properties node) (children node) (declarations node)
        (heritageClauses node) (types node) (elements node) (arguments node)
        (forEachChild node) (getChildren node).

Definition with_name (v : Node) (node : Node) : Node :=
  mkNode (kind node) (getFullStart node) (getStart node) (getEnd node)
        (text node) (flags node) (isTypeOnly node) (expression node)
        (tagName node) (Some v) (type node) (questionToken node)
        (initializer node) (openingElement node) (attributes node)
        (declarationList node) (importClause node) (namedBindings node)
        (exportClause node) (typeName node) (typeArguments node)
        (typeParameters node) (modifiers node) (properties node)
        (children node) (declarations node) (heritageClauses node)
        (types node) (elements node) (arguments node) (forEachChild node)
        (getChildren node).

Definition with_typeArguments (v : list Node) (node : Node) : Node :=
  mkNode (kind node) (getFullStart node) (getStart node) (getEnd node)
        (text node) (flags node) (isTypeOnly node) (expression node)
        (tagName node) (name node) (type node) (questionToken node)
        (initializer node) (openingElement node) (attributes node)
        (declarationList node) (importClause node) (namedBindings node)
        (exportClause node) (typeName node) v (typeParameters node)
        (modifiers node) (properties node) (children node) (declarations node)
        (heritageClauses node) (types node) (elements node) (arguments node)
        (forEachChild node) (getChildren node).

Definition with_typeParameters (v : list Node) (node : Node) : Node :=
  mkNode (kind node) (getFullStart node) (getStart node) (getEnd node)
        (text node) (flags node) (isTypeOnly node) (expression node)
        (tagName node) (name node) (type node) (questionToken node)
        (initializer node) (openingElement node) (attributes node)
        (declarationList node) (importClause node) (namedBindings node)
        (exportClause node) (typeName node) (typeArguments node) v
        (modifiers node) (properties node) (children node) (declarations node)
        (heritageClauses node) (types node) (elements node) (arguments node)
        (forEachChild node) (getChildren node).

Definition with_modifiers (v : list Node) (node : Node) : Node :=
  mkNode (kind node) (getFullStart node) (getStart node) (getEnd node)
        (text node) (flags node) (isTypeOnly node) (expression node)
        (tagName node) (name node) (type node) (questionToken node)
        (initializer node) (openingElement node) (attributes node)
        (declarationList node) (importClause node) (namedBindings node)
        (exportClause node) (typeName node) (typeArguments node)
        (typeParameters node) v (properties node) (children node)
        (declarations node) (heritageClauses node) (types node)
        (elements node) (arguments node) (forEachChild node)
        (getChildren node).

Definition with_arguments (v : list Node) (node : Node) : Node :=
  mkNode (kind node) (getFullStart node) (getStart node) (getEnd node)
        (text node) (flags node) (isTypeOnly node) (expression node)
        (tagName node) (name node) (type node) (questionToken node)
        (initializer node) (openingElement node) (attributes node)
        (declarationList node) (importClause node) (namedBindings node)
        (exportClause node) (typeName node) (typeArguments node)
        (typeParameters node) (modifiers node) (properties node)
        (children node) (declarations node) (heritageClauses node)
        (types node) (elements node) v (forEachChild node) (getChildren node).

Definition with_forEachChild (v : list Node) (node : Node) : Node :=
  mkNode (kind node) (getFullStart node) (getStart node) (getEnd node)
        (text node) (flags node) (isTypeOnly node) (expression node)
        (tagName node) (name node) (type node) (questionToken node)
        (initializer node) (openingElement node) (attributes node)
        (declarationList node) (importClause node) (namedBindings node)
        (exportClause node) (typeName node) (typeArguments node)
        (typeParameters node) (modifiers node) (properties node)
        (children node) (declarations node) (heritageClauses node)
        (types node) (elements node) (arguments node) v (getChildren node).

Definition with_getChildren (v : list Node) (node : Node) : Node :=
  mkNode (kind node) (getFullStart node) (getStart node) (getEnd node)
        (text node) (flags node) (isTypeOnly node) (expression node)
        (tagName node) (name node) (type node) (questionToken node)
        (initializer node) (openingElement node) (attributes node)
        (declarationList node) (importClause node) (namedBindings node)
        (exportClause node) (typeName node) (typeArguments node)
        (typeParameters node) (modifiers node) (properties node)
        (children node) (declarations node) (heritageClauses node)
        (types node) (elements node) (arguments node) (forEachChild node) v.

Definition with_type (v : Node) (node : Node) : Node :=
  mkNode (kind node) (getFullStart node) (getStart node) (getEnd node)
        (text node) (flags node) (isTypeOnly node) (expression node)
        (tagName node) (name node) (Some v) (questionToken node)
        (initializer node) (openingElement node) (attributes node)
        (declarationList node) (importClause node) (namedBindings node)
        (exportClause node) (typeName node) (typeArguments node)
        (typeParameters node) (modifiers node) (properties node)
        (children node) (declarations node) (heritageClauses node)
        (types node) (elements node) (arguments node) (forEachChild node)
        (getChildren node).

Definition with_typeName (v : Node) (node : Node) : Node :=
  mkNode (kind node) (getFullStart node) (getStart node) (getEnd node)
        (text node) (flags node) (isTypeOnly node) (expression node)
        (tagName node) (name node) (type node) (questionToken node)
        (initializer node) (openingElement node) (attributes node)
        (declarationList node) (importClause node) (namedBindings node)
        (exportClause node) (Some v) (typeArguments node)
        (typeParameters node) (modifiers node) (properties node)
        (children node) (declarations node) (heritageClauses node)
        (types node) (elements node) (arguments node) (forEachChild node)
        (getChildren node).

(** ** Comment scanner and entry point (lines 212-230, 1117-1162) *)

Record CommentRange := mkCommentRange {
  comment_pos : Z;
  comment_end : Z;
}.

(** The functions of the TypeScript compiler API that [classifyDocument]
    calls.  [createSourceFile sourceText] stands for
    [ts.createSourceFile("temp.tsx", sourceText, Latest, true, TSX)]; the two
    comment lookups return the empty list where the API returns
    [undefined]. *)
Class Compiler := {
  createSourceFile : string → Node;
  getLeadingCommentRanges : string → Z → list CommentRange;
  getTrailingCommentRanges : string → Z → list CommentRange;
}.

Section Classify.

Context `{ts : Compiler}.

Definition addComments (comments : list CommentRange) (st : State) : State :=
  foldl (fun st comment =>
           addRegion (comment_pos comment) (comment_end comment) javascript st)
        st comments.

Fixpoint visitForComments (sourceText : string) (node : Node) (st : State)
    {struct node} : State :=
  let nodeStart := getFullStart node in
  let nodeTextStart := getStart node in
  let st :=
    if bool_decide (nodeStart < nodeTextStart)
    then addComments (getLeadingCommentRanges sourceText nodeStart) st
    else st in
  let st := addComments (getTrailingCommentRanges sourceText (getEnd node)) st in
  foldl (fun st child => visitForComments sourceText child st) st (forEachChild node).

Definition collectComments (sourceFile : Node) (sourceText : string) (st : State)
  : State :=
  visitForComments sourceText sourceFile st.

(** The candidates gathered for one document: a fresh [State], the walk of
    [visit], then the comment scan. *)
Definition collect (sourceText : string) : State :=
  let sourceFile := createSourceFile sourceText in
  let st := visit sourceText sourceFile initialState in
  collectComments sourceFile sourceText st.

Definition classifyDocument (sourceText : string) : list ClassifiedRegion :=
  resolveOverlaps (rawRegions (collect sourceText)) (String.length sourceText).

End Classify.

(** ** The objects of an invocation ([classifyDocument], lines 212-230 and
    1117-1124)

    Every call of [classifyDocument] creates two objects, the array
    [rawRegions] (line 221) and the set [enumNames] (line 224); [addRegion]
    and [visit] are closures over them, and [collectComments] is handed
    [addRegion].  The heap holds the objects that exist when a call starts,
    whatever made them; creating an object takes a reference that is not in
    use.  [State] is the contents of the two objects of one call. *)

Inductive Object :=
  | ArrayObject (elements : list RawRegion)
  | SetObject (members : gset string).

(** [[]] and [new Set()]: a new object under a reference not in use. *)
Definition allocate (object : Object) (heap : gmap positive Object)
  : positive * gmap positive Object :=
  let reference := fresh (dom heap) in
  (reference, <[reference := object]> heap).

Definition elementsAt (reference : positive) (heap : gmap positive Object)
  : list RawRegion :=
  match heap !! reference with
  | Some (ArrayObject elements) => elements
  | _ => []
  end.

Definition membersAt (reference : positive) (heap : gmap positive Object)
  : gset string :=
  match heap !! reference with
  | Some (SetObject members) => members
  | _ => ∅
  end.

(** A walk run as closures over the two objects: it reads and writes the
    array at [regionsRef] and the set at [namesRef], and nothing else of the
    heap. *)
Definition onObjects (regionsRef namesRef : positive) (walk : State → State)
    (heap : gmap positive Object) : gmap positive Object :=
  let st := walk (mkState (elementsAt regionsRef heap) (membersAt namesRef heap)) in
  <[namesRef := SetObject (enumNames st)]>
    (<[regionsRef := ArrayObject (rawRegions st)]> heap).

(** [classifyDocument] on a heap: the regions it returns and the heap it
    leaves. *)
Definition classifyDocumentOn `{ts : Compiler} (heap : gmap positive Object)
    (sourceText : string) : list ClassifiedRegion * gmap positive Object :=
  let sourceFile := createSourceFile sourceText in
  let '(regionsRef, heap) := allocate (ArrayObject []) heap in
  let '(namesRef, heap) := allocate (SetObject ∅) heap in
  let heap := onObjects regionsRef namesRef (visit sourceText sourceFile) heap in
  let heap :=
    onObjects regionsRef namesRef (collectComments sourceFile sourceText) heap in
  (resolveOverlaps (elementsAt regionsRef heap) (String.length sourceText), heap).

(** A run of invocations, one per text, each on the heap that the one
    before it left. *)
Fixpoint invocations `{ts : Compiler} (texts : list string)
    (heap : gmap positive Object)
  : list (list ClassifiedRegion) * gmap positive Object :=
  match texts with
  | [] => ([], heap)
  | sourceText :: rest =>
      let '(regions, heap) := classifyDocumentOn heap sourceText in
      let '(others, heap) := invocations rest heap in
      (regions :: others, heap)
  end.

(** ** The call stack of the two walks

    [visit] and [visitForComments] call themselves once for every level of
    the tree, and [classifier.ts] catches no exception.  JavaScript raises
    [RangeError] when the nesting of calls exceeds what the call stack
    holds.  [stack] is the number of nested calls of a walk for which
    there is room; [None] stands for the [RangeError].  The parser is taken
    to return. *)

(** [ts.forEachChild(node, visit)] with a [visit] that may raise: the
    children in order, up to the first one that raises. *)
Fixpoint forEachRaising (visit : Node → State → option State) (nodes : list Node)
    (st : State) : option State :=
  match nodes with
  | [] => Some st
  | child :: rest =>
      match visit child st with
      | Some st => forEachRaising visit rest st
      | None => None
      end
  end.

Fixpoint visitWithin (sourceText : string) (stack : nat) (node : Node) (st : State)
  : option State :=
  match stack with
  | O => None
  | S stack =>
      let '(st, descent) := dispatch sourceText node st in
      match descent with
      | Return => Some st
      | ForEachChild =>
          forEachRaising (visitWithin sourceText stack) (forEachChild node) st
      | VisitExpression =>
          match expression node with
          | Some e => visitWithin sourceText stack e st
          | None => Some st
          end
      | VisitInitializer =>
          match initializer node with
          | Some i => visitWithin sourceText stack i st
          | None => Some st
          end
      | VisitChildrenFrom1 =>
          match children node with
          | _ :: rest => forEachRaising (visitWithin sourceText stack) rest st
          | [] => Some st
          end
      end
  end.

Fixpoint visitForCommentsWithin `{ts : Compiler} (sourceText : string) (stack : nat)
    (node : Node) (st : State) : option State :=
  match stack with
  | O => None
  | S stack =>
      let nodeStart := getFullStart node in
      let nodeTextStart := getStart node in
      let st :=
        if bool_decide (nodeStart < nodeTextStart)
        then addComments (getLeadingCommentRanges sourceText nodeStart) st
        else st in
      let st := addComments (getTrailingCommentRanges sourceText (getEnd node)) st in
      forEachRaising (visitForCommentsWithin sourceText stack) (forEachChild node) st
  end.

(** [classifyDocument] with room for [stack] nested calls of a walk. *)
Definition classifyDocumentWithin `{ts : Compiler} (stack : nat) (sourceText : string)
  : option (list ClassifiedRegion) :=
  let sourceFile := createSourceFile sourceText in
  match visitWithin sourceText stack sourceFile initialState with
  | Some st =>
      match visitForCommentsWithin sourceText stack sourceFile st with
      | Some st => Some (resolveOverlaps (rawRegions st) (String.length sourceText))
      | None => None
      end
  | None => None
  end.

(** ** Decorations ([decorator.ts]) and their refresh ([extension.ts])

    The editor is VS Code's.  Its positions and the handles of its
    decoration types are kept abstract; what the functions do to an editor
    is the list of the [setDecorations] calls they make, in order. *)

Section Decorator.
Variables Position DecorationType : Type.

(** [new vscode.Range(startPos, endPos)]. *)
Record Range := newRange { range_start : Position; range_end : Position }.

(** [editor.document], with [getText()] as [documentText]. *)
Record TextDocument := mkTextDocument {
  fileName : string;
  documentText : string;
  positionAt : Z → Position;
}.

Record TextEditor := mkTextEditor { document : TextDocument }.

(** [editor.setDecorations(type, ranges)]. *)
Record Call := setDecorations {
  call_editor : TextEditor;
  call_type : DecorationType;
  call_ranges : list Range;
}.

(** [Record<SyntaxLayer, X>]: an object with the four layers as keys. *)
Definition DecorationTypes : Type := SyntaxLayer → DecorationType.

(** [Object.keys] and [Object.values] follow the order of the keys in the
    object literals (lines 7-20 and 34-39). *)
Definition layerKeys : list SyntaxLayer := [javascript; typescript; jsx; react].

(** Lines 42-46: the range of one region. *)
Definition rangeOf (editor : TextEditor) (region : ClassifiedRegion) : Range :=
  let startPos := positionAt (document editor) (region_start region) in
  let endPos := positionAt (document editor) (region_end region) in
  newRange startPos endPos.

(** Line 44: [decorations[layer].push(range)]. *)
Definition pushRange (layer : SyntaxLayer) (range : Range)
    (decorations : SyntaxLayer → list Range) : SyntaxLayer → list Range :=
  fun l => if decide (l = layer) then decorations l ++ [range] else decorations l.

(** Lines 34-47: the regions, grouped by layer. *)
Definition groupByLayer (editor : TextEditor) (regions : list ClassifiedRegion)
    : SyntaxLayer → list Range :=
  foldl (fun decorations region =>
           pushRange (region_layer region) (rangeOf editor region) decorations)
        (fun _ => []) regions.

(** Lines 29-52. *)
Definition applyDecorations (editor : TextEditor) (regions : list ClassifiedRegion)
    (decorationTypes : DecorationTypes) : list Call :=
  let decorations := groupByLayer editor regions in
  (fun layer => setDecorations editor (decorationTypes layer) (decorations layer))
    <$> layerKeys.

(** Lines 54-62. *)
Definition clearDecorations (editor : option TextEditor)
    (decorationTypes : DecorationTypes) : list Call :=
  match editor with
  | None => []
  | Some editor =>
      (fun layer => setDecorations editor (decorationTypes layer) []) <$> layerKeys
  end.

(** Lines 64-72. *)
Definition clearAllDecorations (visibleTextEditors : list TextEditor)
    (decorationTypes : DecorationTypes) : list Call :=
  visibleTextEditors ≫= fun editor =>
    (fun layer => setDecorations editor (decorationTypes layer) []) <$> layerKeys.

(** [s.endsWith(suffix)]. *)
Definition endsWith (s suffix : string) : bool :=
  let n := String.length s in
  let k := String.length suffix in
  bool_decide (k ≤ n)%nat && bool_decide (String.substring (n - k) k s = suffix).

(** [fileName.match(/\.(tsx|jsx)$/)] is a match or [null]. *)
Definition isTsxOrJsx (fileName : string) : bool :=
  endsWith fileName ".tsx" || endsWith fileName ".jsx".

(** [updateDecorations] ([extension.ts] lines 72-81); [activeTextEditor] is
    [vscode.window.activeTextEditor]. *)
Definition updateDecorations `{ts : Compiler} (activeTextEditor : option TextEditor)
    (decorationTypes : DecorationTypes) : list Call :=
  match activeTextEditor with
  | None => []
  | Some editor =>
      if negb (isTsxOrJsx (fileName (document editor))) then []
      else
        let regions := classifyDocument (documentText (document editor)) in
        applyDecorations editor regions decorationTypes
  end.

End Decorator.

Arguments newRange {Position} _ _.
Arguments range_start {Position} _.
Arguments range_end {Position} _.
Arguments mkTextDocument {Position} _ _ _.
Arguments fileName {Position} _.
Arguments documentText {Position} _.
Arguments positionAt {Position} _ _.
Arguments mkTextEditor {Position} _.
Arguments document {Position} _.
Arguments setDecorations {Position DecorationType} _ _ _.
Arguments call_editor {Position DecorationType} _.
Arguments call_type {Position DecorationType} _.
Arguments call_ranges {Position DecorationType} _.
Arguments rangeOf {Position} _ _.
Arguments pushRange {Position} _ _ _ _.
Arguments groupByLayer {Position} _ _ _.
Arguments applyDecorations {Position DecorationType} _ _ _.
Arguments clearDecorations {Position DecorationType} _ _.
Arguments clearAllDecorations {Position DecorationType} _ _.
Arguments updateDecorations {Position DecorationType ts} _ _.

(** * Vocabulary of the properties

    Definitions used to state the properties below; none of them is part
    of [classifier.ts]. *)

(** ** Nesting depth of angle brackets *)

(** Change of nesting depth caused by the character at offset [j]. *)
Definition bracketDelta (sourceText : string) (j : Z) : Z :=
  if charIs sourceText j "<"%char then 1
  else if charIs sourceText j ">"%char then -1
  else 0.

(** Nesting depth just after offset [p], counting from depth 1 just after
    the opening bracket at [openBracketPos]. *)
Definition depthAfter (sourceText : string) (openBracketPos p : Z) : Z :=
  1 + foldr Z.add 0 (bracketDelta sourceText <$> seqZ (openBracketPos + 1) (p - openBracketPos)).

(** ** Candidates and the cells they paint *)

(** A candidate covers offset [i]. *)
Definition covers (r : RawRegion) (i : Z) : Prop := start r ≤ i < end_ r.

Global Instance covers_dec r i : Decision (covers r i).
Proof. unfold covers. apply _. Defined.

(** What one candidate does to the recorded (layer, priority) of an offset
    it covers. *)
Definition paintCell (r : RawRegion) (cell : option SyntaxLayer * Z)
  : option SyntaxLayer * Z :=
  if bool_decide (cell.2 < priority r) then (Some (layer r), priority r) else cell.

(** The recorded (layer, priority) of offset [j]. *)
Definition cell (maps : Maps) (j : nat) : option (option SyntaxLayer * Z) :=
  match positionMap maps !! j, priorityMap maps !! j with
  | Some l, Some p => Some (l, p)
  | _, _ => None
  end.

(** The two arrays have the document's length. *)
Definition sized (textLength : nat) (maps : Maps) : Prop :=
  length (positionMap maps) = textLength ∧ length (priorityMap maps) = textLength.

(** The recorded cell of offset [i] after all candidates, as a fold over the
    candidates in emission order. *)
Definition cellAfter (rawRegions : list RawRegion) (i : Z) : option SyntaxLayer * Z :=
  foldl (fun c r => if decide (covers r i) then paintCell r c else c) (None, 0) rawRegions.

(** Candidate [r], emitted at index [k], is the first-emitted one among the
    candidates of maximal priority that cover offset [i]. *)
Definition wins (rawRegions : list RawRegion) (i : Z) (k : nat) (r : RawRegion) : Prop :=
  rawRegions !! k = Some r ∧ covers r i
  ∧ (∀ r', r' ∈ rawRegions → covers r' i → priority r' ≤ priority r)
  ∧ (∀ k' r', (k' < k)%nat → rawRegions !! k' = Some r' → covers r' i →
              priority r' < priority r).

(** Candidates as [addRegion] makes them carry the priority of their layer,
    which is positive. *)
Definition positivePriorities (rawRegions : list RawRegion) : Prop :=
  Forall (fun r => 0 < priority r) rawRegions.

(** ** Shape of the output, and the invariant of the merging loop *)

(** Every region lies within [0, bound] and is not empty. *)
Definition withinBound (bound : Z) (out : list ClassifiedRegion) : Prop :=
  ∀ r, r ∈ out → 0 ≤ region_start r < region_end r ∧ region_end r ≤ bound.

(** Consecutive regions are in order and do not overlap. *)
Definition ordered (out : list ClassifiedRegion) : Prop :=
  ∀ k a b, out !! k = Some a → out !! S k = Some b → region_end a ≤ region_start b.

(** Consecutive regions that touch have different layers. *)
Definition touchingDiffer (out : list ClassifiedRegion) : Prop :=
  ∀ k a b, out !! k = Some a → out !! S k = Some b →
           region_end a = region_start b → region_layer a ≠ region_layer b.

(** Consecutive regions have different layers. *)
Definition consecutiveDiffer (out : list ClassifiedRegion) : Prop :=
  ∀ k a b, out !! k = Some a → out !! S k = Some b → region_layer a ≠ region_layer b.

(** The test of [getLayerAt]: the region contains the position. *)
Definition inside (r : ClassifiedRegion) (position : Z) : bool :=
  bool_decide (region_start r ≤ position) && bool_decide (position < region_end r).

(** Invariant of the merging loop once offsets [0 .. n-1] are processed. *)
Record MergeInv (posMap : list (option SyntaxLayer)) (n : nat) (ms : MergeState)
  : Prop := {
  inv_start : 0 ≤ currentStart ms ≤ Z.of_nat n;
  inv_start_lt : (0 < n)%nat → currentStart ms < Z.of_nat n;
  inv_empty : n = 0%nat → result ms = [] ∧ currentLayer ms = None;
  inv_run : ∀ i : nat, currentStart ms ≤ Z.of_nat i < Z.of_nat n →
                       mjoin (posMap !! i) = currentLayer ms;
  inv_bounds : withinBound (currentStart ms) (result ms);
  inv_ordered : ordered (result ms);
  inv_touching : touchingDiffer (result ms);
  inv_last : ∀ a, last (result ms) = Some a → region_end a = currentStart ms →
                  Some (region_layer a) ≠ currentLayer ms;
  inv_layer : ∀ i : nat, Z.of_nat i < currentStart ms →
                         getLayerAt (result ms) (Z.of_nat i) = mjoin (posMap !! i);
}.

(** ** The walk and its order *)

(** [visit] over a list of nodes, left to right. *)
Definition visitAll (sourceText : string) (nodes : list Node) (st : State) : State :=
  foldl (fun st child => visit sourceText child st) st nodes.

(** The calls of [visit] that [visit sourceText node st] makes, itself
    included, in the order in which they start, each with the state it
    starts from.  This is the pre-order walk of the collector. *)
Fixpoint trace (sourceText : string) (node : Node) (st : State) {struct node}
  : list (Node * State) :=
  (node, st) ::
  let '(st1, descent) := dispatch sourceText node st in
  let traceAll :=
    fix traceAll (nodes : list Node) (st : State) : list (Node * State) :=
      match nodes with
      | [] => []
      | child :: rest =>
          trace sourceText child st ++ traceAll rest (visit sourceText child st)
      end in
  match descent with
  | Return => []
  | ForEachChild => traceAll (forEachChild node) st1
  | VisitExpression =>
      match expression node with Some e => trace sourceText e st1 | None => [] end
  | VisitInitializer =>
      match initializer node with Some i => trace sourceText i st1 | None => [] end
  | VisitChildrenFrom1 =>
      match children node with _ :: rest => traceAll rest st1 | [] => [] end
  end.

Fixpoint traceAll (sourceText : string) (nodes : list Node) (st : State)
  : list (Node * State) :=
  match nodes with
  | [] => []
  | child :: rest =>
      trace sourceText child st ++ traceAll sourceText rest (visit sourceText child st)
  end.

(** The nodes that a [Descent] makes [visit] go into. *)
Definition descentNodes (node : Node) (descent : Descent) : list Node :=
  match descent with
  | Return => []
  | ForEachChild => forEachChild node
  | VisitExpression => option_list (expression node)
  | VisitInitializer => option_list (initializer node)
  | VisitChildrenFrom1 => tail (children node)
  end.

(** The name that visiting [node] adds to the tracked set. *)
Definition enumNameOf (node : Node) : gset string :=
  if isKind EnumDeclaration node
  then match name node with Some name => {[ text name ]} | None => ∅ end
  else ∅.

(** The enum names declared by the nodes of a stretch of the walk. *)
Definition declared (calls : list (Node * State)) : gset string :=
  ⋃ (enumNameOf <$> calls.*1).

(** At every call of the walk, the tracked set holds the names it held at
    the start plus those of the enum declarations visited before the call;
    at the end, plus those of all enum declarations visited. *)
Definition tracksEnums (sourceText : string) (calls : State → list (Node * State))
    (final : State → State) : Prop :=
  ∀ st,
    enumNames (final st) = enumNames st ∪ declared (calls st)
    ∧ ∀ k m stm, calls st !! k = Some (m, stm) →
                 enumNames stm = enumNames st ∪ declared (take k (calls st)).

(** The candidates held after the rule of a call of the walk are a prefix
    of the candidates that the whole walk returns: what a call adds stays,
    in place. *)
Definition keepsCalls (sourceText : string) (calls : State → list (Node * State))
    (final : State → State) : Prop :=
  ∀ st0 k node st, calls st0 !! k = Some (node, st) →
    rawRegions (dispatch sourceText node st).1 `prefix_of` rawRegions (final st0).

(** With room for [n] nested calls or more, the walk of [node] returns. *)
Definition returnsFrom (sourceText : string) (n : nat) (node : Node) : Prop :=
  ∀ stack st, (n ≤ stack)%nat →
    visitWithin sourceText stack node st = Some (visit sourceText node st).

Definition scanReturnsFrom `{ts : Compiler} (sourceText : string) (n : nat) (node : Node)
  : Prop :=
  ∀ stack st, (n ≤ stack)%nat →
    visitForCommentsWithin sourceText stack node st
    = Some (visitForComments sourceText node st).

(** ** Sample documents

    Each sample gives a source text together with the syntax tree that the
    TypeScript parser builds for it (offsets counted in the text), and a
    [Compiler] that returns this tree and the comment ranges of the text. *)

Definition noComments : string → Z → list CommentRange := fun _ _ => [].

Module UseState.
(** [useState(0)] *)
Definition sourceText : string := "useState(0)".
Definition callee : Node := with_text "useState" (leaf Identifier 0 0 8).
Definition argument : Node := with_text "0" (leaf NumericLiteral 9 9 10).
Definition call : Node :=
  with_forEachChild [callee; argument]
    (with_arguments [argument] (with_expression callee (leaf CallExpression 0 0 11))).
Definition statement : Node :=
  with_forEachChild [call] (with_expression call (leaf ExpressionStatement 0 0 11)).
Definition sourceFile : Node :=
  with_forEachChild [statement; leaf EndOfFileToken 11 11 11] (leaf SourceFile 0 0 11).
Definition compiler : Compiler :=
  {| createSourceFile := fun _ => sourceFile;
     getLeadingCommentRanges := noComments;
     getTrailingCommentRanges := noComments |}.
End UseState.

Module TwoStatements.
(** [a; b;] *)
Definition sourceText : string := "a; b;".
Definition a : Node := with_text "a" (leaf Identifier 0 0 1).
Definition b : Node := with_text "b" (leaf Identifier 2 3 4).
Definition first : Node :=
  with_forEachChild [a] (with_expression a (leaf ExpressionStatement 0 0 2)).
Definition second : Node :=
  with_forEachChild [b] (with_expression b (leaf ExpressionStatement 2 3 5)).
Definition sourceFile : Node :=
  with_forEachChild [first; second; leaf EndOfFileToken 5 5 5] (leaf SourceFile 0 0 5).
Definition compiler : Compiler :=
  {| createSourceFile := fun _ => sourceFile;
     getLeadingCommentRanges := noComments;
     getTrailingCommentRanges := noComments |}.
End TwoStatements.

Module Blank.
(** Three spaces, a line feed, a tab, two spaces: the text of the test
    "handles whitespace only". *)
Definition sourceText : string :=
  String.append "   " (String "010"%char (String "009"%char "  ")).
(** For a text without tokens the parser returns a source file whose only
    child is the end-of-file token; all of the text is leading trivia of
    that token. *)
Definition compiler : Compiler :=
  {| createSourceFile := fun text =>
       let n := textLen text in
       with_forEachChild [leaf EndOfFileToken 0 n n] (leaf SourceFile 0 n n);
     getLeadingCommentRanges := noComments;
     getTrailingCommentRanges := noComments |}.
End Blank.

Module UnclosedTypeParameters.
(** [function f<T]: the type parameter list is never closed. *)
Definition sourceText : string := "function f<T".
Definition name_f : Node := with_text "f" (leaf Identifier 8 9 10).
Definition name_T : Node := with_text "T" (leaf Identifier 11 11 12).
Definition typeParameter : Node :=
  with_forEachChild [name_T] (with_name name_T (leaf TypeParameter 11 11 12)).
Definition declaration : Node :=
  with_forEachChild [name_f; typeParameter]
    (with_typeParameters [typeParameter]
       (with_name name_f (leaf FunctionDeclaration 0 0 12))).
Definition sourceFile : Node :=
  with_forEachChild [declaration; leaf EndOfFileToken 12 12 12] (leaf SourceFile 0 0 12).
Definition compiler : Compiler :=
  {| createSourceFile := fun _ => sourceFile;
     getLeadingCommentRanges := noComments;
     getTrailingCommentRanges := noComments |}.
End UnclosedTypeParameters.

Module EnumThenAccess.
(** [enum E { A } E.A;] *)
Definition sourceText : string := "enum E { A } E.A;".
Definition enumName : Node := with_text "E" (leaf Identifier 4 5 6).
Definition memberName : Node := with_text "A" (leaf Identifier 8 9 10).
Definition member : Node :=
  with_forEachChild [memberName] (with_name memberName (leaf OtherKind 8 9 10)).
Definition enum : Node :=
  with_forEachChild [enumName; member]
    (with_name enumName (leaf EnumDeclaration 0 0 12)).
Definition base : Node := with_text "E" (leaf Identifier 12 13 14).
Definition property : Node := with_text "A" (leaf Identifier 15 15 16).
Definition access : Node :=
  with_forEachChild [base; property]
    (with_name property (with_expression base (leaf PropertyAccessExpression 12 13 16))).
Definition statement : Node :=
  with_forEachChild [access] (with_expression access (leaf ExpressionStatement 12 13 17)).
Definition sourceFile : Node :=
  with_forEachChild [enum; statement; leaf EndOfFileToken 17 17 17]
    (leaf SourceFile 0 0 17).
Definition compiler : Compiler :=
  {| createSourceFile := fun _ => sourceFile;
     getLeadingCommentRanges := noComments;
     getTrailingCommentRanges := noComments |}.
End EnumThenAccess.

Module DecoratorComment.
(** [@a(x /*c*/) class B {}]: the comment at [5, 10) follows [x] on its
    line, so that it is a trailing comment of the offset 4 where [x] ends;
    it lies inside the decorator [0, 11). *)
Definition sourceText : string := "@a(x /*c*/) class B {}".
Definition a : Node := with_text "a" (leaf Identifier 1 1 2).
Definition x : Node := with_text "x" (leaf Identifier 3 3 4).
Definition call : Node :=
  with_forEachChild [a; x]
    (with_arguments [x] (with_expression a (leaf CallExpression 1 1 11))).
Definition decorator : Node :=
  with_forEachChild [call] (with_expression call (leaf Decorator 0 0 11)).
Definition className : Node := with_text "B" (leaf Identifier 17 18 19).
Definition class : Node :=
  with_forEachChild [decorator; className]
    (with_modifiers [decorator] (with_name className (leaf ClassDeclaration 0 0 22))).
Definition sourceFile : Node :=
  with_forEachChild [class; leaf EndOfFileToken 22 22 22] (leaf SourceFile 0 0 22).
Definition compiler : Compiler :=
  {| createSourceFile := fun _ => sourceFile;
     getLeadingCommentRanges := noComments;
     getTrailingCommentRanges := fun _ pos =>
       if bool_decide (pos = 4) then [mkCommentRange 5 10] else [] |}.
End DecoratorComment.

Module InterfaceComment.
(** [interface P { f: FC<A /*c*/> }]: the comment at [22, 27) follows [A]
    on its line, so that it is a trailing comment of the offset 21 where
    [A] ends; it lies inside the interface [0, 30) and inside the reference
    to [FC] at [17, 28). *)
Definition sourceText : string := "interface P { f: FC<A /*c*/> }".
Definition name_P : Node := with_text "P" (leaf Identifier 9 10 11).
Definition name_f : Node := with_text "f" (leaf Identifier 13 14 15).
Definition name_FC : Node := with_text "FC" (leaf Identifier 16 17 19).
Definition name_A : Node := with_text "A" (leaf Identifier 20 20 21).
Definition reference_A : Node :=
  with_forEachChild [name_A] (with_typeName name_A (leaf TypeReference 20 20 21)).
Definition reference_FC : Node :=
  with_forEachChild [name_FC; reference_A]
    (with_typeArguments [reference_A]
       (with_typeName name_FC (leaf TypeReference 16 17 28))).
Definition member : Node :=
  with_forEachChild [name_f; reference_FC]
    (with_getChildren [name_f; leaf ColonToken 15 15 16; reference_FC]
       (with_type reference_FC (with_name name_f (leaf PropertySignature 13 14 28)))).
Definition interface : Node :=
  with_forEachChild [name_P; member]
    (with_name name_P (leaf InterfaceDeclaration 0 0 30)).
Definition sourceFile : Node :=
  with_forEachChild [interface; leaf EndOfFileToken 30 30 30] (leaf SourceFile 0 0 30).
Definition compiler : Compiler :=
  {| createSourceFile := fun _ => sourceFile;
     getLeadingCommentRanges := noComments;
     getTrailingCommentRanges := fun _ pos =>
       if bool_decide (pos = 21) then [mkCommentRange 22 27] else [] |}.
End InterfaceComment.

Module LongSum.
(** [function f<T extends "<">() {} x+x+x;], with as many [+x] as asked
    for.  The ['<'] inside the string literal leaves the type parameter
    list without a matching ['>'].  The parser builds a sum from the left
    in a loop, so that [count] additions nest [count] deep. *)
Definition quote : string := String "034"%char "".
Fixpoint terms (count : nat) : string :=
  match count with
  | O => ""
  | S count => String "+"%char (String "x"%char (terms count))
  end.
Definition sourceText (count : nat) : string :=
  ("function f<T extends " ++ quote ++ "<" ++ quote ++ ">() {} x"
     ++ terms count ++ ";")%string.
Definition name_f : Node := with_text "f" (leaf Identifier 8 9 10).
Definition name_T : Node := with_text "T" (leaf Identifier 11 11 12).
Definition literal : Node := with_text "<" (leaf StringLiteral 20 21 24).
Definition constraint : Node := with_forEachChild [literal] (leaf LiteralType 20 21 24).
Definition typeParameter : Node :=
  with_forEachChild [name_T; constraint] (with_name name_T (leaf TypeParameter 11 11 24)).
Definition body : Node := leaf OtherKind 27 28 30.
Definition declaration : Node :=
  with_forEachChild [name_f; typeParameter; body]
    (with_typeParameters [typeParameter]
       (with_name name_f (leaf FunctionDeclaration 0 0 30))).
(** The sum of [count] additions: it starts at 31 after the blank at 30;
    its last operator is at [32 + 2 * (count - 1)]. *)
Fixpoint sum (count : nat) : Node :=
  match count with
  | O => with_text "x" (leaf Identifier 30 31 32)
  | S count =>
      let operator := 32 + 2 * Z.of_nat count in
      with_forEachChild
        [sum count;
         leaf OtherKind operator operator (operator + 1);
         with_text "x" (leaf Identifier (operator + 1) (operator + 1) (operator + 2))]
        (leaf BinaryExpression 30 31 (operator + 2))
  end.
Definition statement (count : nat) : Node :=
  let end_ := 32 + 2 * Z.of_nat count in
  with_forEachChild [sum count]
    (with_expression (sum count) (leaf ExpressionStatement 30 31 (end_ + 1))).
Definition sourceFile (count : nat) : Node :=
  let end_ := 33 + 2 * Z.of_nat count in
  with_forEachChild [declaration; statement count; leaf EndOfFileToken end_ end_ end_]
    (leaf SourceFile 0 0 end_).
Definition compiler (count : nat) : Compiler :=
  {| createSourceFile := fun _ => sourceFile count;
     getLeadingCommentRanges := noComments;
     getTrailingCommentRanges := noComments |}.
End LongSum.

Module Session.
(** Three invocations, on [useState(0)], on [a; b;] and on [useState(0)]
    again, on a heap that already holds a set with a name in it. *)
Definition texts : list string :=
  [UseState.sourceText; TwoStatements.sourceText; UseState.sourceText].
Definition compiler : Compiler :=
  {| createSourceFile := fun sourceText =>
       if bool_decide (sourceText = TwoStatements.sourceText)
       then TwoStatements.sourceFile else UseState.sourceFile;
     getLeadingCommentRanges := noComments;
     getTrailingCommentRanges := noComments |}.
Definition heap : gmap positive Object :=
  {[ 1%positive := SetObject {[ "E"%string ]} ]}.
End Session.

(** ** Blank documents *)

(** Every character of the text is white space. *)
Definition whiteSpaceOnly (sourceText : string) : Prop :=
  forallb isWhiteSpace (list_ascii_of_string sourceText) = true.

(** What [classifyDocument] relies on from the parser for a text without
    tokens: the tree is a source file whose children are end-of-file tokens
    without children, and the text holds no comment. *)
Record ParsesBlank (ts : Compiler) : Prop := {
  blank_kind : ∀ text, whiteSpaceOnly text → kind (createSourceFile text) = SourceFile;
  blank_children : ∀ text, whiteSpaceOnly text →
    Forall (λ child, kind child = EndOfFileToken ∧ forEachChild child = [])
           (forEachChild (createSourceFile text));
  blank_leading : ∀ text pos, whiteSpaceOnly text → getLeadingCommentRanges text pos = [];
  blank_trailing : ∀ text pos, whiteSpaceOnly text → getTrailingCommentRanges text pos = [];
}.

(** ** Failed bracket scans and exceptions *)

(** The last clause of the claim on failed bracket scans, for a call stack
    with room for [stack] nested calls: a document that holds a function
    declaration whose type parameter list has no matching close bracket is
    classified without an exception. *)
Definition failedScanRaisesNothing (stack : nat) : Prop :=
  ∀ (ts : Compiler) sourceText declaration firstParam rest,
    declaration ∈ forEachChild (createSourceFile sourceText) →
    kind declaration = FunctionDeclaration →
    typeParameters declaration = firstParam :: rest →
    findMatchingCloseBracket sourceText
      (findOpeningBracket sourceText (getStart firstParam - 1)) = -1 →
    is_Some (classifyDocumentWithin stack sourceText).

(** ** Comments inside a span of another layer *)

(** The claim on comments, as the specification words it: at every offset
    of a base-layer candidate [C] that lies inside a candidate [H] of
    another layer, the output shows the layer of [H]. *)
Definition commentsTakeSpanLayer `{ts : Compiler} (sourceText : string) : Prop :=
  ∀ H C (i : nat),
    H ∈ rawRegions (collect sourceText) → C ∈ rawRegions (collect sourceText) →
    layer C = javascript → layer H ≠ javascript →
    start H ≤ start C → end_ C ≤ end_ H →
    covers C (Z.of_nat i) → (i < String.length sourceText)%nat →
    getLayerAt (classifyDocument sourceText) (Z.of_nat i) = Some (layer H).

(** ** Priorities of the collected candidates *)

(** Every candidate carries the priority of its layer. *)
Definition wellPrioritized (st : State) : Prop :=
  Forall (λ r, priority r = PRIORITY (layer r)) (rawRegions st).

(** ** Candidates that carry the priority of their layer *)

(** Every candidate has the priority that [PRIORITY] gives its layer, as
    [addRegion] makes them. *)
Definition layerPriorities (rawRegions : list RawRegion) : Prop :=
  Forall (λ r, priority r = PRIORITY (layer r)) rawRegions.

(** A region of the output, taken as a candidate again. *)
Definition asCandidate (r : ClassifiedRegion) : RawRegion :=
  mkRawRegion (region_start r) (region_end r) (region_layer r)
              (PRIORITY (region_layer r)).

(** ** The nodes of a tree, and the comments around them *)

(** The node and everything below it, in the order of [forEachChild]. *)
Fixpoint descendants (node : Node) : list Node :=
  node :: flat_map descendants (forEachChild node).

(** The comment ranges that [visitForComments] looks up at one node. *)
Definition commentRangesOf `{ts : Compiler} (sourceText : string) (node : Node)
  : list CommentRange :=
  (if bool_decide (getFullStart node < getStart node)
   then getLeadingCommentRanges sourceText (getFullStart node) else [])
  ++ getTrailingCommentRanges sourceText (getEnd node).

(** The candidates of a list of comment ranges: the non-empty ones, base
    layer. *)
Definition commentCandidates (comments : list CommentRange) : list RawRegion :=
  (λ c, mkRawRegion (comment_pos c) (comment_end c) javascript 1)
    <$> filter (λ c, comment_pos c < comment_end c) comments.

(** Nodes at which [visit] returns without visiting anything below. *)
Definition pruned (node : Node) : Prop :=
  kind node = Decorator ∨ kind node = ModuleDeclaration
  ∨ kind node = EnumDeclaration ∨ kind node = JsxClosingElement
  ∨ hasDeclare node = true
    ∧ (kind node = VariableStatement ∨ kind node = ClassDeclaration
       ∨ kind node = FunctionDeclaration).

(** ** Candidates gathered earlier *)

(** [st] with the candidates [pre] put before its own. *)
Definition shift (pre : list RawRegion) (st : State) : State :=
  mkState (pre ++ rawRegions st) (enumNames st).

(** ** Decorations *)

(** The ranges of the regions of one layer, in the order of the regions. *)
Definition rangesOfLayer {Position} (editor : TextEditor Position)
    (regions : list ClassifiedRegion) (layer : SyntaxLayer) : list (Range Position) :=
  rangeOf editor <$> filter (λ r, region_layer r = layer) regions.

(** A sample editor: positions are offsets, decoration types are named. *)
Module Editor.
Definition editor (name text : string) : TextEditor Z :=
  mkTextEditor (mkTextDocument name text (λ offset, offset)).
Definition decorationTypes : DecorationTypes string :=
  λ layer, match layer with
           | javascript => "js" | typescript => "ts" | jsx => "jsx" | react => "react"
           end%string.
End Editor.

(** * Properties *)

(** ** The model on small inputs *)

Example findOpeningBracket_ex :
  findOpeningBracket "new Map<string, Set<number>>()" 7 = 7.
Proof. reflexivity. Qed.

Example findMatchingCloseBracket_ex :
  findMatchingCloseBracket "new Map<string, Set<number>>()" 7 = 27.
Proof. vm_compute. reflexivity. Qed.

Example resolveOverlaps_ex :
  resolveOverlaps [mkRawRegion 0 11 javascript 1; mkRawRegion 0 8 react 4;
                   mkRawRegion 13 20 javascript 1] 20
  = [mkRegion 0 8 react; mkRegion 8 11 javascript; mkRegion 13 20 javascript].
Proof. vm_compute. reflexivity. Qed.

Example has_ex : has REACT_HOOKS "useState" = true ∧ has REACT_HOOKS "useMine" = false.
Proof. split; vm_compute; reflexivity. Qed.

Example isQualifiedHook_ex :
  isQualifiedHook "React.useState" = true ∧ isQualifiedHook "React.use" = true ∧
  isQualifiedHook "React.user" = false ∧ isQualifiedHook "React.memo" = false.
Proof. repeat split. Qed.

Example includes_ex :
  includes "(x) => x" "=>" = true ∧ includes "item" "=>" = false.
Proof. split; reflexivity. Qed.

Example isPascalCase_ex :
  isPascalCase "AdminBadge" = true ∧ isPascalCase "div" = false
  ∧ isPascalCase "A-b" = false ∧ isPascalCase "" = false.
Proof. repeat split. Qed.

Example getText_ex :
  getText "useState(0)" (leaf Identifier 0 0 8) = "useState"
  ∧ substring "useState(0)" 8 0 = "useState" ∧ substring "abc" (-2) 9 = "abc".
Proof. repeat split. Qed.

(** The loop of the spread-attribute rule stops because its condition
    fails, not because the bound on its iterations is reached. *)
Lemma skipWhiteSpace_steps sourceText steps spreadStart end_ :
  (Z.to_nat (end_ - spreadStart) ≤ steps)%nat →
  let r := skipWhiteSpace sourceText steps spreadStart end_ in
  bool_decide (r < end_) && isWhiteSpaceAt sourceText r = false.
Proof.
  revert spreadStart. induction steps as [|steps IH]; intros spreadStart Hsteps; simpl.
  - rewrite bool_decide_eq_false_2 by lia. done.
  - destruct (bool_decide (spreadStart < end_) && isWhiteSpaceAt sourceText spreadStart)
      eqn:Hguard; [|done].
    apply IH. apply andb_true_iff in Hguard as [Hlt _].
    apply bool_decide_eq_true in Hlt. lia.
Qed.

(** ** Bracket matcher *)

Lemma charIs_true sourceText pos c :
  charIs sourceText pos c = true ↔ charAt sourceText pos = Some c.
Proof. unfold charIs. by rewrite bool_decide_eq_true. Qed.

Lemma charIs_false sourceText pos c :
  charIs sourceText pos c = false ↔ charAt sourceText pos ≠ Some c.
Proof. unfold charIs. by rewrite bool_decide_eq_false. Qed.

Lemma charAt_Some_range sourceText pos c :
  charAt sourceText pos = Some c → 0 ≤ pos < textLen sourceText.
Proof.
  unfold charAt, textLen. case_decide; [|done].
  intros Hget. split; [done|].
  assert (Z.to_nat pos < String.length sourceText)%nat; [|lia].
  clear -Hget. revert Hget. generalize (Z.to_nat pos) as n.
  induction sourceText as [|a s IH]; intros [|n] Hget; simpl in *;
    try discriminate; try lia.
  apply IH in Hget. lia.
Qed.

(** The loop of [findOpeningBracket] stops because its condition fails, not
    because the bound on its iterations is reached. *)
Lemma scanOpening_steps steps sourceText pos :
  (Z.to_nat pos ≤ steps)%nat →
  let r := scanOpening steps sourceText pos in
  bool_decide (0 < r) && negb (charIs sourceText r "<"%char) = false.
Proof.
  revert pos. induction steps as [|steps IH]; intros pos Hsteps; simpl.
  - rewrite bool_decide_eq_false_2 by lia. done.
  - destruct (bool_decide (0 < pos) && negb (charIs sourceText pos "<"%char)) eqn:Hguard.
    + apply IH. apply andb_true_iff in Hguard as [Hpos _].
      apply bool_decide_eq_true in Hpos. lia.
    + exact Hguard.
Qed.

Lemma scanOpening_spec steps sourceText pos :
  let r := scanOpening steps sourceText pos in
  (pos ≤ 0 → r = pos) ∧
  (0 < pos → 0 ≤ r ≤ pos) ∧
  (∀ j, r < j ≤ pos → charAt sourceText j ≠ Some "<"%char).
Proof.
  revert pos. induction steps as [|steps IH]; intros pos; simpl.
  - repeat split; intros; lia.
  - destruct (bool_decide (0 < pos) && negb (charIs sourceText pos "<"%char)) eqn:Hguard.
    + apply andb_true_iff in Hguard as [Hpos Hchar].
      apply bool_decide_eq_true in Hpos. apply negb_true_iff, charIs_false in Hchar.
      destruct (IH (pos - 1)) as (IH1 & IH2 & IH3).
      split; [lia|]. split.
      * intros _. destruct (decide (pos - 1 ≤ 0)) as [Hle|Hgt].
        -- rewrite IH1 by done. lia.
        -- specialize (IH2 ltac:(lia)). lia.
      * intros j Hj. destruct (decide (j = pos)) as [->|Hne]; [done|].
        apply IH3. lia.
    + repeat split; intros; lia.
Qed.

(** The backward scan returns the nearest ['<'] at or before [beforePos],
    and [-1] exactly when there is none from [beforePos] down to 0. *)
Lemma findOpeningBracket_spec sourceText beforePos :
  let r := findOpeningBracket sourceText beforePos in
  (r = -1 ∧ ∀ j, 0 ≤ j ≤ beforePos → charAt sourceText j ≠ Some "<"%char)
  ∨ (0 ≤ r ≤ beforePos ∧ charAt sourceText r = Some "<"%char
     ∧ ∀ j, r < j ≤ beforePos → charAt sourceText j ≠ Some "<"%char).
Proof.
  unfold findOpeningBracket.
  pose proof (scanOpening_spec (Z.to_nat beforePos) sourceText beforePos) as (H1 & H2 & H3).
  pose proof (scanOpening_steps (Z.to_nat beforePos) sourceText beforePos
                ltac:(lia)) as Hstop.
  simpl in *.
  set (r := scanOpening (Z.to_nat beforePos) sourceText beforePos) in *.
  destruct (charIs sourceText r "<"%char) eqn:Hchar.
  - right. apply charIs_true in Hchar.
    pose proof (charAt_Some_range _ _ _ Hchar) as Hrange.
    split; [|done].
    destruct (decide (beforePos ≤ 0)); [rewrite (H1 ltac:(done)) in *; lia|].
    specialize (H2 ltac:(lia)). lia.
  - left. split; [done|]. intros j Hj.
    rewrite andb_false_iff, bool_decide_eq_false, negb_false_iff in Hstop.
    destruct Hstop as [Hr|Hr]; [|congruence].
    apply charIs_false in Hchar.
    destruct (decide (j = r)) as [->|Hne]; [done|].
    apply H3.
    destruct (decide (beforePos ≤ 0)); [rewrite (H1 ltac:(done)) in *; lia|].
    specialize (H2 ltac:(lia)). lia.
Qed.

Lemma depthAfter_start sourceText o : depthAfter sourceText o o = 1.
Proof. unfold depthAfter. rewrite seqZ_nil by lia. done. Qed.

Lemma depthAfter_next sourceText o p :
  o ≤ p →
  depthAfter sourceText o (p + 1) = depthAfter sourceText o p + bracketDelta sourceText (p + 1).
Proof.
  intros Hp. unfold depthAfter.
  replace (p + 1 - o) with ((p - o) + 1) by lia.
  rewrite seqZ_app by lia. rewrite fmap_app, foldr_app.
  rewrite (seqZ_cons _ 1) by lia. rewrite seqZ_nil by lia. simpl.
  replace (o + 1 + (p - o)) with (p + 1) by lia.
  generalize (bracketDelta sourceText <$> seqZ (o + 1) (p - o)) as l.
  generalize (bracketDelta sourceText (p + 1)) as d.
  intros d l. rewrite Z.add_0_r.
  assert (∀ acc, foldr Z.add acc l = foldr Z.add 0 l + acc) as Hacc.
  { induction l as [|x l IH]; intros acc; simpl; [lia|]. rewrite IH. lia. }
  rewrite Hacc. lia.
Qed.

Lemma depthAfter_step sourceText o p :
  o < p →
  depthAfter sourceText o p = depthAfter sourceText o (p - 1) + bracketDelta sourceText p.
Proof.
  intros Hp. pose proof (depthAfter_next sourceText o (p - 1) ltac:(lia)) as Hnext.
  by replace (p - 1 + 1) with p in Hnext by lia.
Qed.

Lemma bracketDelta_bounds sourceText j : -1 ≤ bracketDelta sourceText j ≤ 1.
Proof. unfold bracketDelta. repeat case_match; lia. Qed.

Lemma scanClose_done steps sourceText pos : scanClose steps sourceText pos 0 = (pos, 0).
Proof.
  destruct steps; simpl; [done|].
  by destruct (bool_decide (pos < textLen sourceText)).
Qed.

Lemma scanClose_spec steps sourceText o pos depth :
  o < pos → depth = depthAfter sourceText o (pos - 1) → 0 < depth →
  (Z.to_nat (textLen sourceText - pos) ≤ steps)%nat →
  ∃ pos' depth',
    scanClose steps sourceText pos depth = (pos', depth')
    ∧ depth' = depthAfter sourceText o (pos' - 1)
    ∧ (∀ p, pos - 1 ≤ p < pos' - 1 → 0 < depthAfter sourceText o p)
    ∧ ((depth' = 0 ∧ pos < pos' ≤ textLen sourceText)
       ∨ (0 < depth' ∧ pos ≤ pos' ∧ textLen sourceText ≤ pos')).
Proof.
  revert pos depth.
  induction steps as [|steps IH]; intros pos depth Ho Hdepth Hpos Hsteps; simpl.
  - exists pos, depth. repeat split; [done|intros; lia|right; lia].
  - destruct (decide (pos < textLen sourceText)) as [Hlt|Hge].
    + rewrite !bool_decide_eq_true_2 by done. simpl.
      set (depth' := if charIs sourceText pos "<"%char then depth + 1
                     else if charIs sourceText pos ">"%char then depth - 1
                     else depth).
      assert (depth' = depthAfter sourceText o pos) as Hdepth'.
      { rewrite (depthAfter_step _ _ pos) by lia. rewrite <-Hdepth.
        unfold depth', bracketDelta. repeat case_match; lia. }
      assert (0 ≤ depth') as Hnonneg.
      { unfold depth'. repeat case_match; lia. }
      destruct (decide (depth' = 0)) as [Hzero|Hnz].
      * rewrite Hzero, scanClose_done. exists (pos + 1), 0.
        split; [done|]. split.
        { replace (pos + 1 - 1) with pos by lia. congruence. }
        split; [|left; lia].
        intros p Hp. replace p with (pos - 1) by lia. by rewrite <-Hdepth.
      * destruct (IH (pos + 1) depth') as (pos' & d' & Hrun & Hd' & Hbefore & Hexit).
        { lia. } { by replace (pos + 1 - 1) with pos by lia. } { lia. } { lia. }
        exists pos', d'. split; [done|]. split; [done|]. split.
        { intros p Hp. destruct (decide (p = pos - 1)) as [->|Hne].
          - by rewrite <-Hdepth.
          - apply Hbefore. lia. }
        destruct Hexit as [?|?]; [left|right]; lia.
    + rewrite (bool_decide_eq_false_2 (pos < _)) by done. simpl.
      exists pos, depth. repeat split; [done|intros; lia|right; lia].
Qed.

(** The loop of [findMatchingCloseBracket] stops because its condition
    fails, not because the bound on its iterations is reached. *)
Lemma scanClose_steps sourceText openBracketPos :
  let pos0 := openBracketPos + 1 in
  let '(pos, depth) :=
    scanClose (Z.to_nat (textLen sourceText - pos0)) sourceText pos0 1 in
  bool_decide (pos < textLen sourceText) && bool_decide (0 < depth) = false.
Proof.
  simpl.
  destruct (scanClose_spec (Z.to_nat (textLen sourceText - (openBracketPos + 1)))
              sourceText openBracketPos (openBracketPos + 1) 1)
    as (pos & depth & -> & _ & _ & Hexit); try lia.
  { replace (openBracketPos + 1 - 1) with openBracketPos by lia.
    by rewrite depthAfter_start. }
  apply andb_false_iff. rewrite !bool_decide_eq_false. lia.
Qed.

(** The forward scan returns the first offset after the opening bracket at
    which the nesting depth is back to 0, which holds a ['>'], and [-1]
    exactly when the depth stays positive up to the end of the text. *)
Lemma findMatchingCloseBracket_spec sourceText openBracketPos :
  let r := findMatchingCloseBracket sourceText openBracketPos in
  (r = -1 ∧ ∀ p, openBracketPos < p < textLen sourceText →
              0 < depthAfter sourceText openBracketPos p)
  ∨ (openBracketPos < r < textLen sourceText
     ∧ charAt sourceText r = Some ">"%char
     ∧ depthAfter sourceText openBracketPos r = 0
     ∧ ∀ p, openBracketPos < p < r → 0 < depthAfter sourceText openBracketPos p).
Proof.
  unfold findMatchingCloseBracket. simpl.
  destruct (scanClose_spec (Z.to_nat (textLen sourceText - (openBracketPos + 1)))
              sourceText openBracketPos (openBracketPos + 1) 1)
    as (pos & depth & -> & Hdepth & Hbefore & Hexit); try lia.
  { replace (openBracketPos + 1 - 1) with openBracketPos by lia.
    by rewrite depthAfter_start. }
  destruct Hexit as [[Hzero Hrange]|[Hpositive Hrange]].
  - rewrite bool_decide_eq_true_2 by done. right.
    split; [lia|]. split; [|split; [congruence|intros; apply Hbefore; lia]].
    assert (0 < depthAfter sourceText openBracketPos (pos - 1 - 1)) as Hprev
      by (apply Hbefore; lia).
    rewrite (depthAfter_step _ _ (pos - 1)) in Hdepth by lia.
    unfold bracketDelta in Hdepth.
    destruct (charIs sourceText (pos - 1) "<"%char); [lia|].
    destruct (charIs sourceText (pos - 1) ">"%char) eqn:Hclose; [|lia].
    by apply charIs_true.
  - rewrite bool_decide_eq_false_2 by lia. left. split; [done|].
    intros p Hp. destruct (decide (p = pos - 1)) as [->|Hne]; [lia|].
    apply Hbefore. lia.
Qed.

(** ** Overlap resolver: the painting pass *)

Lemma paintOffset_sized textLength region maps x :
  sized textLength maps → sized textLength (paintOffset region maps x).
Proof.
  intros [Hpos Hprio]. unfold paintOffset.
  destruct (arrGet (priorityMap maps) x); [|done].
  case_bool_decide; [|done]. split; simpl; by rewrite length_insert.
Qed.

Lemma paintOffset_cell textLength region maps x j :
  sized textLength maps →
  cell (paintOffset region maps x) j =
    if decide (x = Z.of_nat j) then paintCell region <$> cell maps j else cell maps j.
Proof.
  intros [Hpos Hprio]. unfold paintOffset, arrGet, cell.
  destruct (decide (x = Z.of_nat j)) as [->|Hne].
  - rewrite decide_True by lia. rewrite Nat2Z.id.
    destruct (priorityMap maps !! j) as [p|] eqn:Hp.
    + assert (j < textLength)%nat as Hj by (rewrite <-Hprio; by eapply lookup_lt_Some).
      destruct (positionMap maps !! j) as [l|] eqn:Hl.
      2:{ apply lookup_ge_None in Hl. lia. }
      unfold paintCell. simpl. case_bool_decide; simpl.
      * rewrite !list_lookup_insert_eq by lia. done.
      * by rewrite Hl, Hp.
    + simpl. rewrite Hp. by destruct (positionMap maps !! j).
  - case_decide.
    + destruct (priorityMap maps !! Z.to_nat x) as [p|]; [|done].
      case_bool_decide; [|done]. simpl.
      rewrite !list_lookup_insert_ne by lia. done.
    + done.
Qed.

Lemma paintOffsets_sized textLength region idxs maps :
  sized textLength maps → sized textLength (foldl (paintOffset region) maps idxs).
Proof.
  revert maps. induction idxs as [|x idxs IH]; intros maps Hsized; simpl; [done|].
  by apply IH, paintOffset_sized.
Qed.

Lemma paintOffsets_cell textLength region idxs maps j :
  NoDup idxs → sized textLength maps →
  cell (foldl (paintOffset region) maps idxs) j =
    if decide (Z.of_nat j ∈ idxs) then paintCell region <$> cell maps j else cell maps j.
Proof.
  revert maps. induction idxs as [|x idxs IH]; intros maps Hnodup Hsized; cbn [foldl].
  - rewrite decide_False; [done|]. by intros ?%elem_of_nil.
  - apply NoDup_cons in Hnodup as [Hx Hnodup].
    rewrite IH by eauto using paintOffset_sized.
    rewrite (paintOffset_cell textLength) by done.
    destruct (decide (Z.of_nat j ∈ idxs)) as [Hin|Hnotin].
    + rewrite decide_False by (intros ->; done).
      rewrite decide_True by (apply elem_of_cons; by right). done.
    + destruct (decide (x = Z.of_nat j)) as [->|Hne].
      * rewrite decide_True by (apply elem_of_cons; by left). done.
      * rewrite decide_False; [done|].
        intros [?|?]%elem_of_cons; done.
Qed.

Lemma paintRegion_sized textLength maps region :
  sized textLength maps → sized textLength (paintRegion textLength maps region).
Proof. apply paintOffsets_sized. Qed.

(** One candidate changes exactly the offsets it covers, and there only if
    its priority is strictly greater than the recorded one. *)
Lemma paintRegion_cell textLength maps region j :
  sized textLength maps → (j < textLength)%nat →
  cell (paintRegion textLength maps region) j =
    if decide (covers region (Z.of_nat j))
    then paintCell region <$> cell maps j else cell maps j.
Proof.
  intros Hsized Hj. unfold paintRegion.
  rewrite (paintOffsets_cell textLength) by (done || apply NoDup_seqZ).
  destruct (decide (covers region (Z.of_nat j))) as [Hc|Hc]; unfold covers in Hc.
  - rewrite decide_True; [done|]. apply elem_of_seqZ. lia.
  - rewrite decide_False; [done|]. rewrite elem_of_seqZ. lia.
Qed.

Lemma paintAll_cell rawRegions textLength j :
  (j < textLength)%nat →
  sized textLength (paintAll rawRegions textLength) ∧
  cell (paintAll rawRegions textLength) j = Some (cellAfter rawRegions (Z.of_nat j)).
Proof.
  intros Hj. unfold paintAll, cellAfter.
  induction rawRegions as [|r rs IH] using rev_ind.
  - simpl. split; [split; simpl; by rewrite length_replicate|].
    unfold cell. simpl. by rewrite !lookup_replicate_2.
  - rewrite !foldl_app. simpl. destruct IH as [Hsized Hcell].
    split; [by apply paintRegion_sized|].
    rewrite paintRegion_cell by done. rewrite Hcell.
    by destruct (decide (covers r (Z.of_nat j))).
Qed.

Lemma wins_unique rawRegions i k1 r1 k2 r2 :
  wins rawRegions i k1 r1 → wins rawRegions i k2 r2 → k1 = k2 ∧ r1 = r2.
Proof.
  intros (Hk1 & Hc1 & Hmax1 & Hfirst1) (Hk2 & Hc2 & Hmax2 & Hfirst2).
  assert (k1 = k2) as ->.
  { destruct (Nat.lt_trichotomy k1 k2) as [Hlt|[Heq|Hgt]]; [|done|].
    - specialize (Hfirst2 _ _ Hlt Hk1 Hc1).
      specialize (Hmax1 r2 ltac:(by eapply list_elem_of_lookup_2) Hc2). lia.
    - specialize (Hfirst1 _ _ Hgt Hk2 Hc2).
      specialize (Hmax2 r1 ltac:(by eapply list_elem_of_lookup_2) Hc1). lia. }
  split; [done|congruence].
Qed.

Lemma cellAfter_spec rawRegions i :
  positivePriorities rawRegions →
  (cellAfter rawRegions i = (None, 0) ∧ ∀ r, r ∈ rawRegions → ¬ covers r i)
  ∨ (∃ k r, wins rawRegions i k r ∧ cellAfter rawRegions i = (Some (layer r), priority r)).
Proof.
  unfold cellAfter.
  induction rawRegions as [|x rs IH] using rev_ind; intros Hpos.
  - left. split; [done|]. by intros r ?%elem_of_nil.
  - apply Forall_app in Hpos as [Hpos Hx]. apply Forall_inv in Hx. simpl in Hx.
    rewrite foldl_app. simpl.
    destruct (decide (covers x i)) as [Hcx|Hcx].
    + destruct (IH Hpos) as [[-> Hnone]|(k & r & (Hk & Hc & Hmax & Hfirst) & ->)].
      * right. exists (length rs), x. unfold paintCell. simpl.
        rewrite bool_decide_eq_true_2 by done. split; [|done].
        split; [by apply list_lookup_middle|]. split; [done|]. split.
        -- intros r' [Hin| ->%list_elem_of_singleton]%elem_of_app Hc'; [|lia].
           by destruct (Hnone r').
        -- intros k' r' Hlt Hk' Hc'. rewrite lookup_app_l in Hk' by done.
           destruct (Hnone r'); [by eapply list_elem_of_lookup_2|done].
      * right. unfold paintCell. simpl. case_bool_decide as Hlt.
        -- exists (length rs), x. split; [|done].
           split; [by apply list_lookup_middle|]. split; [done|]. split.
           ++ intros r' [Hin| ->%list_elem_of_singleton]%elem_of_app Hc'; [|lia].
              specialize (Hmax r' Hin Hc'). lia.
           ++ intros k' r' Hlt' Hk' Hc'. rewrite lookup_app_l in Hk' by done.
              specialize (Hmax r' ltac:(by eapply list_elem_of_lookup_2) Hc'). lia.
        -- exists k, r. split; [|done].
           split; [by apply lookup_app_l_Some|]. split; [done|]. split.
           ++ intros r' [Hin| ->%list_elem_of_singleton]%elem_of_app Hc'; [|lia].
              by apply Hmax.
           ++ intros k' r' Hlt' Hk' Hc'. apply (Hfirst k'); [done| |done].
              rewrite lookup_app_l in Hk'; [done|].
              apply lookup_lt_Some in Hk. lia.
    + destruct (IH Hpos) as [[-> Hnone]|(k & r & (Hk & Hc & Hmax & Hfirst) & ->)].
      * left. split; [done|].
        intros r' [Hin| ->%list_elem_of_singleton]%elem_of_app; [by apply Hnone|done].
      * right. exists k, r. split; [|done].
        split; [by apply lookup_app_l_Some|]. split; [done|]. split.
        -- intros r' [Hin| ->%list_elem_of_singleton]%elem_of_app Hc'; [|done].
           by apply Hmax.
        -- intros k' r' Hlt' Hk' Hc'. apply (Hfirst k'); [done| |done].
           rewrite lookup_app_l in Hk'; [done|].
           apply lookup_lt_Some in Hk. lia.
Qed.

(** ** Overlap resolver: the merging pass *)

Lemma getLayerAt_app out x position :
  getLayerAt (out ++ [x]) position =
    match getLayerAt out position with
    | Some l => Some l
    | None => if inside x position then Some (region_layer x) else None
    end.
Proof.
  unfold getLayerAt. induction out as [|r out IH]; simpl.
  - fold (inside x position). by destruct (inside x position).
  - fold (inside r position). destruct (inside r position); [done|apply IH].
Qed.

Lemma getLayerAt_outside out position :
  (∀ r, r ∈ out → region_end r ≤ position) → getLayerAt out position = None.
Proof.
  unfold getLayerAt. induction out as [|r out IH]; intros Hout; simpl; [done|].
  rewrite (bool_decide_eq_false_2 (position < region_end r)).
  - rewrite andb_false_r. apply IH. intros r' Hr'. apply Hout, elem_of_cons. by right.
  - specialize (Hout r ltac:(apply elem_of_cons; by left)). lia.
Qed.

Section Push.

Variables (posMap : list (option SyntaxLayer)) (n : nat) (ms : MergeState).
Hypothesis Hinv : MergeInv posMap n ms.

Let out := pushCurrent ms (Z.of_nat n).

Lemma push_cases :
  (currentLayer ms = None ∧ out = result ms)
  ∨ (∃ l, currentLayer ms = Some l ∧ (0 < n)%nat
          ∧ out = result ms ++ [mkRegion (currentStart ms) (Z.of_nat n) l]).
Proof.
  unfold out, pushCurrent. destruct (currentLayer ms) as [l|] eqn:Hl; [|by left].
  right. exists l. split; [done|]. split; [|done].
  destruct n; [|lia]. destruct (inv_empty _ _ _ Hinv eq_refl). congruence.
Qed.

Lemma push_bounds : withinBound (Z.of_nat n) out.
Proof.
  pose proof (inv_start _ _ _ Hinv) as Hstart.
  destruct push_cases as [[_ ->]|(l & _ & Hn & ->)]; intros r Hr.
  - pose proof (inv_bounds _ _ _ Hinv r Hr). lia.
  - apply elem_of_app in Hr as [Hr| ->%list_elem_of_singleton].
    + pose proof (inv_bounds _ _ _ Hinv r Hr). lia.
    + pose proof (inv_start_lt _ _ _ Hinv Hn). simpl. lia.
Qed.

Lemma push_pair k a b :
  out !! k = Some a → out !! S k = Some b →
  region_end a ≤ region_start b
  ∧ (region_end a = region_start b → region_layer a ≠ region_layer b).
Proof.
  destruct push_cases as [[_ ->]|(l & Hl & Hn & ->)]; intros Ha Hb.
  - split; [by eapply (inv_ordered _ _ _ Hinv)|by eapply (inv_touching _ _ _ Hinv)].
  - destruct (decide (S k < length (result ms))%nat) as [Hlt|Hge].
    + rewrite lookup_app_l in Ha, Hb by lia.
      split; [by eapply (inv_ordered _ _ _ Hinv)|by eapply (inv_touching _ _ _ Hinv)].
    + pose proof (lookup_lt_Some _ _ _ Hb) as Hlen. rewrite length_app in Hlen.
      simpl in Hlen. assert (S k = length (result ms)) as Hk by lia.
      rewrite lookup_app_l in Ha by lia.
      rewrite lookup_app_r in Hb by lia.
      replace (S k - length (result ms))%nat with 0%nat in Hb by lia.
      simpl in Hb. injection Hb as <-. simpl.
      assert (last (result ms) = Some a) as Hlast.
      { rewrite last_lookup. by replace (pred (length (result ms))) with k by lia. }
      pose proof (inv_bounds _ _ _ Hinv a ltac:(by eapply list_elem_of_lookup_2)).
      split; [lia|]. intros Htouch Hsame.
      apply (inv_last _ _ _ Hinv a Hlast Htouch). congruence.
Qed.

Lemma push_last a :
  last out = Some a → region_end a = Z.of_nat n → Some (region_layer a) = currentLayer ms.
Proof.
  destruct push_cases as [[_ ->]|(l & Hl & Hn & ->)]; intros Hlast Hend.
  - apply last_Some_elem_of in Hlast.
    pose proof (inv_bounds _ _ _ Hinv a Hlast) as Hb.
    destruct n as [|n'].
    + destruct (inv_empty _ _ _ Hinv eq_refl) as [Hnil _].
      rewrite Hnil in Hlast. by apply elem_of_nil in Hlast.
    + pose proof (inv_start_lt _ _ _ Hinv ltac:(lia)). lia.
  - rewrite last_snoc in Hlast. injection Hlast as <-. by simpl.
Qed.

Lemma push_layer (i : nat) :
  (i < n)%nat → getLayerAt out (Z.of_nat i) = mjoin (posMap !! i).
Proof.
  intros Hi.
  assert (currentStart ms ≤ Z.of_nat i → getLayerAt (result ms) (Z.of_nat i) = None)
    as Hgap.
  { intros Hle. apply getLayerAt_outside. intros r Hr.
    pose proof (inv_bounds _ _ _ Hinv r Hr). lia. }
  destruct (decide (Z.of_nat i < currentStart ms)) as [Hlt|Hge].
  - pose proof (inv_layer _ _ _ Hinv i Hlt) as Hlayer.
    destruct push_cases as [[_ ->]|(l & Hl & Hn & ->)]; [done|].
    rewrite getLayerAt_app, Hlayer. destruct (mjoin (posMap !! i)); [done|].
    unfold inside. simpl. by rewrite bool_decide_eq_false_2 by lia.
  - pose proof (inv_run _ _ _ Hinv i ltac:(lia)) as Hrun.
    destruct push_cases as [[Hl ->]|(l & Hl & Hn & ->)].
    + rewrite Hgap by lia. congruence.
    + rewrite getLayerAt_app, Hgap by lia. unfold inside. simpl.
      rewrite !bool_decide_eq_true_2 by lia. simpl. congruence.
Qed.

End Push.

Lemma mergeStep_inv posMap n ms :
  MergeInv posMap n ms → MergeInv posMap (S n) (mergeStep posMap ms n).
Proof.
  intros Hinv. unfold mergeStep. case_bool_decide as Hchange.
  - constructor; simpl.
    + lia.
    + lia.
    + lia.
    + intros i Hi. by replace i with n by lia.
    + apply (push_bounds posMap n ms Hinv).
    + intros k a b Ha Hb. by eapply (push_pair posMap n ms Hinv k a b).
    + intros k a b Ha Hb. by eapply (push_pair posMap n ms Hinv k a b).
    + intros a Hlast Hend Hsame.
      pose proof (push_last posMap n ms Hinv a Hlast Hend). congruence.
    + intros i Hi. apply (push_layer posMap n ms Hinv). lia.
  - pose proof (inv_start _ _ _ Hinv). destruct Hinv. constructor; try done.
    + lia.
    + intros _. destruct n; [lia|]. specialize (inv_start_lt0 ltac:(lia)). lia.
    + intros i Hi. destruct (decide (i = n)) as [->|Hne]; [done|].
      apply inv_run0. lia.
Qed.

Lemma mergeLoop_inv posMap n :
  MergeInv posMap n (foldl (mergeStep posMap) (mkMergeState [] None 0) (seq 0 n)).
Proof.
  induction n as [|n IH].
  - constructor; simpl; try done; try lia.
    + intros r Hr. by apply elem_of_nil in Hr.
  - rewrite seq_S, foldl_app. simpl. by apply mergeStep_inv.
Qed.

(** The merging pass returns non-empty regions inside the document, in
    order and without overlap; touching regions differ in layer; and the
    layer found at an offset is the one recorded for it. *)
Lemma mergeRuns_spec posMap textLength :
  let out := mergeRuns posMap textLength in
  withinBound (Z.of_nat textLength) out ∧ ordered out ∧ touchingDiffer out
  ∧ ∀ i : nat, (i < textLength)%nat → getLayerAt out (Z.of_nat i) = mjoin (posMap !! i).
Proof.
  simpl. unfold mergeRuns.
  pose proof (mergeLoop_inv posMap textLength) as Hinv.
  split; [apply (push_bounds posMap textLength _ Hinv)|]. split; [|split].
  - intros k a b Ha Hb. by eapply (push_pair posMap textLength _ Hinv k a b).
  - intros k a b Ha Hb. by eapply (push_pair posMap textLength _ Hinv k a b).
  - intros i Hi. by apply (push_layer posMap textLength _ Hinv).
Qed.

(** ** Overlap resolver: both passes *)

Lemma resolveOverlaps_shape rawRegions textLength :
  let out := resolveOverlaps rawRegions textLength in
  withinBound (Z.of_nat textLength) out ∧ ordered out ∧ touchingDiffer out.
Proof.
  simpl. unfold resolveOverlaps.
  destruct (bool_decide (rawRegions = []) || bool_decide (textLength = 0%nat)).
  - split; [|split].
    + intros r Hr. by apply elem_of_nil in Hr.
    + intros k a b Ha. by rewrite lookup_nil in Ha.
    + intros k a b Ha. by rewrite lookup_nil in Ha.
  - pose proof (mergeRuns_spec (positionMap (paintAll rawRegions textLength)) textLength)
      as (H1 & H2 & H3 & _). done.
Qed.

(** The layer that the final output shows at offset [i] is the layer
    recorded by the fold of [paintCell] over the candidates. *)
Lemma resolveOverlaps_layer rawRegions textLength (i : nat) :
  (i < textLength)%nat →
  getLayerAt (resolveOverlaps rawRegions textLength) (Z.of_nat i)
  = (cellAfter rawRegions (Z.of_nat i)).1.
Proof.
  intros Hi. unfold resolveOverlaps.
  destruct (decide (rawRegions = [])) as [->|Hne].
  - by rewrite bool_decide_eq_true_2.
  - rewrite bool_decide_eq_false_2 by done.
    rewrite bool_decide_eq_false_2 by lia. simpl.
    pose proof (mergeRuns_spec (positionMap (paintAll rawRegions textLength)) textLength)
      as (_ & _ & _ & Hlayer).
    rewrite Hlayer by done.
    destruct (paintAll_cell rawRegions textLength i Hi) as [_ Hcell].
    unfold cell in Hcell.
    destruct (positionMap (paintAll rawRegions textLength) !! i) as [l|]; [|done].
    destruct (priorityMap (paintAll rawRegions textLength) !! i) as [p|]; [|done].
    injection Hcell as <-. done.
Qed.

(** ** Induction over syntax trees *)

(** The nodes that [visit] or [visitForComments] may descend into. *)
Lemma Node_descent_ind (P : Node → Prop) :
  (∀ node,
      Forall P (forEachChild node) →
      Forall P (children node) →
      (∀ e, expression node = Some e → P e) →
      (∀ i, initializer node = Some i → P i) →
      P node) →
  ∀ node, P node.
Proof.
  intros Hstep. fix IH 1. intros node. apply Hstep.
  - destruct node as [? ? ? ? ? ? ? ? ? ? ? ? ? ? ? ? ? ? ? ? ? ? ? ? ? ? ? ? ? ? fe ?].
    simpl. induction fe as [|c fe IHfe]; constructor; [apply IH|apply IHfe].
  - destruct node as [? ? ? ? ? ? ? ? ? ? ? ? ? ? ? ? ? ? ? ? ? ? ? ? ch ? ? ? ? ? ? ?].
    simpl. induction ch as [|c ch IHch]; constructor; [apply IH|apply IHch].
  - destruct node as [? ? ? ? ? ? ? ex ? ? ? ? ? ? ? ? ? ? ? ? ? ? ? ? ? ? ? ? ? ? ? ?].
    simpl. destruct ex as [e'|]; intros e Heq; [|discriminate].
    injection Heq as <-. apply IH.
  - destruct node as [? ? ? ? ? ? ? ? ? ? ? ? ini ? ? ? ? ? ? ? ? ? ? ? ? ? ? ? ? ? ? ?].
    simpl. destruct ini as [i'|]; intros i Heq; [|discriminate].
    injection Heq as <-. apply IH.
Qed.

(** ** The walk changes the state only by [addRegion] and by tracking an
    enum name *)

Section Stable.

Variable P : State → Prop.
Hypothesis P_addRegion : ∀ start end_ layer st, P st → P (addRegion start end_ layer st).
Hypothesis P_track :
  ∀ name st, P st → P (mkState (rawRegions st) ({[ name ]} ∪ enumNames st)).

Lemma foldl_stable {A} (f : State → A → State) (l : list A) st :
  (∀ st a, P st → P (f st a)) → P st → P (foldl f st l).
Proof.
  intros Hf. revert st. induction l as [|a l IH]; intros st Hst; simpl; [done|].
  by apply IH, Hf.
Qed.

(** Peels one layer of a state expression. *)
Ltac stable_step :=
  match goal with
  | |- P (fst (_, _)) => cbn [fst]
  | |- P (fst (if ?b then _ else _)) => destruct b
  | |- P (fst (match ?x with _ => _ end)) => destruct x
  | |- P (if ?b then _ else _) => destruct b
  | |- P (match ?x with _ => _ end) => destruct x
  | |- P (addRegion _ _ _ _) => apply P_addRegion
  | |- P (addSpan _ _ _) => apply P_addRegion
  | |- P (mkState (rawRegions _) _) => apply P_track
  | |- P (foldl _ _ _) => apply foldl_stable; [intros|]
  | H : P ?st |- P ?st => exact H
  end.

Ltac stable := cbv zeta; repeat stable_step.

Lemma addTypeParametersRegion_stable typeParameters sourceText st :
  P st → P (addTypeParametersRegion typeParameters sourceText st).
Proof. intros. unfold addTypeParametersRegion. stable. Qed.

Lemma addTypeArgumentsRegion_stable typeArguments sourceText st :
  P st → P (addTypeArgumentsRegion typeArguments sourceText st).
Proof. intros. unfold addTypeArgumentsRegion. stable. Qed.

Lemma addModifierRegions_stable kinds node st :
  P st → P (addModifierRegions kinds node st).
Proof. intros. unfold addModifierRegions. stable. Qed.

Lemma addReturnTypeRegion_stable node st : P st → P (addReturnTypeRegion node st).
Proof. intros. unfold addReturnTypeRegion. stable. Qed.

Lemma addAnnotationRegion_stable node st : P st → P (addAnnotationRegion node st).
Proof. intros. unfold addAnnotationRegion. stable. Qed.

Lemma addReactSpecifiers_stable specifiers st : P st → P (addReactSpecifiers specifiers st).
Proof. intros. unfold addReactSpecifiers. stable. Qed.

Lemma addTypeOnlySpecifiers_stable specifiers st :
  P st → P (addTypeOnlySpecifiers specifiers st).
Proof. intros. unfold addTypeOnlySpecifiers. stable. Qed.

Lemma addComments_stable comments st : P st → P (addComments comments st).
Proof. intros. unfold addComments. stable. Qed.

Ltac stable_rule :=
  cbv zeta;
  repeat first
    [ stable_step
    | match goal with
      | |- P (addTypeParametersRegion _ _ _) => apply addTypeParametersRegion_stable
      | |- P (addTypeArgumentsRegion _ _ _) => apply addTypeArgumentsRegion_stable
      | |- P (addModifierRegions _ _ _) => apply addModifierRegions_stable
      | |- P (addReturnTypeRegion _ _) => apply addReturnTypeRegion_stable
      | |- P (addAnnotationRegion _ _) => apply addAnnotationRegion_stable
      | |- P (addReactSpecifiers _ _) => apply addReactSpecifiers_stable
      | |- P (addTypeOnlySpecifiers _ _) => apply addTypeOnlySpecifiers_stable
      end ].

Lemma onMisparsedGenericArrow_stable node st : P st → P (onMisparsedGenericArrow node st).1.
Proof. intros. unfold onMisparsedGenericArrow. stable_rule. Qed.

Lemma onJsxTag_stable sourceText closeWidth node st :
  P st → P (onJsxTag sourceText closeWidth node st).1.
Proof. intros. unfold onJsxTag. stable_rule. Qed.

Lemma onJsxClosingElement_stable node st : P st → P (onJsxClosingElement node st).1.
Proof. intros. unfold onJsxClosingElement. stable_rule. Qed.

Lemma onJsxExpression_stable sourceText node st :
  P st → P (onJsxExpression sourceText node st).1.
Proof. intros. unfold onJsxExpression. stable_rule. Qed.

Lemma onJsxSpreadAttribute_stable sourceText node st :
  P st → P (onJsxSpreadAttribute sourceText node st).1.
Proof. intros. unfold onJsxSpreadAttribute. stable_rule. Qed.

Lemma onJsxAttribute_stable node st : P st → P (onJsxAttribute node st).1.
Proof. intros. unfold onJsxAttribute. stable_rule. Qed.

Lemma onDirective_stable node st : P st → P (onDirective node st).1.
Proof. intros. unfold onDirective. stable_rule. Qed.

Lemma onVariableStatement_stable node st : P st → P (onVariableStatement node st).1.
Proof. intros. unfold onVariableStatement. stable_rule. Qed.

Lemma onEnumDeclaration_stable node st : P st → P (onEnumDeclaration node st).1.
Proof. intros. unfold onEnumDeclaration. stable_rule. Qed.

Lemma onExpressionWithTypeArguments_stable sourceText node st :
  P st → P (onExpressionWithTypeArguments sourceText node st).1.
Proof. intros. unfold onExpressionWithTypeArguments. stable_rule. Qed.

Lemma onClassDeclaration_stable sourceText node st :
  P st → P (onClassDeclaration sourceText node st).1.
Proof. intros. unfold onClassDeclaration. stable_rule. Qed.

Lemma onAsOrSatisfies_stable node st : P st → P (onAsOrSatisfies node st).1.
Proof. intros. unfold onAsOrSatisfies. stable_rule. Qed.

Lemma onTypeAssertion_stable node st : P st → P (onTypeAssertion node st).1.
Proof. intros. unfold onTypeAssertion. stable_rule. Qed.

Lemma onNonNull_stable node st : P st → P (onNonNull node st).1.
Proof. intros. unfold onNonNull. stable_rule. Qed.

Lemma onParameter_stable node st : P st → P (onParameter node st).1.
Proof. intros. unfold onParameter. stable_rule. Qed.

Lemma onPropertyDeclaration_stable node st : P st → P (onPropertyDeclaration node st).1.
Proof. intros. unfold onPropertyDeclaration. stable_rule. Qed.

Lemma onFunctionDeclaration_stable sourceText node st :
  P st → P (onFunctionDeclaration sourceText node st).1.
Proof. intros. unfold onFunctionDeclaration. stable_rule. Qed.

Lemma onMethodDeclaration_stable sourceText node st :
  P st → P (onMethodDeclaration sourceText node st).1.
Proof. intros. unfold onMethodDeclaration. stable_rule. Qed.

Lemma onFunctionLike_stable sourceText node st :
  P st → P (onFunctionLike sourceText node st).1.
Proof. intros. unfold onFunctionLike. stable_rule. Qed.

Lemma onImportDeclaration_stable node st : P st → P (onImportDeclaration node st).1.
Proof. intros. unfold onImportDeclaration. stable_rule. Qed.

Lemma onExportDeclaration_stable node st : P st → P (onExportDeclaration node st).1.
Proof. intros. unfold onExportDeclaration. stable_rule. Qed.

Lemma onCreateElement_stable sourceText node st :
  P st → P (onCreateElement sourceText node st).1.
Proof. intros. unfold onCreateElement. stable_rule. Qed.

Lemma onCallExpression_stable sourceText node st :
  P st → P (onCallExpression sourceText node st).1.
Proof.
  intros. unfold onCallExpression. cbv zeta.
  repeat first
    [ stable_step
    | match goal with
      | |- P (fst (onCreateElement _ _ _)) => apply onCreateElement_stable
      | |- P (addTypeArgumentsRegion _ _ _) => apply addTypeArgumentsRegion_stable
      end ].
Qed.

Lemma onNewExpression_stable sourceText node st :
  P st → P (onNewExpression sourceText node st).1.
Proof. intros. unfold onNewExpression. stable_rule. Qed.

Lemma onOtherNode_stable sourceText node st :
  P st → P (onOtherNode sourceText node st).1.
Proof. intros. unfold onOtherNode. stable_rule. Qed.

Lemma dispatch_stable sourceText node st : P st → P (dispatch sourceText node st).1.
Proof.
  intros Hst. unfold dispatch.
  repeat match goal with
         | |- P (fst (if ?b then _ else _)) => destruct b
         end;
    try match goal with
        | |- P (fst (onMisparsedGenericArrow _ _)) => by apply onMisparsedGenericArrow_stable
        | |- P (fst (onJsxTag _ _ _ _)) => by apply onJsxTag_stable
        | |- P (fst (onJsxClosingElement _ _)) => by apply onJsxClosingElement_stable
        | |- P (fst (onJsxExpression _ _ _)) => by apply onJsxExpression_stable
        | |- P (fst (onJsxSpreadAttribute _ _ _)) => by apply onJsxSpreadAttribute_stable
        | |- P (fst (onJsxAttribute _ _)) => by apply onJsxAttribute_stable
        | |- P (fst (onDirective _ _)) => by apply onDirective_stable
        | |- P (fst (onVariableStatement _ _)) => by apply onVariableStatement_stable
        | |- P (fst (onEnumDeclaration _ _)) => by apply onEnumDeclaration_stable
        | |- P (fst (onExpressionWithTypeArguments _ _ _)) =>
            by apply onExpressionWithTypeArguments_stable
        | |- P (fst (onClassDeclaration _ _ _)) => by apply onClassDeclaration_stable
        | |- P (fst (onAsOrSatisfies _ _)) => by apply onAsOrSatisfies_stable
        | |- P (fst (onTypeAssertion _ _)) => by apply onTypeAssertion_stable
        | |- P (fst (onNonNull _ _)) => by apply onNonNull_stable
        | |- P (fst (onParameter _ _)) => by apply onParameter_stable
        | |- P (fst (onPropertyDeclaration _ _)) => by apply onPropertyDeclaration_stable
        | |- P (fst (onFunctionDeclaration _ _ _)) => by apply onFunctionDeclaration_stable
        | |- P (fst (onMethodDeclaration _ _ _)) => by apply onMethodDeclaration_stable
        | |- P (fst (onFunctionLike _ _ _)) => by apply onFunctionLike_stable
        | |- P (fst (onImportDeclaration _ _)) => by apply onImportDeclaration_stable
        | |- P (fst (onExportDeclaration _ _)) => by apply onExportDeclaration_stable
        | |- P (fst (onCallExpression _ _ _)) => by apply onCallExpression_stable
        | |- P (fst (onNewExpression _ _ _)) => by apply onNewExpression_stable
        | |- P (fst (onOtherNode _ _ _)) => by apply onOtherNode_stable
        end;
    stable_rule.
Qed.

(** Only the enum rule tracks a name. *)
Lemma dispatch_stable_not_enum sourceText node st :
  isKind EnumDeclaration node = false → P st → P (dispatch sourceText node st).1.
Proof.
  intros Hkind Hst. unfold dispatch.
  repeat match goal with
         | |- P (fst (if ?b then _ else _)) => destruct b eqn:?
         end;
    try congruence;
    try match goal with
        | |- P (fst (onMisparsedGenericArrow _ _)) => by apply onMisparsedGenericArrow_stable
        | |- P (fst (onJsxTag _ _ _ _)) => by apply onJsxTag_stable
        | |- P (fst (onJsxClosingElement _ _)) => by apply onJsxClosingElement_stable
        | |- P (fst (onJsxExpression _ _ _)) => by apply onJsxExpression_stable
        | |- P (fst (onJsxSpreadAttribute _ _ _)) => by apply onJsxSpreadAttribute_stable
        | |- P (fst (onJsxAttribute _ _)) => by apply onJsxAttribute_stable
        | |- P (fst (onDirective _ _)) => by apply onDirective_stable
        | |- P (fst (onVariableStatement _ _)) => by apply onVariableStatement_stable
        | |- P (fst (onExpressionWithTypeArguments _ _ _)) =>
            by apply onExpressionWithTypeArguments_stable
        | |- P (fst (onClassDeclaration _ _ _)) => by apply onClassDeclaration_stable
        | |- P (fst (onAsOrSatisfies _ _)) => by apply onAsOrSatisfies_stable
        | |- P (fst (onTypeAssertion _ _)) => by apply onTypeAssertion_stable
        | |- P (fst (onNonNull _ _)) => by apply onNonNull_stable
        | |- P (fst (onParameter _ _)) => by apply onParameter_stable
        | |- P (fst (onPropertyDeclaration _ _)) => by apply onPropertyDeclaration_stable
        | |- P (fst (onFunctionDeclaration _ _ _)) => by apply onFunctionDeclaration_stable
        | |- P (fst (onMethodDeclaration _ _ _)) => by apply onMethodDeclaration_stable
        | |- P (fst (onFunctionLike _ _ _)) => by apply onFunctionLike_stable
        | |- P (fst (onImportDeclaration _ _)) => by apply onImportDeclaration_stable
        | |- P (fst (onExportDeclaration _ _)) => by apply onExportDeclaration_stable
        | |- P (fst (onCallExpression _ _ _)) => by apply onCallExpression_stable
        | |- P (fst (onNewExpression _ _ _)) => by apply onNewExpression_stable
        | |- P (fst (onOtherNode _ _ _)) => by apply onOtherNode_stable
        end;
    stable_rule.
Qed.

Lemma visit_stable sourceText node : ∀ st, P st → P (visit sourceText node st).
Proof.
  induction node as [node IHfe IHch IHex IHini] using Node_descent_ind.
  intros st Hst.
  pose proof (dispatch_stable sourceText node st Hst) as Hd.
  destruct node; simpl in *.
  destruct (dispatch _ _ st) as [st1 descent]. simpl in Hd.
  assert (∀ l st, Forall (λ c, ∀ st, P st → P (visit sourceText c st)) l → P st →
                  P (foldl (λ st child, visit sourceText child st) st l)) as Hfold.
  { clear. intros l. induction l as [|c l IH]; intros st Hall Hst; simpl; [done|].
    apply Forall_cons in Hall as [Hc Hl]. by apply IH, Hc. }
  destruct descent.
  - done.
  - by apply Hfold.
  - destruct expression0; [by eapply IHex|done].
  - destruct initializer0; [by eapply IHini|done].
  - destruct children0 as [|c rest]; [done|].
    apply Forall_cons in IHch as [_ Hrest]. by apply Hfold.
Qed.

Lemma visitForComments_stable `{ts : Compiler} sourceText node :
  ∀ st, P st → P (visitForComments sourceText node st).
Proof.
  induction node as [node IHfe _ _ _] using Node_descent_ind.
  intros st Hst. destruct node; simpl in *.
  set (st1 := if bool_decide _ then _ else st).
  assert (P st1) as Hst1.
  { unfold st1. case_bool_decide; [by apply addComments_stable|done]. }
  clearbody st1.
  pose proof (addComments_stable (getTrailingCommentRanges sourceText getEnd0) st1 Hst1)
    as Hst2.
  revert Hst2. generalize (addComments (getTrailingCommentRanges sourceText getEnd0) st1).
  clear -IHfe. induction forEachChild0 as [|c l IH]; intros st Hst; simpl; [done|].
  apply Forall_cons in IHfe as [Hc Hl]. by apply IH, Hc.
Qed.

Lemma collect_stable `{ts : Compiler} sourceText : P initialState → P (collect sourceText).
Proof.
  intros Hinit. unfold collect, collectComments.
  by apply visitForComments_stable, visit_stable.
Qed.

End Stable.

(** ** The order of the walk *)

Lemma visit_unfold sourceText node st :
  visit sourceText node st =
    visitAll sourceText (descentNodes node (dispatch sourceText node st).2)
             (dispatch sourceText node st).1.
Proof.
  destruct node; simpl. destruct (dispatch _ _ st) as [st1 descent]. simpl.
  destruct descent; simpl; try done.
  - by destruct expression0.
  - by destruct initializer0.
  - by destruct children0.
Qed.

Lemma trace_unfold sourceText node st :
  trace sourceText node st =
    (node, st) :: traceAll sourceText (descentNodes node (dispatch sourceText node st).2)
                           (dispatch sourceText node st).1.
Proof.
  destruct node; simpl. destruct (dispatch _ _ st) as [st1 descent]. simpl.
  f_equal. destruct descent; simpl; try done.
  - generalize st1. induction forEachChild0 as [|c l IH]; intros st'; simpl; [done|].
    by rewrite IH.
  - destruct expression0; simpl; [|done]. by rewrite app_nil_r.
  - destruct initializer0; simpl; [|done]. by rewrite app_nil_r.
  - destruct children0 as [|c0 rest]; simpl; [done|].
    generalize st1. induction rest as [|c l IH]; intros st'; simpl; [done|].
    by rewrite IH.
Qed.

Lemma descentNodes_ind_step (P : Node → Prop) node descent :
  Forall P (forEachChild node) → Forall P (children node) →
  (∀ e, expression node = Some e → P e) → (∀ i, initializer node = Some i → P i) →
  Forall P (descentNodes node descent).
Proof.
  intros Hfe Hch Hex Hini. destruct descent; simpl.
  - constructor.
  - done.
  - destruct (expression node); simpl; [|constructor]. constructor; [by apply Hex|constructor].
  - destruct (initializer node); simpl; [|constructor]. constructor; [by apply Hini|constructor].
  - destruct (children node); simpl; [constructor|]. by apply Forall_cons in Hch as [_ ?].
Qed.

(** ** Dispatch on a node of known kind *)

(** Decides every test [kind node = k] of [dispatch] once the kind of the
    node is known. *)
Ltac decide_kinds Hkind :=
  unfold dispatch, isMisparsedGenericArrow, isEnumAccess, isKind;
  rewrite Hkind;
  repeat match goal with
         | |- context [bool_decide (?k1 = ?k2)] =>
             first [ rewrite (bool_decide_eq_true_2 (k1 = k2)) by reflexivity
                   | rewrite (bool_decide_eq_false_2 (k1 = k2)) by discriminate ]
         end;
  cbn [andb orb].

Lemma dispatch_EnumDeclaration sourceText node st :
  kind node = EnumDeclaration →
  dispatch sourceText node st = onEnumDeclaration node st.
Proof. intros Hkind. by decide_kinds Hkind. Qed.

Lemma dispatch_Decorator sourceText node st :
  kind node = Decorator →
  dispatch sourceText node st = (addSpan node typescript st, Return).
Proof. intros Hkind. by decide_kinds Hkind. Qed.

Lemma dispatch_CallExpression sourceText node st :
  kind node = CallExpression →
  dispatch sourceText node st = onCallExpression sourceText node st.
Proof. intros Hkind. by decide_kinds Hkind. Qed.

Lemma dispatch_FunctionDeclaration sourceText node st :
  kind node = FunctionDeclaration →
  dispatch sourceText node st = onFunctionDeclaration sourceText node st.
Proof. intros Hkind. by decide_kinds Hkind. Qed.

Lemma dispatch_PropertyAccessExpression sourceText node st :
  kind node = PropertyAccessExpression →
  dispatch sourceText node st =
    if isSome Identifier (expression node)
       && bool_decide (text (req (expression node)) ∈ enumNames st)
    then (addSpan node typescript st, Return)
    else (addSpan node javascript st, ForEachChild).
Proof.
  intros Hkind. decide_kinds Hkind.
  destruct (_ && _); [done|].
  unfold onOtherNode, classifyNode, isTypeScriptNode, isJsxStructuralNode,
    isJavaScriptNode, isKind. rewrite Hkind. done.
Qed.

Lemma dispatch_quiet sourceText node st :
  kind node = SourceFile ∨ kind node = EndOfFileToken ∨ kind node = ExpressionStatement
                                                       ∧ isSome StringLiteral (expression node) = false →
  dispatch sourceText node st = (st, ForEachChild).
Proof.
  intros [Hkind|[Hkind|[Hkind Hexpr]]]; decide_kinds Hkind; rewrite ?Hexpr;
    unfold onOtherNode, classifyNode, isTypeScriptNode, isJsxStructuralNode,
      isJavaScriptNode, isKind; rewrite Hkind; done.
Qed.

(** ** Enum tracking along the walk *)

Lemma declared_nil : declared [] = ∅.
Proof. done. Qed.

Lemma declared_cons node st calls :
  declared ((node, st) :: calls) = enumNameOf node ∪ declared calls.
Proof. done. Qed.

Lemma declared_app calls1 calls2 :
  declared (calls1 ++ calls2) = declared calls1 ∪ declared calls2.
Proof. unfold declared. by rewrite !fmap_app, union_list_app_L. Qed.

Lemma elem_of_declared x calls :
  x ∈ declared calls ↔
  ∃ d st nm, (d, st) ∈ calls ∧ kind d = EnumDeclaration ∧ name d = Some nm
             ∧ text nm = x.
Proof.
  induction calls as [|[d st] calls IH].
  - rewrite declared_nil. split; [set_solver|].
    intros (? & ? & ? & Hin & _). by apply elem_of_nil in Hin.
  - rewrite declared_cons, elem_of_union, IH. unfold enumNameOf, isKind.
    split.
    + intros [Hd|(d' & st' & nm & Hin & ?)].
      * case_bool_decide as Hkind; [|set_solver].
        destruct (name d) as [nm|] eqn:Hname; [|set_solver].
        apply elem_of_singleton in Hd. exists d, st, nm.
        split; [apply elem_of_cons; by left|done].
      * exists d', st', nm. split; [apply elem_of_cons; by right|done].
    + intros (d' & st' & nm & [Heq|Hin]%elem_of_cons & Hkind & Hname & <-).
      * injection Heq as -> ->. left.
        rewrite bool_decide_eq_true_2 by done. rewrite Hname. set_solver.
      * right. by exists d', st', nm.
Qed.

Lemma dispatch_enumNames sourceText node st :
  enumNames (dispatch sourceText node st).1 = enumNames st ∪ enumNameOf node.
Proof.
  unfold enumNameOf, isKind. case_bool_decide as Hkind.
  - rewrite dispatch_EnumDeclaration by done. unfold onEnumDeclaration, addSpan, addRegion.
    destruct (name node) as [nm|]; case_bool_decide; simpl;
      first [ apply (comm_L (∪)) | by rewrite (right_id_L ∅ (∪)) ].
  - assert (enumNames (dispatch sourceText node st).1 = enumNames st) as ->;
      [|by rewrite (right_id_L ∅ (∪))].
    apply (dispatch_stable_not_enum (λ st', enumNames st' = enumNames st)); [| |done].
    + intros s e l st' Hst'. unfold addRegion. by case_bool_decide.
    + unfold isKind. by rewrite bool_decide_eq_false_2.
Qed.

Lemma traceAll_enums sourceText nodes :
  Forall (λ node, tracksEnums sourceText (trace sourceText node) (visit sourceText node))
         nodes →
  tracksEnums sourceText (traceAll sourceText nodes) (visitAll sourceText nodes).
Proof.
  induction nodes as [|c rest IH]; intros Hall st.
  - split; [simpl; by rewrite declared_nil, (right_id_L ∅ (∪))|].
    intros k m stm Hk. simpl in Hk. first [done|by rewrite lookup_nil in Hk].
  - apply Forall_cons in Hall as [Hc Hrest].
    destruct (Hc st) as [Hc1 Hc2].
    destruct (IH Hrest (visit sourceText c st)) as [Hr1 Hr2].
    change (visitAll sourceText (c :: rest) st)
      with (visitAll sourceText rest (visit sourceText c st)).
    change (traceAll sourceText (c :: rest) st)
      with (trace sourceText c st ++ traceAll sourceText rest (visit sourceText c st)).
    split.
    + rewrite Hr1, Hc1, declared_app. by rewrite (assoc_L (∪)).
    + intros k m stm Hk.
      destruct (decide (k < length (trace sourceText c st))%nat) as [Hlt|Hge].
      * rewrite lookup_app_l in Hk by done.
        rewrite take_app_le by lia. apply (Hc2 _ _ _ Hk).
      * rewrite lookup_app_r in Hk by lia.
        rewrite take_app_ge by lia.
        rewrite (Hr2 _ _ _ Hk), Hc1, declared_app. by rewrite (assoc_L (∪)).
Qed.

Lemma trace_enums sourceText node :
  tracksEnums sourceText (trace sourceText node) (visit sourceText node).
Proof.
  induction node as [node IHfe IHch IHex IHini] using Node_descent_ind.
  intros st. rewrite visit_unfold, trace_unfold.
  pose proof (dispatch_enumNames sourceText node st) as Hd.
  pose proof (descentNodes_ind_step _ node (dispatch sourceText node st).2
                IHfe IHch IHex IHini) as Hnodes.
  destruct (traceAll_enums sourceText _ Hnodes (dispatch sourceText node st).1)
    as [Hall1 Hall2].
  split.
  - rewrite Hall1, Hd, declared_cons. by rewrite (assoc_L (∪)).
  - intros [|k] m stm Hk; simpl in Hk.
    + injection Hk as <- <-. simpl. by rewrite declared_nil, (right_id_L ∅ (∪)).
    + rewrite (Hall2 _ _ _ Hk), Hd. simpl. rewrite declared_cons.
      by rewrite (assoc_L (∪)).
Qed.

(** ** The samples, classified *)

Example UseState_classified :
  @classifyDocument UseState.compiler UseState.sourceText
  = [mkRegion 0 8 react; mkRegion 8 11 javascript].
Proof. vm_compute. reflexivity. Qed.

Example TwoStatements_classified :
  @classifyDocument TwoStatements.compiler TwoStatements.sourceText
  = [mkRegion 0 1 javascript; mkRegion 3 4 javascript].
Proof. vm_compute. reflexivity. Qed.

Example Blank_classified :
  @classifyDocument Blank.compiler Blank.sourceText = [].
Proof. vm_compute. reflexivity. Qed.

Example DecoratorComment_collected :
  rawRegions (@collect DecoratorComment.compiler DecoratorComment.sourceText)
  = [mkRawRegion 0 22 javascript 1; mkRawRegion 0 11 typescript 3;
     mkRawRegion 18 19 javascript 1; mkRawRegion 5 10 javascript 1].
Proof. vm_compute. reflexivity. Qed.

Example DecoratorComment_classified :
  @classifyDocument DecoratorComment.compiler DecoratorComment.sourceText
  = [mkRegion 0 11 typescript; mkRegion 11 22 javascript].
Proof. vm_compute. reflexivity. Qed.

Example InterfaceComment_collected :
  rawRegions (@collect InterfaceComment.compiler InterfaceComment.sourceText)
  = [mkRawRegion 0 30 typescript 3; mkRawRegion 10 11 javascript 1;
     mkRawRegion 15 28 typescript 3; mkRawRegion 14 15 javascript 1;
     mkRawRegion 17 28 react 4; mkRawRegion 17 19 javascript 1;
     mkRawRegion 20 21 typescript 3; mkRawRegion 20 21 javascript 1;
     mkRawRegion 22 27 javascript 1; mkRawRegion 22 27 javascript 1].
Proof. vm_compute. reflexivity. Qed.

Example InterfaceComment_classified :
  @classifyDocument InterfaceComment.compiler InterfaceComment.sourceText
  = [mkRegion 0 17 typescript; mkRegion 17 28 react; mkRegion 28 30 typescript].
Proof. vm_compute. reflexivity. Qed.

Example LongSum_collected :
  rawRegions (@collect (LongSum.compiler 2) (LongSum.sourceText 2))
  = [mkRawRegion 0 30 javascript 1; mkRawRegion 9 10 javascript 1;
     mkRawRegion 11 24 typescript 3; mkRawRegion 11 12 javascript 1;
     mkRawRegion 21 24 typescript 3; mkRawRegion 21 24 javascript 1;
     mkRawRegion 31 36 javascript 1; mkRawRegion 31 34 javascript 1;
     mkRawRegion 31 32 javascript 1; mkRawRegion 33 34 javascript 1;
     mkRawRegion 35 36 javascript 1].
Proof. vm_compute. reflexivity. Qed.

Example LongSum_within :
  @classifyDocumentWithin (LongSum.compiler 2) 4 (LongSum.sourceText 2) = None
  ∧ @classifyDocumentWithin (LongSum.compiler 2) 5 (LongSum.sourceText 2)
    = Some [mkRegion 0 11 javascript; mkRegion 11 24 typescript;
            mkRegion 24 30 javascript; mkRegion 31 36 javascript].
Proof. split; vm_compute; reflexivity. Qed.

Example EnumThenAccess_collected :
  rawRegions (visit EnumThenAccess.sourceText EnumThenAccess.sourceFile initialState)
  = [mkRawRegion 0 12 typescript 3; mkRawRegion 13 16 typescript 3].
Proof. vm_compute. reflexivity. Qed.

(** The walk of [E.A;] depends on the names it starts with: a set of names
    left by an earlier walk would change what is gathered. *)
Example tracked_names_matter :
  rawRegions (visit EnumThenAccess.sourceText EnumThenAccess.statement
                (mkState [] {[ "E"%string ]}))
  = [mkRawRegion 13 16 typescript 3]
  ∧ rawRegions (visit EnumThenAccess.sourceText EnumThenAccess.statement initialState)
    = [mkRawRegion 13 16 javascript 1; mkRawRegion 13 14 javascript 1;
       mkRawRegion 15 16 javascript 1].
Proof. split; vm_compute; reflexivity. Qed.

(** ** What a call of the walk adds stays in the result *)

Lemma visit_prefix sourceText node st :
  rawRegions st `prefix_of` rawRegions (visit sourceText node st).
Proof.
  apply (visit_stable (λ st', rawRegions st `prefix_of` rawRegions st')).
  - intros s e l st' Hpre. unfold addRegion. case_bool_decide; [|done].
    simpl. by apply prefix_app_r.
  - done.
  - done.
Qed.

Lemma visitAll_prefix sourceText nodes : ∀ st,
  rawRegions st `prefix_of` rawRegions (visitAll sourceText nodes st).
Proof.
  induction nodes as [|c rest IH]; intros st; [done|].
  change (visitAll sourceText (c :: rest) st)
    with (visitAll sourceText rest (visit sourceText c st)).
  etrans; [apply (visit_prefix sourceText c)|apply IH].
Qed.

Lemma visitForComments_prefix `{ts : Compiler} sourceText node st :
  rawRegions st `prefix_of` rawRegions (visitForComments sourceText node st).
Proof.
  apply (visitForComments_stable (λ st', rawRegions st `prefix_of` rawRegions st')).
  - intros s e l st' Hpre. unfold addRegion. case_bool_decide; [|done].
    simpl. by apply prefix_app_r.
  - done.
Qed.

Lemma traceAll_keeps sourceText nodes :
  Forall (λ node, keepsCalls sourceText (trace sourceText node) (visit sourceText node))
         nodes →
  keepsCalls sourceText (traceAll sourceText nodes) (visitAll sourceText nodes).
Proof.
  induction nodes as [|c rest IH]; intros Hall st0 k node st Hk.
  - simpl in Hk. by rewrite lookup_nil in Hk.
  - apply Forall_cons in Hall as [Hc Hrest].
    change (visitAll sourceText (c :: rest) st0)
      with (visitAll sourceText rest (visit sourceText c st0)).
    change (traceAll sourceText (c :: rest) st0)
      with (trace sourceText c st0 ++ traceAll sourceText rest (visit sourceText c st0))
      in Hk.
    destruct (decide (k < length (trace sourceText c st0))%nat) as [Hlt|Hge].
    + rewrite lookup_app_l in Hk by done.
      etrans; [apply (Hc _ _ _ _ Hk)|apply visitAll_prefix].
    + rewrite lookup_app_r in Hk by lia. by apply (IH Hrest _ _ _ _ Hk).
Qed.

Lemma trace_keeps sourceText node :
  keepsCalls sourceText (trace sourceText node) (visit sourceText node).
Proof.
  induction node as [node IHfe IHch IHex IHini] using Node_descent_ind.
  intros st0 k m st Hk. rewrite visit_unfold. rewrite trace_unfold in Hk.
  pose proof (descentNodes_ind_step _ node (dispatch sourceText node st0).2
                IHfe IHch IHex IHini) as Hnodes.
  destruct k as [|k]; simpl in Hk.
  - injection Hk as <- <-. apply visitAll_prefix.
  - by apply (traceAll_keeps sourceText _ Hnodes _ _ _ _ Hk).
Qed.

(** ** The objects of an invocation *)

Lemma allocate_fresh object heap :
  heap !! (allocate object heap).1 = None.
Proof. unfold allocate. simpl. apply not_elem_of_dom, is_fresh. Qed.

Lemma onObjects_elementsAt regionsRef namesRef walk heap :
  regionsRef ≠ namesRef →
  elementsAt regionsRef (onObjects regionsRef namesRef walk heap)
  = rawRegions (walk (mkState (elementsAt regionsRef heap) (membersAt namesRef heap))).
Proof.
  intros Hne. unfold onObjects, elementsAt, membersAt. cbv zeta.
  by rewrite lookup_insert_ne, lookup_insert_eq.
Qed.

Lemma onObjects_membersAt regionsRef namesRef walk heap :
  membersAt namesRef (onObjects regionsRef namesRef walk heap)
  = enumNames (walk (mkState (elementsAt regionsRef heap) (membersAt namesRef heap))).
Proof.
  unfold onObjects, elementsAt, membersAt. cbv zeta. by rewrite lookup_insert_eq.
Qed.

Lemma onObjects_other regionsRef namesRef walk heap reference :
  reference ≠ regionsRef → reference ≠ namesRef →
  onObjects regionsRef namesRef walk heap !! reference = heap !! reference.
Proof. intros ??. unfold onObjects. by rewrite !lookup_insert_ne. Qed.

(** The regions do not depend on the heap, and the objects of the heap stay
    as they are. *)
Lemma classifyDocumentOn_spec `{ts : Compiler} heap sourceText :
  (classifyDocumentOn heap sourceText).1 = classifyDocument sourceText
  ∧ ∀ reference object, heap !! reference = Some object →
      (classifyDocumentOn heap sourceText).2 !! reference = Some object.
Proof.
  unfold classifyDocumentOn, allocate. cbv zeta. cbn [fst snd].
  set (regionsRef := fresh (dom heap)).
  set (heap1 := <[regionsRef := ArrayObject []]> heap).
  set (namesRef := fresh (dom heap1)).
  set (heap2 := <[namesRef := SetObject ∅]> heap1).
  assert (heap !! regionsRef = None) as Hregions
    by apply not_elem_of_dom, is_fresh.
  assert (heap1 !! namesRef = None) as Hnames
    by apply not_elem_of_dom, is_fresh.
  assert (regionsRef ≠ namesRef) as Hne.
  { intros Heq. unfold heap1 in Hnames. rewrite <-Heq in Hnames.
    by rewrite lookup_insert_eq in Hnames. }
  assert (elementsAt regionsRef heap2 = []) as Helements.
  { unfold elementsAt, heap2, heap1.
    by rewrite lookup_insert_ne, lookup_insert_eq. }
  assert (membersAt namesRef heap2 = ∅) as Hmembers.
  { unfold membersAt, heap2. by rewrite lookup_insert_eq. }
  split.
  - rewrite onObjects_elementsAt by done.
    rewrite onObjects_elementsAt, onObjects_membersAt by done.
    rewrite Helements, Hmembers. unfold classifyDocument, collect.
    by destruct (visit _ _ _).
  - intros reference object Hobject.
    assert (reference ≠ regionsRef) as Hne1 by congruence.
    assert (reference ≠ namesRef) as Hne2.
    { intros ->. unfold heap1 in Hnames.
      rewrite lookup_insert_ne in Hnames by done. congruence. }
    rewrite !onObjects_other by done.
    unfold heap2, heap1. by rewrite !lookup_insert_ne.
Qed.

Lemma invocations_spec `{ts : Compiler} texts : ∀ heap,
  (invocations texts heap).1 = classifyDocument <$> texts
  ∧ ∀ reference object, heap !! reference = Some object →
      (invocations texts heap).2 !! reference = Some object.
Proof.
  induction texts as [|sourceText rest IH]; intros heap; [done|].
  cbn [invocations].
  destruct (classifyDocumentOn_spec heap sourceText) as [Hregions Hkept].
  destruct (classifyDocumentOn heap sourceText) as [regions heap1]. simpl in *.
  destruct (IH heap1) as [Hothers Hkept1].
  destruct (invocations rest heap1) as [others heap2]. simpl in *.
  split; [by rewrite Hregions, Hothers|].
  intros reference object Hobject. by apply Hkept1, Hkept.
Qed.

(** ** The call stack of the two walks *)

Lemma forEachRaising_Some (visitR : Node → State → option State)
    (visitT : Node → State → State) nodes :
  Forall (λ child, ∀ st, visitR child st = Some (visitT child st)) nodes →
  ∀ st, forEachRaising visitR nodes st
        = Some (foldl (λ st child, visitT child st) st nodes).
Proof.
  induction 1 as [|child rest Hchild _ IH]; intros st; simpl; [done|].
  by rewrite Hchild, IH.
Qed.

Lemma forEachRaising_sound (visitR : Node → State → option State)
    (visitT : Node → State → State) nodes :
  (∀ child st st', visitR child st = Some st' → st' = visitT child st) →
  ∀ st st', forEachRaising visitR nodes st = Some st' →
            st' = foldl (λ st child, visitT child st) st nodes.
Proof.
  intros Hsound. induction nodes as [|child rest IH]; intros st st' Hrun; simpl in *.
  - by injection Hrun as <-.
  - destruct (visitR child st) as [st1|] eqn:Hchild; [|done].
    apply Hsound in Hchild as ->. by apply IH.
Qed.

Lemma visitWithin_unfold sourceText stack node st :
  visitWithin sourceText (S stack) node st
  = forEachRaising (visitWithin sourceText stack)
      (descentNodes node (dispatch sourceText node st).2)
      (dispatch sourceText node st).1.
Proof.
  simpl. destruct (dispatch sourceText node st) as [st1 descent]. simpl.
  destruct descent; simpl; try done.
  - by destruct (expression node) as [e|]; simpl; [destruct (visitWithin _ _ e st1)|].
  - by destruct (initializer node) as [i|]; simpl; [destruct (visitWithin _ _ i st1)|].
  - by destruct (children node).
Qed.

Lemma visitForComments_unfold `{ts : Compiler} sourceText node st :
  visitForComments sourceText node st
  = foldl (λ st child, visitForComments sourceText child st)
      (addComments (commentRangesOf sourceText node) st) (forEachChild node).
Proof.
  destruct node; simpl. unfold commentRangesOf. simpl.
  f_equal. unfold addComments. rewrite foldl_app. by case_bool_decide.
Qed.

Lemma visitForCommentsWithin_unfold `{ts : Compiler} sourceText stack node st :
  visitForCommentsWithin sourceText (S stack) node st
  = forEachRaising (visitForCommentsWithin sourceText stack) (forEachChild node)
      (addComments (commentRangesOf sourceText node) st).
Proof.
  simpl. unfold commentRangesOf. f_equal.
  unfold addComments. rewrite foldl_app. by case_bool_decide.
Qed.

(** A walk that returns within the stack returns what the walk returns. *)
Lemma visitWithin_sound sourceText stack : ∀ node st st',
  visitWithin sourceText stack node st = Some st' → st' = visit sourceText node st.
Proof.
  induction stack as [|stack IH]; intros node st st' Hrun; [done|].
  rewrite visitWithin_unfold in Hrun. rewrite visit_unfold.
  by apply (forEachRaising_sound _ (visit sourceText) _ IH).
Qed.

Lemma visitForCommentsWithin_sound `{ts : Compiler} sourceText stack : ∀ node st st',
  visitForCommentsWithin sourceText stack node st = Some st' →
  st' = visitForComments sourceText node st.
Proof.
  induction stack as [|stack IH]; intros node st st' Hrun; [done|].
  rewrite visitForCommentsWithin_unfold in Hrun. rewrite visitForComments_unfold.
  by apply (forEachRaising_sound _ (visitForComments sourceText) _ IH).
Qed.

(** A bound for every node of a list gives one bound for the list. *)
Lemma Forall_bound (P : nat → Node → Prop) nodes :
  (∀ n m node, P n node → (n ≤ m)%nat → P m node) →
  Forall (λ node, ∃ n, P n node) nodes →
  ∃ n, Forall (P n) nodes.
Proof.
  intros Hmono. induction 1 as [|node rest [n Hn] _ [m Hm]].
  - exists 0%nat. constructor.
  - exists (Nat.max n m). constructor.
    + apply (Hmono n); [done|lia].
    + eapply Forall_impl; [exact Hm|]. intros c Hc. apply (Hmono m); [done|lia].
Qed.

(** Every walk returns once the stack has room for the nesting of the
    tree. *)
Lemma visitWithin_enough sourceText node : ∃ n, returnsFrom sourceText n node.
Proof.
  assert (∀ n m c, returnsFrom sourceText n c → (n ≤ m)%nat → returnsFrom sourceText m c)
    as Hmono by (intros n m c Hn Hle stack st Hstack; apply Hn; lia).
  induction node as [node IHfe IHch IHex IHini] using Node_descent_ind.
  destruct (Forall_bound _ _ Hmono IHfe) as [n1 H1].
  destruct (Forall_bound _ _ Hmono IHch) as [n2 H2].
  assert (∃ n3, ∀ e, expression node = Some e → returnsFrom sourceText n3 e)
    as [n3 H3].
  { destruct (expression node) as [e|]; [|by exists 0%nat].
    destruct (IHex e eq_refl) as [n Hn]. exists n. by intros ? [= <-]. }
  assert (∃ n4, ∀ i, initializer node = Some i → returnsFrom sourceText n4 i)
    as [n4 H4].
  { destruct (initializer node) as [i|]; [|by exists 0%nat].
    destruct (IHini i eq_refl) as [n Hn]. exists n. by intros ? [= <-]. }
  exists (S (Nat.max (Nat.max n1 n2) (Nat.max n3 n4))). intros [|stack] st Hstack; [lia|].
  rewrite visitWithin_unfold, visit_unfold.
  apply (forEachRaising_Some _ (visit sourceText)).
  apply (descentNodes_ind_step (λ c, ∀ st, visitWithin sourceText stack c st
                                           = Some (visit sourceText c st))).
  - eapply Forall_impl; [exact H1|]. intros c Hc st'. apply Hc. lia.
  - eapply Forall_impl; [exact H2|]. intros c Hc st'. apply Hc. lia.
  - intros e He st'. apply (H3 e He). lia.
  - intros i Hi st'. apply (H4 i Hi). lia.
Qed.

Lemma visitForCommentsWithin_enough `{ts : Compiler} sourceText node :
  ∃ n, scanReturnsFrom sourceText n node.
Proof.
  assert (∀ n m c, scanReturnsFrom sourceText n c → (n ≤ m)%nat
                   → scanReturnsFrom sourceText m c)
    as Hmono by (intros n m c Hn Hle stack st Hstack; apply Hn; lia).
  induction node as [node IHfe _ _ _] using Node_descent_ind.
  destruct (Forall_bound _ _ Hmono IHfe) as [n1 H1].
  exists (S n1). intros [|stack] st Hstack; [lia|].
  rewrite visitForCommentsWithin_unfold, visitForComments_unfold.
  apply (forEachRaising_Some _ (visitForComments sourceText)).
  eapply Forall_impl; [exact H1|]. intros c Hc st'. apply Hc. lia.
Qed.

Lemma classifyDocumentWithin_spec `{ts : Compiler} sourceText :
  (∀ stack, classifyDocumentWithin stack sourceText = None
            ∨ classifyDocumentWithin stack sourceText
              = Some (classifyDocument sourceText))
  ∧ ∃ n, ∀ stack, (n ≤ stack)%nat →
      classifyDocumentWithin stack sourceText = Some (classifyDocument sourceText).
Proof.
  unfold classifyDocumentWithin, classifyDocument, collect, collectComments. cbv zeta.
  split.
  - intros stack.
    destruct (visitWithin _ _ _ _) as [st1|] eqn:Hwalk; [|by left].
    apply visitWithin_sound in Hwalk as ->.
    destruct (visitForCommentsWithin _ _ _ _) as [st2|] eqn:Hscan; [|by left].
    apply visitForCommentsWithin_sound in Hscan as ->. by right.
  - destruct (visitWithin_enough sourceText (createSourceFile sourceText)) as [n1 H1].
    destruct (visitForCommentsWithin_enough sourceText (createSourceFile sourceText))
      as [n2 H2].
    exists (Nat.max n1 n2). intros stack Hstack.
    rewrite H1 by lia. by rewrite H2 by lia.
Qed.

(** The nested sums exhaust any stack. *)
Lemma dispatch_BinaryExpression sourceText node st :
  kind node = BinaryExpression →
  dispatch sourceText node st = (addSpan node javascript st, ForEachChild).
Proof.
  intros Hkind. decide_kinds Hkind.
  unfold onOtherNode, classifyNode, isTypeScriptNode, isJsxStructuralNode,
    isJavaScriptNode, isKind. rewrite Hkind. done.
Qed.

Lemma LongSum_sum_raises sourceText count : ∀ stack st,
  (stack ≤ count)%nat → visitWithin sourceText stack (LongSum.sum count) st = None.
Proof.
  induction count as [|count IH]; intros [|stack] st Hstack; try done; [lia|].
  rewrite visitWithin_unfold, dispatch_BinaryExpression by done.
  cbn [fst snd descentNodes]. cbn [LongSum.sum forEachChild with_forEachChild].
  cbn [forEachRaising]. by rewrite IH by lia.
Qed.

Lemma LongSum_raises stack :
  @classifyDocumentWithin (LongSum.compiler stack) stack (LongSum.sourceText stack)
  = None.
Proof.
  unfold classifyDocumentWithin. cbv zeta. cbn [createSourceFile LongSum.compiler].
  destruct stack as [|stack]; [done|].
  rewrite visitWithin_unfold, dispatch_quiet by (by left).
  cbn [fst snd descentNodes]. unfold LongSum.sourceFile at 1.
  cbn [forEachChild with_forEachChild forEachRaising].
  destruct (visitWithin _ stack LongSum.declaration initialState) as [st1|]; [|done].
  destruct stack as [|stack]; [done|].
  rewrite visitWithin_unfold, dispatch_quiet by (right; right; by destruct stack).
  cbn [fst snd descentNodes]. unfold LongSum.statement at 1.
  cbn [forEachChild with_forEachChild forEachRaising].
  by rewrite LongSum_sum_raises by lia.
Qed.

Lemma LongSum_terms_get count k c :
  String.get k (LongSum.terms count ++ ";") = Some c →
  c = "+"%char ∨ c = "x"%char ∨ c = ";"%char.
Proof.
  revert k. induction count as [|count IH]; intros k Hget.
  - destruct k as [|[|k]]; simpl in Hget; [|done..]. injection Hget as <-. auto.
  - destruct k as [|[|k]]; simpl in Hget.
    + injection Hget as <-. auto.
    + injection Hget as <-. auto.
    + by apply (IH k).
Qed.

Lemma LongSum_close_bracket count r :
  charAt (LongSum.sourceText count) r = Some ">"%char → r = 24.
Proof.
  unfold charAt. case_decide as Hr; [|done]. intros Hget.
  destruct (decide (r < 32)) as [Hlt|Hge].
  - assert (∃ k, (k < 32)%nat ∧ r = Z.of_nat k) as (k & Hk & ->)
      by (exists (Z.to_nat r); lia).
    rewrite Nat2Z.id in Hget.
    do 32 (destruct k as [|k]; [first [done|by vm_compute in Hget]|]). lia.
  - replace (Z.to_nat r) with (32 + Z.to_nat (r - 32))%nat in Hget by lia.
    apply LongSum_terms_get in Hget. by destruct Hget as [|[|]].
Qed.

Lemma LongSum_scan_fails count :
  findMatchingCloseBracket (LongSum.sourceText count)
    (findOpeningBracket (LongSum.sourceText count)
       (getStart LongSum.typeParameter - 1)) = -1.
Proof.
  assert (findOpeningBracket (LongSum.sourceText count)
            (getStart LongSum.typeParameter - 1) = 10) as ->
    by (vm_compute; reflexivity).
  destruct (findMatchingCloseBracket_spec (LongSum.sourceText count) 10)
    as [[Hfail _]|(_ & Hchar & Hdepth & _)]; [done|].
  apply LongSum_close_bracket in Hchar. rewrite Hchar in Hdepth.
  by vm_compute in Hdepth.
Qed.

(** * The claims *)

(** C1.  Priority dominance.  For every list of candidates (each carrying a
    positive priority, as [addRegion] makes them), every document length and
    every offset inside the document: one candidate rewrites the recorded
    layer and priority of the offset exactly when it covers the offset and
    its priority is strictly greater than the recorded one; and the layer
    that the output shows at the offset is that of the covering candidate of
    maximal priority that was emitted first.  An offset has no layer exactly
    when no candidate covers it. *)
Theorem resolveOverlaps_priority_dominance rawRegions textLength (i : nat) :
  positivePriorities rawRegions → (i < textLength)%nat →
  (∀ maps region l p,
      sized textLength maps → cell maps i = Some (l, p) →
      cell (paintRegion textLength maps region) i =
        Some (if bool_decide (covers region (Z.of_nat i) ∧ p < priority region)
              then (Some (layer region), priority region)
              else (l, p)))
  ∧ (∀ l, getLayerAt (resolveOverlaps rawRegions textLength) (Z.of_nat i) = Some l
          ↔ ∃ k r, wins rawRegions (Z.of_nat i) k r ∧ layer r = l)
  ∧ (getLayerAt (resolveOverlaps rawRegions textLength) (Z.of_nat i) = None
     ↔ ∀ r, r ∈ rawRegions → ¬ covers r (Z.of_nat i)).
Proof.
  intros Hpos Hi. split; [|split].
  - intros maps region l p Hsized Hcell.
    rewrite paintRegion_cell, Hcell by done. unfold paintCell. simpl.
    destruct (decide (covers region (Z.of_nat i))) as [Hc|Hc]; simpl.
    + case_bool_decide as Hlt.
      * by rewrite bool_decide_eq_true_2.
      * rewrite bool_decide_eq_false_2; [done|]. by intros [_ ?].
    + rewrite bool_decide_eq_false_2; [done|]. by intros [? _].
  - intros l. rewrite resolveOverlaps_layer by done.
    destruct (cellAfter_spec rawRegions (Z.of_nat i) Hpos)
      as [[-> Hnone]|(k & r & Hwins & ->)]; simpl.
    + split; [done|]. intros (k & r & (Hk & Hc & _) & _).
      destruct (Hnone r); [by eapply list_elem_of_lookup_2|done].
    + split.
      * intros [= <-]. by exists k, r.
      * intros (k' & r' & Hwins' & <-).
        destruct (wins_unique _ _ _ _ _ _ Hwins Hwins') as [_ ->]. done.
  - rewrite resolveOverlaps_layer by done.
    destruct (cellAfter_spec rawRegions (Z.of_nat i) Hpos)
      as [[-> Hnone]|(k & r & (Hk & Hc & _) & ->)]; simpl.
    + done.
    + split; [done|]. intros Hnone.
      destruct (Hnone r); [by eapply list_elem_of_lookup_2|done].
Qed.

Lemma resolveOverlaps_priority_dominance_witness :
  let rawRegions := [mkRawRegion 0 11 javascript 1; mkRawRegion 0 8 react 4;
                     mkRawRegion 0 8 javascript 1] in
  positivePriorities rawRegions ∧ (3 < 11)%nat
  ∧ ∃ k r, wins rawRegions 3 k r ∧ layer r = react.
Proof.
  simpl.
  assert (positivePriorities [mkRawRegion 0 11 javascript 1; mkRawRegion 0 8 react 4;
                              mkRawRegion 0 8 javascript 1]) as Hpos
    by (repeat constructor).
  assert (3 < 11)%nat as Hlt by lia.
  split; [exact Hpos|]. split; [exact Hlt|].
  apply (proj1 (proj2 (resolveOverlaps_priority_dominance _ 11%nat 3%nat Hpos Hlt))).
  vm_compute. reflexivity.
Defined.

(** C2.  For every input text, the regions returned by [classifyDocument]
    are ordered by start and do not overlap: each region ends at or before
    the start of the next one. *)
Theorem classifyDocument_ordered `{ts : Compiler} sourceText k a b :
  classifyDocument sourceText !! k = Some a →
  classifyDocument sourceText !! S k = Some b →
  region_start a < region_start b ∧ region_end a ≤ region_start b.
Proof.
  intros Ha Hb. unfold classifyDocument in *.
  destruct (resolveOverlaps_shape (rawRegions (collect sourceText)) (String.length sourceText))
    as (Hbound & Hordered & _).
  pose proof (Hordered k a b Ha Hb).
  pose proof (Hbound a ltac:(by eapply list_elem_of_lookup_2)).
  lia.
Qed.

Lemma classifyDocument_ordered_witness :
  let regions := @classifyDocument UseState.compiler UseState.sourceText in
  regions !! 0%nat = Some (mkRegion 0 8 react)
  ∧ regions !! 1%nat = Some (mkRegion 8 11 javascript)
  ∧ (0 < 8 ∧ 8 ≤ 8).
Proof.
  simpl.
  assert (@classifyDocument UseState.compiler UseState.sourceText !! 0%nat
          = Some (mkRegion 0 8 react)) as H0 by (vm_compute; reflexivity).
  assert (@classifyDocument UseState.compiler UseState.sourceText !! 1%nat
          = Some (mkRegion 8 11 javascript)) as H1 by (vm_compute; reflexivity).
  split; [exact H0|]. split; [exact H1|].
  exact (@classifyDocument_ordered UseState.compiler UseState.sourceText 0 _ _ H0 H1).
Defined.

(** C3, as stated: no two consecutive regions of the output share a layer.
    It fails on [a; b;], whose two identifiers are both base layer and are
    separated by uncovered text. *)
Lemma classifyDocument_consecutive_same_layer :
  ¬ consecutiveDiffer (@classifyDocument TwoStatements.compiler TwoStatements.sourceText).
Proof.
  intros Hdiffer.
  apply (Hdiffer 0%nat (mkRegion 0 1 javascript) (mkRegion 3 4 javascript));
    vm_compute; reflexivity.
Qed.

(** C3, amended.  For every input text, two consecutive regions of the
    output that touch (the first ends where the second starts) have different
    layers. *)
Theorem classifyDocument_touching_differ `{ts : Compiler} sourceText k a b :
  classifyDocument sourceText !! k = Some a →
  classifyDocument sourceText !! S k = Some b →
  region_end a = region_start b →
  region_layer a ≠ region_layer b.
Proof.
  intros Ha Hb. unfold classifyDocument in *.
  destruct (resolveOverlaps_shape (rawRegions (collect sourceText)) (String.length sourceText))
    as (_ & _ & Htouching).
  by apply (Htouching k).
Qed.

Lemma classifyDocument_touching_differ_witness :
  let regions := @classifyDocument UseState.compiler UseState.sourceText in
  regions !! 0%nat = Some (mkRegion 0 8 react)
  ∧ regions !! 1%nat = Some (mkRegion 8 11 javascript)
  ∧ react ≠ javascript.
Proof.
  simpl.
  assert (@classifyDocument UseState.compiler UseState.sourceText !! 0%nat
          = Some (mkRegion 0 8 react)) as H0 by (vm_compute; reflexivity).
  assert (@classifyDocument UseState.compiler UseState.sourceText !! 1%nat
          = Some (mkRegion 8 11 javascript)) as H1 by (vm_compute; reflexivity).
  split; [exact H0|]. split; [exact H1|].
  exact (@classifyDocument_touching_differ UseState.compiler UseState.sourceText
           0 _ _ H0 H1 eq_refl).
Defined.

(** C4.  The two bracket scans are functions of the source text and an
    offset.  The backward scan returns the nearest ['<'] at or before the
    offset, and [-1] when there is none down to offset 0.  The forward scan
    starts at depth 1 after the opening bracket, adds 1 on ['<'] and
    subtracts 1 on ['>'], and returns the offset of the ['>'] that brings
    the depth to 0, and [-1] when the text ends first.  On
    [new Map<string, Set<number>>()] the two scans delimit the single span
    [<string, Set<number>>], the depth rising to 2 inside it. *)
Theorem bracket_matcher sourceText pos :
  (let r := findOpeningBracket sourceText pos in
   (r = -1 ∧ ∀ j, 0 ≤ j ≤ pos → charAt sourceText j ≠ Some "<"%char)
   ∨ (0 ≤ r ≤ pos ∧ charAt sourceText r = Some "<"%char
      ∧ ∀ j, r < j ≤ pos → charAt sourceText j ≠ Some "<"%char))
  ∧ (let r := findMatchingCloseBracket sourceText pos in
     (r = -1 ∧ ∀ p, pos < p < textLen sourceText → 0 < depthAfter sourceText pos p)
     ∨ (pos < r < textLen sourceText
        ∧ charAt sourceText r = Some ">"%char
        ∧ depthAfter sourceText pos r = 0
        ∧ ∀ p, pos < p < r → 0 < depthAfter sourceText pos p))
  ∧ (let text := "new Map<string, Set<number>>()" in
     findOpeningBracket text (8 - 1) = 7
     ∧ findMatchingCloseBracket text 7 = 27
     ∧ depthAfter text 7 19 = 2
     ∧ substring text 7 (27 + 1) = "<string, Set<number>>"
     ∧ rawRegions (addTypeArgumentsRegion [leaf OtherKind 8 8 14] text initialState)
       = [mkRawRegion 7 28 typescript 3]).
Proof.
  split; [apply findOpeningBracket_spec|].
  split; [apply findMatchingCloseBracket_spec|].
  repeat split; vm_compute; reflexivity.
Qed.

(** C5.  A call expression whose callee text is a library hook name, a
    qualified [React.useXxx] name or a library utility name adds, after the
    candidate of its type arguments if any, exactly two candidates: the
    callee span in the library layer and the whole call span in the base
    layer; then every child is visited.  [useState(0)] is classified as
    [useState] in the library layer and [(0)] in the base layer. *)
Theorem hook_call_regions sourceText node expr st :
  kind node = CallExpression → expression node = Some expr →
  has REACT_HOOKS (getText sourceText expr) = true
  ∨ isQualifiedHook (getText sourceText expr) = true
  ∨ has REACT_UTILS (getText sourceText expr) = true →
  getStart expr < getEnd expr → getStart node < getEnd node →
  let st' := addTypeArgumentsRegion (typeArguments node) sourceText st in
  let emitted :=
    mkState (rawRegions st'
               ++ [mkRawRegion (getStart expr) (getEnd expr) react 4;
                   mkRawRegion (getStart node) (getEnd node) javascript 1])
            (enumNames st') in
  dispatch sourceText node st = (emitted, ForEachChild)
  ∧ visit sourceText node st = visitAll sourceText (forEachChild node) emitted
  ∧ @classifyDocument UseState.compiler "useState(0)"
    = [mkRegion 0 8 react; mkRegion 8 11 javascript].
Proof.
  intros Hkind Hexpr Hcallee Hspan_expr Hspan_node. simpl.
  assert (dispatch sourceText node st =
          (mkState (rawRegions (addTypeArgumentsRegion (typeArguments node) sourceText st)
                      ++ [mkRawRegion (getStart expr) (getEnd expr) react 4;
                          mkRawRegion (getStart node) (getEnd node) javascript 1])
                   (enumNames (addTypeArgumentsRegion (typeArguments node) sourceText st)),
           ForEachChild)) as Hdispatch.
  { rewrite dispatch_CallExpression by done. unfold onCallExpression.
    rewrite Hexpr. simpl.
    assert (∀ st0,
      addSpan node javascript (addSpan expr react st0)
      = mkState (rawRegions st0
                   ++ [mkRawRegion (getStart expr) (getEnd expr) react 4;
                       mkRawRegion (getStart node) (getEnd node) javascript 1])
                (enumNames st0)) as Hadd.
    { intros st0. unfold addSpan, addRegion.
      rewrite !bool_decide_eq_true_2 by done. simpl. by rewrite <-app_assoc. }
    destruct (has REACT_HOOKS (getText sourceText expr)); [by rewrite Hadd|].
    destruct (isQualifiedHook (getText sourceText expr)); [by rewrite Hadd|].
    destruct (has REACT_UTILS (getText sourceText expr)); [by rewrite Hadd|].
    by destruct Hcallee as [?|[?|?]]. }
  split; [done|]. split.
  - rewrite visit_unfold, Hdispatch. done.
  - vm_compute. reflexivity.
Qed.

Lemma hook_call_regions_witness :
  kind UseState.call = CallExpression
  ∧ expression UseState.call = Some UseState.callee
  ∧ has REACT_HOOKS (getText UseState.sourceText UseState.callee) = true
  ∧ rawRegions (visit UseState.sourceText UseState.call initialState)
    = [mkRawRegion 0 8 react 4; mkRawRegion 0 11 javascript 1;
       mkRawRegion 0 8 javascript 1; mkRawRegion 9 10 javascript 1].
Proof.
  assert (has REACT_HOOKS (getText UseState.sourceText UseState.callee) = true) as Hhook
    by (vm_compute; reflexivity).
  split; [reflexivity|]. split; [reflexivity|]. split; [exact Hhook|].
  rewrite (proj1 (proj2 (hook_call_regions UseState.sourceText UseState.call
                           UseState.callee initialState eq_refl eq_refl
                           (or_introl Hhook) ltac:(vm_compute; reflexivity)
                           ltac:(vm_compute; reflexivity)))).
  vm_compute. reflexivity.
Defined.

Lemma collect_blank `{ts : Compiler} sourceText :
  ParsesBlank ts → whiteSpaceOnly sourceText → collect sourceText = initialState.
Proof.
  intros [Hkind Hchildren Hleading Htrailing] Hblank.
  specialize (Hkind _ Hblank). specialize (Hchildren _ Hblank).
  unfold collect, collectComments.
  assert (visit sourceText (createSourceFile sourceText) initialState = initialState)
    as ->.
  { rewrite visit_unfold, dispatch_quiet by auto. simpl.
    generalize initialState.
    induction Hchildren as [|child rest [Hk Hfe] _ IH]; intros st; [done|].
    change (visitAll sourceText (child :: rest) st)
      with (visitAll sourceText rest (visit sourceText child st)).
    rewrite (visit_unfold _ child), dispatch_quiet by auto. simpl.
    rewrite Hfe. simpl. apply IH. }
  assert (∀ node st, visitForComments sourceText node st =
                     foldl (λ st child, visitForComments sourceText child st) st
                           (forEachChild node)) as Hquiet.
  { intros node st. destruct node; simpl.
    rewrite Hleading, Htrailing by done. simpl. by case_bool_decide. }
  rewrite Hquiet. generalize initialState.
  induction Hchildren as [|child rest [Hk Hfe] _ IH]; intros st; [done|].
  simpl. rewrite (Hquiet child), Hfe. simpl. apply IH.
Qed.

(** C6.  For the empty string, and for every text made of white space only
    (given a parser that builds for such a text a source file holding
    nothing but the end-of-file token, and finds no comment in it),
    [classifyDocument] returns the empty sequence. *)
Theorem classifyDocument_blank `{ts : Compiler} sourceText :
  sourceText = "" ∨ ParsesBlank ts ∧ whiteSpaceOnly sourceText →
  classifyDocument sourceText = [].
Proof.
  intros [->|[Hparser Hblank]]; unfold classifyDocument, resolveOverlaps.
  - simpl. by rewrite orb_true_r.
  - by rewrite collect_blank.
Qed.

Lemma classifyDocument_blank_witness :
  (ParsesBlank Blank.compiler ∧ whiteSpaceOnly Blank.sourceText)
  ∧ @classifyDocument Blank.compiler Blank.sourceText = [].
Proof.
  assert (ParsesBlank Blank.compiler ∧ whiteSpaceOnly Blank.sourceText) as Hhyp.
  { split; [|reflexivity].
    split; intros; simpl; repeat constructor. }
  split; [exact Hhyp|].
  exact (@classifyDocument_blank Blank.compiler Blank.sourceText (or_intror Hhyp)).
Defined.

(** C7, the last clause as stated: no exception crosses the boundary of
    [classifyDocument].  Whatever room the call stack has, a sum long
    enough, in a document whose type parameter list fails to scan,
    exhausts it in [visit], and the [RangeError] leaves [classifyDocument],
    which catches nothing. *)
Lemma failed_scan_exhausts_stack : ¬ ∃ stack, failedScanRaisesNothing stack.
Proof.
  intros [stack Hclaim].
  specialize (Hclaim (LongSum.compiler stack) (LongSum.sourceText stack)
                LongSum.declaration LongSum.typeParameter []).
  rewrite LongSum_raises in Hclaim. apply (is_Some_None (A := list ClassifiedRegion)).
  apply Hclaim.
  - apply elem_of_cons. by left.
  - done.
  - done.
  - apply LongSum_scan_fails.
Qed.

(** C7, amended.  When either bracket scan fails,
    [findTypeParameterListRange] returns no range, and the
    function-declaration rule adds its base-layer candidate and its
    return-type candidate without the type-parameter candidate, then visits
    every child as usual; every other caller, whether it goes through
    [findTypeParameterListRange] or repeats the two scans inline, likewise
    leaves the state unchanged.  The failed scan raises nothing:
    [classifyDocument] returns its regions as soon as the call stack has
    room for the nesting of the tree, and whatever the room it either
    returns these regions or raises the [RangeError] of the exhausted
    stack. *)
Theorem bracket_scan_failure `{ts : Compiler} sourceText node firstParam rest st :
  kind node = FunctionDeclaration → hasDeclare node = false →
  typeParameters node = firstParam :: rest →
  findOpeningBracket sourceText (getStart firstParam - 1) = -1
  ∨ findMatchingCloseBracket sourceText
      (findOpeningBracket sourceText (getStart firstParam - 1)) = -1 →
  findTypeParameterListRange (typeParameters node) sourceText = None
  ∧ visit sourceText node st
    = visitAll sourceText (forEachChild node)
               (addReturnTypeRegion node (addSpan node javascript st))
  ∧ addTypeParametersRegion (firstParam :: rest) sourceText st = st
  ∧ addTypeArgumentsRegion (firstParam :: rest) sourceText st = st
  ∧ (∀ stack, classifyDocumentWithin stack sourceText = None
              ∨ classifyDocumentWithin stack sourceText
                = Some (classifyDocument sourceText))
  ∧ ∃ n, ∀ stack, (n ≤ stack)%nat →
      classifyDocumentWithin stack sourceText = Some (classifyDocument sourceText).
Proof.
  intros Hkind Hdeclare Hparams Hfail.
  assert (findTypeParameterListRange (typeParameters node) sourceText = None) as Hrange.
  { rewrite Hparams. unfold findTypeParameterListRange.
    case_bool_decide; [done|]. case_bool_decide; [done|]. by destruct Hfail. }
  split; [done|]. split; [|split; [|split]].
  - rewrite visit_unfold, dispatch_FunctionDeclaration by done.
    unfold onFunctionDeclaration, addTypeParametersRegion.
    rewrite Hdeclare, Hrange. done.
  - unfold addTypeParametersRegion. by rewrite <-Hparams, Hrange.
  - unfold addTypeArgumentsRegion.
    case_bool_decide; [|done]. case_bool_decide; [|done]. by destruct Hfail.
  - apply classifyDocumentWithin_spec.
Qed.

Lemma bracket_scan_failure_witness :
  let text := UnclosedTypeParameters.sourceText in
  let node := UnclosedTypeParameters.declaration in
  findOpeningBracket text 10 = 10
  ∧ findMatchingCloseBracket text 10 = -1
  ∧ rawRegions (visit text node initialState)
    = [mkRawRegion 0 12 javascript 1; mkRawRegion 9 10 javascript 1;
       mkRawRegion 11 12 typescript 3; mkRawRegion 11 12 javascript 1]
  ∧ ∃ n, ∀ stack, (n ≤ stack)%nat →
      @classifyDocumentWithin UnclosedTypeParameters.compiler stack text
      = Some (@classifyDocument UnclosedTypeParameters.compiler text).
Proof.
  cbv zeta.
  assert (findMatchingCloseBracket UnclosedTypeParameters.sourceText
            (findOpeningBracket UnclosedTypeParameters.sourceText
               (getStart UnclosedTypeParameters.typeParameter - 1)) = -1) as Hclose
    by (vm_compute; reflexivity).
  pose proof (@bracket_scan_failure UnclosedTypeParameters.compiler
                UnclosedTypeParameters.sourceText
                UnclosedTypeParameters.declaration
                UnclosedTypeParameters.typeParameter [] initialState
                eq_refl eq_refl eq_refl (or_intror Hclose))
    as (_ & Hvisit & _ & _ & _ & Hreturns).
  split; [vm_compute; reflexivity|]. split; [vm_compute; reflexivity|].
  split; [|exact Hreturns].
  rewrite Hvisit. vm_compute. reflexivity.
Defined.

(** C8.  Order dependence of the enum rule.  Take any call that the walk
    of a document makes on a property access whose base is an identifier.
    If an enum declaration named like the base was visited earlier in the
    walk, the call adds the whole-span type-layer candidate and visits
    nothing below the access; otherwise it adds the whole-span base-layer
    candidate of the standard classification and descends.  In either case
    the candidate is in the candidates gathered for the document, right
    after those that the walk held when the call started. *)
Theorem enum_access_order `{ts : Compiler} sourceText k access base st :
  let root := createSourceFile sourceText in
  trace sourceText root initialState !! k = Some (access, st) →
  kind access = PropertyAccessExpression →
  expression access = Some base → kind base = Identifier →
  getStart access < getEnd access →
  let declaredBefore :=
    ∃ d std nm, (d, std) ∈ take k (trace sourceText root initialState)
                ∧ kind d = EnumDeclaration ∧ name d = Some nm ∧ text nm = text base in
  let emits candidate descent :=
    dispatch sourceText access st
    = (mkState (rawRegions st ++ [candidate]) (enumNames st), descent)
    ∧ ∃ later, rawRegions (collect sourceText) = rawRegions st ++ candidate :: later in
  (declaredBefore →
   emits (mkRawRegion (getStart access) (getEnd access) typescript 3) Return
   ∧ trace sourceText access st = [(access, st)])
  ∧ (¬ declaredBefore →
     emits (mkRawRegion (getStart access) (getEnd access) javascript 1) ForEachChild).
Proof.
  intros root Hcall Hkind Hexpr Hbase Hspan. cbv zeta.
  destruct (trace_enums sourceText root initialState) as [_ Hbefore].
  specialize (Hbefore _ _ _ Hcall). simpl in Hbefore.
  rewrite (left_id_L ∅ (∪)) in Hbefore.
  assert (rawRegions (dispatch sourceText access st).1
            `prefix_of` rawRegions (collect sourceText)) as Hkept.
  { etrans; [apply (trace_keeps sourceText root _ _ _ _ Hcall)|].
    apply visitForComments_prefix. }
  pose proof (dispatch_PropertyAccessExpression sourceText access st Hkind) as Hd.
  rewrite Hexpr in Hd. simpl in Hd. unfold isKind in Hd. rewrite Hbase in Hd.
  rewrite (bool_decide_eq_true_2 (Identifier = Identifier)) in Hd by done.
  simpl in Hd. unfold addSpan, addRegion in Hd.
  rewrite (bool_decide_eq_true_2 (getStart access < getEnd access)) in Hd by done.
  split; intros Hdecl.
  - rewrite bool_decide_eq_true_2 in Hd
      by (rewrite Hbefore; by apply elem_of_declared).
    rewrite Hd in Hkept. destruct Hkept as [later Hlater]. simpl in Hlater.
    split; [split; [done|]|].
    + exists later. by rewrite Hlater, <-app_assoc.
    + by rewrite trace_unfold, Hd.
  - rewrite bool_decide_eq_false_2 in Hd by (by rewrite Hbefore, elem_of_declared).
    rewrite Hd in Hkept. destruct Hkept as [later Hlater]. simpl in Hlater.
    split; [done|]. exists later. by rewrite Hlater, <-app_assoc.
Qed.

Lemma enum_access_order_witness :
  let text := EnumThenAccess.sourceText in
  let st := visit text EnumThenAccess.enum initialState in
  trace text EnumThenAccess.sourceFile initialState !! 3%nat
  = Some (EnumThenAccess.access, st)
  ∧ ∃ later, rawRegions (@collect EnumThenAccess.compiler text)
             = rawRegions st ++ mkRawRegion 13 16 typescript 3 :: later.
Proof.
  cbv zeta.
  assert (trace EnumThenAccess.sourceText EnumThenAccess.sourceFile initialState !! 3%nat
          = Some (EnumThenAccess.access,
                  visit EnumThenAccess.sourceText EnumThenAccess.enum initialState))
    as Hcall by (vm_compute; reflexivity).
  split; [exact Hcall|].
  apply (proj1 (@enum_access_order EnumThenAccess.compiler
                  EnumThenAccess.sourceText
                  3 EnumThenAccess.access EnumThenAccess.base _ Hcall
                  eq_refl eq_refl eq_refl ltac:(vm_compute; reflexivity))).
  exists EnumThenAccess.enum, initialState, EnumThenAccess.enumName.
  split; [|split; [reflexivity|split; reflexivity]].
  apply (list_elem_of_lookup_2 _ 1%nat). vm_compute. reflexivity.
Defined.

(** C9.  In any run of invocations, started on any heap, two invocations
    on the same text return the same sequence, which is the one that an
    invocation on the empty heap returns and the one that [classifyDocument]
    gives: every invocation creates its array of candidates and its set of
    tracked names anew, so that nothing that an earlier invocation left
    reaches it; and no invocation changes an object that was there before
    it. *)
Theorem classifyDocument_deterministic `{ts : Compiler} (heap : gmap positive Object) texts i j
    sourceText :
  texts !! i = Some sourceText → texts !! j = Some sourceText →
  let run := invocations texts heap in
  run.1 !! i = run.1 !! j
  ∧ run.1 !! j = Some (classifyDocumentOn ∅ sourceText).1
  ∧ run.1 !! j = Some (classifyDocument sourceText)
  ∧ ∀ reference object, heap !! reference = Some object →
      run.2 !! reference = Some object.
Proof.
  intros Hi Hj. cbv zeta.
  destruct (invocations_spec texts heap) as [-> Hkept].
  rewrite (proj1 (classifyDocumentOn_spec ∅ sourceText)).
  rewrite !list_lookup_fmap, Hi, Hj. done.
Qed.

Lemma classifyDocument_deterministic_witness :
  Session.texts !! 0%nat = Some UseState.sourceText
  ∧ Session.texts !! 2%nat = Some UseState.sourceText
  ∧ (@invocations Session.compiler Session.texts Session.heap).1 !! 0%nat
    = (@invocations Session.compiler Session.texts Session.heap).1 !! 2%nat
  ∧ (@invocations Session.compiler Session.texts Session.heap).1 !! 2%nat
    = Some [mkRegion 0 8 react; mkRegion 8 11 javascript].
Proof.
  split; [reflexivity|]. split; [reflexivity|].
  destruct (@classifyDocument_deterministic Session.compiler Session.heap
              Session.texts 0 2 UseState.sourceText eq_refl eq_refl)
    as (Hsame & _ & Hregions & _).
  split; [exact Hsame|].
  rewrite Hregions. vm_compute. reflexivity.
Defined.

(** ** Comments under a span of higher priority *)

Lemma collect_wellPrioritized `{ts : Compiler} sourceText :
  wellPrioritized (collect sourceText).
Proof.
  apply collect_stable.
  - intros s e l st Hst. unfold wellPrioritized, addRegion.
    case_bool_decide; [|done]. simpl. apply Forall_app. split; [done|].
    by repeat constructor.
  - done.
  - constructor.
Qed.

Lemma PRIORITY_inj l1 l2 : PRIORITY l1 = PRIORITY l2 → l1 = l2.
Proof. by destruct l1, l2. Qed.

Lemma PRIORITY_bounds l : 1 ≤ PRIORITY l ≤ 4.
Proof. destruct l; simpl; lia. Qed.

(** The comment scanner adds base-layer candidates only. *)
Lemma addComments_javascript comments st r :
  r ∈ rawRegions (addComments comments st) →
  r ∈ rawRegions st ∨ layer r = javascript ∧ priority r = 1.
Proof.
  unfold addComments. revert st.
  induction comments as [|c comments IH]; intros st Hr; simpl in Hr; [by left|].
  apply IH in Hr as [Hr|?]; [|by right].
  unfold addRegion in Hr. case_bool_decide; [|by left]. simpl in Hr.
  apply elem_of_app in Hr as [?| ->%list_elem_of_singleton]; [by left|by right].
Qed.

(** C10, as stated: a comment inside a span of higher priority ends with
    the layer of that span.  It fails on [interface P { f: FC<A /*c*/> }]:
    the comment lies inside the interface, which is type layer, and the
    output shows the library layer there, that of the reference to [FC]. *)
Lemma comment_not_layer_of_span :
  ¬ @commentsTakeSpanLayer InterfaceComment.compiler InterfaceComment.sourceText.
Proof.
  intros Hclaim.
  specialize (Hclaim (mkRawRegion 0 30 typescript 3) (mkRawRegion 22 27 javascript 1)
                24%nat).
  rewrite InterfaceComment_collected, InterfaceComment_classified in Hclaim.
  assert (getLayerAt [mkRegion 0 17 typescript; mkRegion 17 28 react;
                      mkRegion 28 30 typescript] (Z.of_nat 24) = Some typescript)
    as Hlayer; [|by vm_compute in Hlayer].
  apply Hclaim.
  - apply (list_elem_of_lookup_2 _ 0%nat). reflexivity.
  - apply (list_elem_of_lookup_2 _ 8%nat). reflexivity.
  - reflexivity.
  - discriminate.
  - simpl. lia.
  - simpl. lia.
  - unfold covers. simpl. lia.
  - vm_compute. lia.
Qed.

(** C10, amended.  A comment candidate is base layer, but where it lies
    inside a candidate [H] of another layer, the output shows at each of its
    offsets a layer whose priority is at least that of [H], hence not the
    base layer; and it shows the layer of [H] itself unless a candidate of
    still higher priority covers the offset. *)
Theorem comment_inside_higher_span `{ts : Compiler} sourceText H C (i : nat) :
  H ∈ rawRegions (collect sourceText) → C ∈ rawRegions (collect sourceText) →
  layer C = javascript → layer H ≠ javascript →
  start H ≤ start C → end_ C ≤ end_ H →
  covers C (Z.of_nat i) → (i < String.length sourceText)%nat →
  ∃ l, getLayerAt (classifyDocument sourceText) (Z.of_nat i) = Some l
       ∧ PRIORITY (layer H) ≤ PRIORITY l
       ∧ l ≠ javascript
       ∧ ((∀ r, r ∈ rawRegions (collect sourceText) → covers r (Z.of_nat i) →
                PRIORITY (layer r) ≤ PRIORITY (layer H)) →
          l = layer H).
Proof.
  intros HH HC HlayerC HlayerH Hstart Hend Hcovers Hi.
  pose proof (collect_wellPrioritized sourceText) as Hwell.
  unfold wellPrioritized in Hwell. rewrite Forall_forall in Hwell.
  assert (positivePriorities (rawRegions (collect sourceText))) as Hpos.
  { apply Forall_forall. intros r Hr. rewrite (Hwell r Hr).
    pose proof (PRIORITY_bounds (layer r)). lia. }
  assert (covers H (Z.of_nat i)) as HcoversH by (unfold covers in *; lia).
  unfold classifyDocument. rewrite resolveOverlaps_layer by done.
  destruct (cellAfter_spec _ (Z.of_nat i) Hpos)
    as [[_ Hnone]|(k & r & (Hk & Hc & Hmax & _) & ->)].
  { by destruct (Hnone H). }
  simpl. exists (layer r).
  assert (r ∈ rawRegions (collect sourceText)) as Hr
    by (by eapply list_elem_of_lookup_2).
  pose proof (Hmax H HH HcoversH) as Hle.
  rewrite (Hwell H HH), (Hwell r Hr) in Hle.
  split; [done|]. split; [done|]. split.
  - intros Heq. rewrite Heq in Hle. destruct (layer H); simpl in Hle; (done || lia).
  - intros Htop. apply PRIORITY_inj. specialize (Htop r Hr Hc). lia.
Qed.

Lemma comment_inside_higher_span_witness :
  let candidates :=
    rawRegions (@collect DecoratorComment.compiler DecoratorComment.sourceText) in
  mkRawRegion 0 11 typescript 3 ∈ candidates
  ∧ mkRawRegion 5 10 javascript 1 ∈ candidates
  ∧ ∃ l, getLayerAt (@classifyDocument DecoratorComment.compiler
                       DecoratorComment.sourceText) 7 = Some l
         ∧ l ≠ javascript.
Proof.
  cbv zeta.
  assert (mkRawRegion 0 11 typescript 3
            ∈ rawRegions (@collect DecoratorComment.compiler DecoratorComment.sourceText))
    as HH by (apply (list_elem_of_lookup_2 _ 1%nat); vm_compute; reflexivity).
  assert (mkRawRegion 5 10 javascript 1
            ∈ rawRegions (@collect DecoratorComment.compiler DecoratorComment.sourceText))
    as HC by (apply (list_elem_of_lookup_2 _ 3%nat); vm_compute; reflexivity).
  split; [exact HH|]. split; [exact HC|].
  destruct (@comment_inside_higher_span DecoratorComment.compiler
              DecoratorComment.sourceText _ _ 7%nat HH HC eq_refl
              ltac:(discriminate) ltac:(simpl; lia) ltac:(simpl; lia)
              ltac:(unfold covers; simpl; lia) ltac:(vm_compute; lia))
    as (l & Hl & _ & Hne & _).
  exists l. split; [exact Hl|exact Hne].
Defined.

(** * Further properties

    Properties of the same code beyond those of the specification. *)

(** ** Overlap resolver *)

Lemma mergeLoop_none n ms :
  currentLayer ms = None →
  foldl (mergeStep (replicate n None)) ms (seq 0 n) = ms.
Proof.
  intros Hnone.
  assert (∀ l, foldl (mergeStep (replicate n None)) ms l = ms) as H; [|apply H].
  induction l as [|i l IH]; simpl; [done|].
  assert (mergeStep (replicate n None) ms i = ms) as ->; [|done].
  unfold mergeStep.
  assert (mjoin (replicate n (@None SyntaxLayer) !! i) = None) as ->.
  { destruct (replicate n None !! i) as [x|] eqn:Hx; [|done].
    apply lookup_replicate in Hx as [-> _]. done. }
  rewrite Hnone. by rewrite bool_decide_eq_false_2 by (intros ?; done).
Qed.

Lemma mergeRuns_none n : mergeRuns (replicate n None) n = [].
Proof. unfold mergeRuns. by rewrite mergeLoop_none. Qed.

Lemma paintAll_sized rawRegions n : sized n (paintAll rawRegions n).
Proof.
  unfold paintAll. induction rawRegions as [|r rs IH] using rev_ind.
  - split; simpl; by rewrite length_replicate.
  - rewrite foldl_app. simpl. by apply paintRegion_sized.
Qed.

Lemma paintAll_positionMap rawRegions n :
  positionMap (paintAll rawRegions n)
  = (λ i : nat, (cellAfter rawRegions (Z.of_nat i)).1) <$> seq 0 n.
Proof.
  apply list_eq. intros i.
  destruct (paintAll_sized rawRegions n) as [Hlen _].
  destruct (decide (i < n)%nat) as [Hi|Hi].
  - destruct (paintAll_cell rawRegions n i Hi) as [_ Hcell].
    rewrite list_lookup_fmap, lookup_seq_lt by done. simpl.
    unfold cell in Hcell.
    destruct (positionMap (paintAll rawRegions n) !! i) as [l|]; [|done].
    destruct (priorityMap (paintAll rawRegions n) !! i) as [p|]; [|done].
    by injection Hcell as <-.
  - rewrite list_lookup_fmap, lookup_seq_ge by lia. simpl.
    apply lookup_ge_None. lia.
Qed.

(** The early return of [resolveOverlaps] is a shortcut. *)
Lemma resolveOverlaps_general rawRegions n :
  resolveOverlaps rawRegions n = mergeRuns (positionMap (paintAll rawRegions n)) n.
Proof.
  unfold resolveOverlaps.
  destruct (decide (rawRegions = [])) as [->|Hne].
  - rewrite bool_decide_eq_true_2 by done. simpl. by rewrite mergeRuns_none.
  - rewrite (bool_decide_eq_false_2 (rawRegions = [])) by done. simpl.
    case_bool_decide as Hn; [|done]. subst n. done.
Qed.

Lemma resolveOverlaps_ext rs rs' n :
  (∀ i : nat, (i < n)%nat → (cellAfter rs (Z.of_nat i)).1 = (cellAfter rs' (Z.of_nat i)).1) →
  resolveOverlaps rs n = resolveOverlaps rs' n.
Proof.
  intros Hext. rewrite !resolveOverlaps_general, !paintAll_positionMap.
  f_equal. apply list_eq. intros i. rewrite !list_lookup_fmap.
  destruct (seq 0 n !! i) as [j|] eqn:Hj; [|done]. simpl.
  apply lookup_seq in Hj as [-> Hlt]. by rewrite Hext.
Qed.

Lemma layerPriorities_positive rs : layerPriorities rs → positivePriorities rs.
Proof.
  intros Hwell. eapply Forall_impl; [exact Hwell|].
  intros r Hr. simpl in Hr. rewrite Hr. destruct (layer r); simpl; lia.
Qed.

(** For candidates that carry the priority of their layer, the recorded
    layer of an offset is the layer of greatest priority among the
    candidates that cover it, whatever their order. *)
Lemma cellAfter_top rs i l :
  layerPriorities rs →
  (cellAfter rs i).1 = Some l
  ↔ (∃ r, r ∈ rs ∧ covers r i ∧ layer r = l)
    ∧ ∀ r', r' ∈ rs → covers r' i → PRIORITY (layer r') ≤ PRIORITY l.
Proof.
  intros Hwell. pose proof (layerPriorities_positive _ Hwell) as Hpos.
  unfold layerPriorities in Hwell. rewrite Forall_forall in Hwell.
  destruct (cellAfter_spec rs i Hpos) as [[-> Hnone]|(k & r & (Hk & Hc & Hmax & _) & ->)];
    simpl.
  - split; [done|]. intros [(r & Hr & Hc & _) _]. by destruct (Hnone r).
  - assert (r ∈ rs) as Hr by (by eapply list_elem_of_lookup_2).
    split.
    + intros [= <-]. split; [by exists r|].
      intros r' Hr' Hc'. specialize (Hmax r' Hr' Hc').
      by rewrite (Hwell r Hr), (Hwell r' Hr') in Hmax.
    + intros [(r0 & Hr0 & Hc0 & <-) Htop]. f_equal. apply PRIORITY_inj.
      specialize (Hmax r0 Hr0 Hc0). specialize (Htop r Hr Hc).
      rewrite (Hwell r Hr), (Hwell r0 Hr0) in Hmax. lia.
Qed.

Lemma cellAfter_none rs i :
  positivePriorities rs →
  (cellAfter rs i).1 = None ↔ ∀ r, r ∈ rs → ¬ covers r i.
Proof.
  intros Hpos.
  destruct (cellAfter_spec rs i Hpos) as [[-> Hnone]|(k & r & (Hk & Hc & _) & ->)];
    simpl; [done|].
  split; [done|]. intros Hnone. destruct (Hnone r); [by eapply list_elem_of_lookup_2|done].
Qed.

Lemma ordered_far bound out d : ∀ k a b,
  withinBound bound out → ordered out →
  out !! k = Some a → out !! (k + S d)%nat = Some b →
  region_end a ≤ region_start b.
Proof.
  induction d as [|d IH]; intros k a b Hbound Hord Ha Hb.
  - replace (k + 1)%nat with (S k) in Hb by lia. by eapply Hord.
  - assert (is_Some (out !! (k + S d)%nat)) as [m Hm].
    { apply lookup_lt_is_Some. apply lookup_lt_Some in Hb. lia. }
    pose proof (IH k a m Hbound Hord Ha Hm).
    replace (k + S (S d))%nat with (S (k + S d)) in Hb by lia.
    pose proof (Hord _ _ _ Hm Hb).
    pose proof (Hbound m ltac:(by eapply list_elem_of_lookup_2)). lia.
Qed.

Lemma inside_iff r p : inside r p = true ↔ region_start r ≤ p < region_end r.
Proof. unfold inside. rewrite andb_true_iff, !bool_decide_eq_true. done. Qed.

(** In an ordered output, a position lies in at most one region. *)
Lemma inside_unique bound out k1 k2 a1 a2 p :
  withinBound bound out → ordered out →
  out !! k1 = Some a1 → out !! k2 = Some a2 →
  inside a1 p = true → inside a2 p = true → k1 = k2.
Proof.
  intros Hbound Hord H1 H2 Hi1%inside_iff Hi2%inside_iff.
  destruct (Nat.lt_trichotomy k1 k2) as [Hlt|[?|Hgt]]; [|done|].
  - pose proof (ordered_far bound out (k2 - k1 - 1) k1 a1 a2 Hbound Hord H1) as H.
    replace (k1 + S (k2 - k1 - 1))%nat with k2 in H by lia. specialize (H H2). lia.
  - pose proof (ordered_far bound out (k1 - k2 - 1) k2 a2 a1 Hbound Hord H2) as H.
    replace (k2 + S (k1 - k2 - 1))%nat with k1 in H by lia. specialize (H H1). lia.
Qed.

Lemma getLayerAt_Some out p l :
  getLayerAt out p = Some l ↔
  ∃ k a, out !! k = Some a ∧ inside a p = true ∧ region_layer a = l
         ∧ ∀ k' a', (k' < k)%nat → out !! k' = Some a' → inside a' p = false.
Proof.
  unfold getLayerAt. revert l. induction out as [|r out IH]; intros l; simpl.
  - split; [done|]. intros (k & a & Hk & _). by rewrite lookup_nil in Hk.
  - fold (inside r p). destruct (inside r p) eqn:Hr; simpl.
    + split.
      * intros [= <-]. exists 0%nat, r. repeat split; try done. intros; lia.
      * intros ([|k] & a & Hk & Hin & <- & Hfirst); simpl in Hk.
        -- by injection Hk as <-.
        -- specialize (Hfirst 0%nat r ltac:(lia) eq_refl). congruence.
    + rewrite IH. split.
      * intros (k & a & Hk & Hin & Hl & Hfirst). exists (S k), a.
        repeat split; try done. intros [|k'] a' Hlt Hk'; simpl in Hk'.
        -- by injection Hk' as <-.
        -- apply (Hfirst k'); [lia|done].
      * intros ([|k] & a & Hk & Hin & Hl & Hfirst); simpl in Hk.
        -- injection Hk as <-. congruence.
        -- exists k, a. repeat split; try done. intros k' a' Hlt Hk'.
           apply (Hfirst (S k')); [lia|done].
Qed.

Lemma getLayerAt_None out p :
  getLayerAt out p = None ↔ ∀ a, a ∈ out → inside a p = false.
Proof.
  unfold getLayerAt. induction out as [|r out IH]; simpl.
  - split; [|done]. by intros _ a ?%elem_of_nil.
  - fold (inside r p). destruct (inside r p) eqn:Hr; simpl.
    + split; [done|]. intros H. specialize (H r ltac:(apply elem_of_cons; by left)).
      congruence.
    + rewrite IH. split.
      * intros H a [->|?]%elem_of_cons; [done|by apply H].
      * intros H a Ha. apply H, elem_of_cons. by right.
Qed.

(** In an ordered output, the layer found at a position is that of any
    region that contains it. *)
Lemma getLayerAt_inside bound out a p :
  withinBound bound out → ordered out →
  a ∈ out → inside a p = true → getLayerAt out p = Some (region_layer a).
Proof.
  intros Hbound Hord [k Hk]%list_elem_of_lookup Hin.
  apply getLayerAt_Some. exists k, a. repeat split; try done.
  intros k' a' Hlt Hk'. destruct (inside a' p) eqn:Hin'; [|done].
  pose proof (inside_unique bound out k' k a' a p Hbound Hord Hk' Hk Hin' Hin). lia.
Qed.

Lemma cellAfter_asCandidate bound out i :
  withinBound bound out → ordered out →
  (cellAfter (asCandidate <$> out) i).1 = getLayerAt out i.
Proof.
  intros Hbound Hord.
  assert (layerPriorities (asCandidate <$> out)) as Hwell.
  { apply Forall_fmap, Forall_forall. by intros a _. }
  assert (∀ a, covers (asCandidate a) i ↔ inside a i = true) as Hcov.
  { intros a. by rewrite inside_iff. }
  destruct (getLayerAt out i) as [l|] eqn:Hl.
  - apply cellAfter_top; [done|].
    apply getLayerAt_Some in Hl as (k & a & Hk & Hin & <- & _).
    assert (a ∈ out) as Ha by (by eapply list_elem_of_lookup_2).
    split.
    + exists (asCandidate a). split; [by apply list_elem_of_fmap_2|]. by rewrite Hcov.
    + intros r' [a' [-> Ha']]%list_elem_of_fmap Hc'. apply Hcov in Hc'.
      apply list_elem_of_lookup in Ha' as [k' Hk'].
      rewrite (inside_unique bound out k' k a' a i Hbound Hord Hk' Hk Hc' Hin) in Hk'.
      replace a' with a by congruence. done.
  - apply cellAfter_none; [by apply layerPriorities_positive|].
    intros r [a [-> Ha]]%list_elem_of_fmap Hc. apply Hcov in Hc.
    rewrite getLayerAt_None in Hl. specialize (Hl a Ha). congruence.
Qed.

(** X1.  The order in which the candidates were emitted does not matter to
    the resolver when each candidate carries the priority of its layer: two
    candidate lists that are permutations of each other resolve to the same
    regions. *)
Theorem resolveOverlaps_permutation rs rs' n :
  layerPriorities rs → rs ≡ₚ rs' →
  resolveOverlaps rs n = resolveOverlaps rs' n.
Proof.
  intros Hwell Hperm.
  assert (layerPriorities rs') as Hwell' by (unfold layerPriorities; by rewrite <-Hperm).
  apply resolveOverlaps_ext. intros i Hi.
  destruct ((cellAfter rs (Z.of_nat i)).1) as [l|] eqn:Hl; symmetry.
  - destruct (proj1 (cellAfter_top _ _ _ Hwell) Hl) as [(r & Hr & Hc & Hlayer) Htop].
    apply cellAfter_top; [done|]. split.
    + exists r. by rewrite <-Hperm.
    + intros r' Hr'. apply Htop. by rewrite Hperm.
  - pose proof (proj1 (cellAfter_none _ _ (layerPriorities_positive _ Hwell)) Hl)
      as Hnone.
    apply cellAfter_none; [by apply layerPriorities_positive|].
    intros r Hr. apply Hnone. by rewrite Hperm.
Qed.

Lemma resolveOverlaps_permutation_witness :
  let rs := [mkRawRegion 0 11 javascript 1; mkRawRegion 0 8 react 4] in
  let rs' := [mkRawRegion 0 8 react 4; mkRawRegion 0 11 javascript 1] in
  layerPriorities rs ∧ rs ≡ₚ rs'
  ∧ resolveOverlaps rs 11 = resolveOverlaps rs' 11.
Proof.
  cbv zeta.
  assert (layerPriorities [mkRawRegion 0 11 javascript 1; mkRawRegion 0 8 react 4])
    as Hwell by (repeat constructor).
  assert ([mkRawRegion 0 11 javascript 1; mkRawRegion 0 8 react 4]
          ≡ₚ [mkRawRegion 0 8 react 4; mkRawRegion 0 11 javascript 1]) as Hperm
    by apply Permutation_swap.
  split; [exact Hwell|]. split; [exact Hperm|].
  exact (resolveOverlaps_permutation _ _ 11%nat Hwell Hperm).
Defined.

(** X2.  Resolving is idempotent: the regions of an output, taken as
    candidates again, resolve to that same output. *)
Theorem resolveOverlaps_idempotent rs n :
  resolveOverlaps (asCandidate <$> resolveOverlaps rs n) n = resolveOverlaps rs n.
Proof.
  destruct (resolveOverlaps_shape rs n) as (Hbound & Hord & _).
  apply resolveOverlaps_ext. intros i Hi.
  rewrite (cellAfter_asCandidate _ _ _ Hbound Hord).
  by apply resolveOverlaps_layer.
Qed.

(** X3.  For candidates of positive priority, the output is empty exactly
    when no candidate covers an offset of the document. *)
Theorem resolveOverlaps_empty_iff rs n :
  positivePriorities rs →
  resolveOverlaps rs n = [] ↔ ∀ i : nat, (i < n)%nat → ∀ r, r ∈ rs → ¬ covers r (Z.of_nat i).
Proof.
  intros Hpos. split.
  - intros Hempty i Hi. apply cellAfter_none; [done|].
    rewrite <-(resolveOverlaps_layer rs n) by done. by rewrite Hempty.
  - intros Hnone. destruct (resolveOverlaps rs n) as [|a out] eqn:Hout; [done|].
    exfalso. destruct (resolveOverlaps_shape rs n) as (Hbound & Hord & _).
    rewrite Hout in Hbound, Hord.
    pose proof (Hbound a ltac:(apply elem_of_cons; by left)) as Ha.
    set (i := Z.to_nat (region_start a)).
    assert (i < n)%nat as Hi by lia.
    pose proof (resolveOverlaps_layer rs n i Hi) as Hlayer.
    rewrite (proj2 (cellAfter_none rs (Z.of_nat i) Hpos) (Hnone i Hi)), Hout in Hlayer.
    rewrite getLayerAt_None in Hlayer.
    specialize (Hlayer a ltac:(apply elem_of_cons; by left)).
    apply not_true_iff_false in Hlayer. apply Hlayer, inside_iff. lia.
Qed.

Lemma resolveOverlaps_empty_iff_witness :
  let rs := [mkRawRegion 5 9 javascript 1; mkRawRegion 3 3 react 4] in
  positivePriorities rs ∧ resolveOverlaps rs 5 = [].
Proof.
  cbv zeta.
  assert (positivePriorities [mkRawRegion 5 9 javascript 1; mkRawRegion 3 3 react 4])
    as Hpos by (repeat constructor).
  split; [exact Hpos|].
  apply (proj2 (resolveOverlaps_empty_iff _ 5%nat Hpos)).
  intros i Hi r Hr [Hlo Hhi].
  apply elem_of_cons in Hr as [->|Hr]; simpl in *; [lia|].
  apply list_elem_of_singleton in Hr as ->. simpl in *. lia.
Defined.

(** X4.  For candidates of positive priority, an offset of the document that
    some candidate covers lies in exactly one region of the output. *)
Theorem resolveOverlaps_covered_once rs n (i : nat) r :
  positivePriorities rs → (i < n)%nat → r ∈ rs → covers r (Z.of_nat i) →
  ∃ a, a ∈ resolveOverlaps rs n ∧ inside a (Z.of_nat i) = true
       ∧ ∀ a', a' ∈ resolveOverlaps rs n → inside a' (Z.of_nat i) = true → a' = a.
Proof.
  intros Hpos Hi Hr Hc.
  destruct (resolveOverlaps_shape rs n) as (Hbound & Hord & _).
  destruct (getLayerAt (resolveOverlaps rs n) (Z.of_nat i)) as [l|] eqn:Hl.
  - apply getLayerAt_Some in Hl as (k & a & Hk & Hin & _).
    exists a. split; [by eapply list_elem_of_lookup_2|]. split; [done|].
    intros a' [k' Hk']%list_elem_of_lookup Hin'.
    rewrite (inside_unique _ _ k' k a' a _ Hbound Hord Hk' Hk Hin' Hin) in Hk'.
    congruence.
  - rewrite resolveOverlaps_layer in Hl by done.
    pose proof (proj1 (cellAfter_none _ _ Hpos) Hl) as Hnone. by destruct (Hnone r).
Qed.

Lemma resolveOverlaps_covered_once_witness :
  let rs := [mkRawRegion 0 11 javascript 1; mkRawRegion 0 8 react 4] in
  positivePriorities rs ∧ (9 < 11)%nat ∧ mkRawRegion 0 11 javascript 1 ∈ rs
  ∧ covers (mkRawRegion 0 11 javascript 1) 9
  ∧ ∃ a, a ∈ resolveOverlaps rs 11 ∧ inside a 9 = true.
Proof.
  cbv zeta.
  assert (positivePriorities [mkRawRegion 0 11 javascript 1; mkRawRegion 0 8 react 4])
    as Hpos by (repeat constructor).
  assert (9 < 11)%nat as Hlt by lia.
  assert (mkRawRegion 0 11 javascript 1
            ∈ [mkRawRegion 0 11 javascript 1; mkRawRegion 0 8 react 4]) as Hin
    by (apply elem_of_cons; by left).
  assert (covers (mkRawRegion 0 11 javascript 1) (Z.of_nat 9)) as Hc
    by (unfold covers; simpl; lia).
  split; [exact Hpos|]. split; [exact Hlt|]. split; [exact Hin|]. split; [exact Hc|].
  destruct (resolveOverlaps_covered_once _ 11%nat 9%nat _ Hpos Hlt Hin Hc)
    as (a & Ha & Hinside & _).
  exists a. split; [exact Ha|exact Hinside].
Defined.

(** X5.  A candidate that covers no offset of the document (empty, reversed,
    or wholly outside it) has no effect on the output, wherever it stands in
    the list. *)
Theorem resolveOverlaps_ignores_outside rs1 r rs2 n :
  (∀ i : nat, (i < n)%nat → ¬ covers r (Z.of_nat i)) →
  resolveOverlaps (rs1 ++ r :: rs2) n = resolveOverlaps (rs1 ++ rs2) n.
Proof.
  intros Hout. apply resolveOverlaps_ext. intros i Hi.
  unfold cellAfter. rewrite !foldl_app. simpl.
  by rewrite decide_False by (by apply Hout).
Qed.

Lemma resolveOverlaps_ignores_outside_witness :
  (∀ i : nat, (i < 4)%nat → ¬ covers (mkRawRegion 4 9 react 4) (Z.of_nat i))
  ∧ resolveOverlaps [mkRawRegion 0 3 jsx 2; mkRawRegion 4 9 react 4] 4
    = resolveOverlaps [mkRawRegion 0 3 jsx 2] 4.
Proof.
  assert (∀ i : nat, (i < 4)%nat → ¬ covers (mkRawRegion 4 9 react 4) (Z.of_nat i))
    as Hout by (intros i Hi [Hlo _]; simpl in Hlo; lia).
  split; [exact Hout|].
  exact (resolveOverlaps_ignores_outside [mkRawRegion 0 3 jsx 2] _ [] 4%nat Hout).
Defined.

(** X6.  One more candidate at the end of the list changes the layer only
    of offsets it covers, and only to its own layer. *)
Theorem resolveOverlaps_append_local rs r n (i : nat) :
  (i < n)%nat →
  let before := getLayerAt (resolveOverlaps rs n) (Z.of_nat i) in
  let after := getLayerAt (resolveOverlaps (rs ++ [r]) n) (Z.of_nat i) in
  (¬ covers r (Z.of_nat i) → after = before)
  ∧ (after = before ∨ after = Some (layer r)).
Proof.
  intros Hi. cbv zeta. rewrite !resolveOverlaps_layer by done.
  unfold cellAfter. rewrite foldl_app. simpl.
  destruct (decide (covers r (Z.of_nat i))) as [Hc|Hc].
  - split; [done|]. unfold paintCell. case_bool_decide; [by right|by left].
  - split; [done|by left].
Qed.

Lemma resolveOverlaps_append_local_witness :
  (2 < 11)%nat
  ∧ getLayerAt (resolveOverlaps ([mkRawRegion 0 11 javascript 1]
                                   ++ [mkRawRegion 4 8 react 4]) 11) 2
    = getLayerAt (resolveOverlaps [mkRawRegion 0 11 javascript 1] 11) 2.
Proof.
  assert (2 < 11)%nat as Hlt by lia.
  split; [exact Hlt|].
  apply (proj1 (resolveOverlaps_append_local [mkRawRegion 0 11 javascript 1]
                  (mkRawRegion 4 8 react 4) 11%nat 2%nat Hlt)).
  intros [Hlo _]. simpl in Hlo. lia.
Defined.

(** X7.  Every region that [classifyDocument] returns is non-empty and lies
    within the document. *)
Theorem classifyDocument_within_document `{ts : Compiler} sourceText r :
  r ∈ classifyDocument sourceText →
  0 ≤ region_start r < region_end r
  ∧ region_end r ≤ Z.of_nat (String.length sourceText).
Proof.
  intros Hr. unfold classifyDocument in Hr.
  destruct (resolveOverlaps_shape (rawRegions (collect sourceText))
              (String.length sourceText)) as (Hbound & _).
  by apply Hbound.
Qed.

Lemma classifyDocument_within_document_witness :
  mkRegion 8 11 javascript ∈ @classifyDocument UseState.compiler UseState.sourceText
  ∧ (0 ≤ 8 < 11 ∧ 11 ≤ 11).
Proof.
  assert (mkRegion 8 11 javascript
            ∈ @classifyDocument UseState.compiler UseState.sourceText) as Hin
    by (apply (list_elem_of_lookup_2 _ 1%nat); vm_compute; reflexivity).
  split; [exact Hin|].
  exact (@classifyDocument_within_document UseState.compiler UseState.sourceText _ Hin).
Defined.

(** ** Region collector *)

(** X8.  Every candidate gathered from a document, by the walk or by the
    comment scanner, is non-empty and carries the priority of its layer. *)
Theorem collect_candidates_wellformed `{ts : Compiler} sourceText r :
  r ∈ rawRegions (collect sourceText) →
  start r < end_ r ∧ priority r = PRIORITY (layer r).
Proof.
  revert r. apply Forall_forall.
  apply (collect_stable
           (λ st, Forall (λ r, start r < end_ r ∧ priority r = PRIORITY (layer r))
                         (rawRegions st))).
  - intros s e l st Hst. unfold addRegion. case_bool_decide; [|done]. simpl.
    apply Forall_app. split; [done|]. by repeat constructor.
  - done.
  - constructor.
Qed.

Lemma collect_candidates_wellformed_witness :
  mkRawRegion 5 10 javascript 1
    ∈ rawRegions (@collect DecoratorComment.compiler DecoratorComment.sourceText)
  ∧ (5 < 10 ∧ 1 = PRIORITY javascript).
Proof.
  assert (mkRawRegion 5 10 javascript 1
            ∈ rawRegions (@collect DecoratorComment.compiler DecoratorComment.sourceText))
    as Hin by (apply (list_elem_of_lookup_2 _ 3%nat); vm_compute; reflexivity).
  split; [exact Hin|].
  exact (@collect_candidates_wellformed DecoratorComment.compiler
           DecoratorComment.sourceText _ Hin).
Defined.

(** X9.  Both walks only ever append: the candidates held before a walk are
    a prefix of those held after it.  [visit] may add enum names and never
    drops one; [visitForComments] leaves the tracked names as they are. *)
Theorem walk_only_extends `{ts : Compiler} sourceText node st :
  (rawRegions st `prefix_of` rawRegions (visit sourceText node st)
   ∧ enumNames st ⊆ enumNames (visit sourceText node st))
  ∧ (rawRegions st `prefix_of` rawRegions (visitForComments sourceText node st)
     ∧ enumNames (visitForComments sourceText node st) = enumNames st).
Proof.
  split.
  - apply (visit_stable
             (λ st', rawRegions st `prefix_of` rawRegions st'
                     ∧ enumNames st ⊆ enumNames st')).
    + intros s e l st' [Hpre Hsub]. unfold addRegion. case_bool_decide; [|done].
      simpl. split; [by apply prefix_app_r|done].
    + intros nm st' [Hpre Hsub]. simpl. split; [done|]. set_solver.
    + done.
  - apply (visitForComments_stable
             (λ st', rawRegions st `prefix_of` rawRegions st'
                     ∧ enumNames st' = enumNames st)).
    + intros s e l st' [Hpre Heq]. unfold addRegion. case_bool_decide; [|done].
      simpl. split; [by apply prefix_app_r|done].
    + done.
Qed.

(** X10.  The names tracked when the walk of a tree ends are exactly the
    names of the enum declarations that the walk visited. *)
Theorem tracked_names_at_end sourceText root nm :
  nm ∈ enumNames (visit sourceText root initialState)
  ↔ ∃ d st name_d, (d, st) ∈ trace sourceText root initialState
                   ∧ kind d = EnumDeclaration ∧ name d = Some name_d
                   ∧ text name_d = nm.
Proof.
  destruct (trace_enums sourceText root initialState) as [Hend _].
  rewrite Hend. simpl. rewrite (left_id_L ∅ (∪)). apply elem_of_declared.
Qed.

Lemma dispatch_pruned sourceText node st :
  pruned node → (dispatch sourceText node st).2 = Return.
Proof.
  intros [Hkind|[Hkind|[Hkind|[Hkind|[Hdeclare [Hkind|[Hkind|Hkind]]]]]]].
  - by rewrite dispatch_Decorator.
  - by decide_kinds Hkind.
  - by rewrite dispatch_EnumDeclaration.
  - decide_kinds Hkind. unfold onJsxClosingElement.
    by destruct (isReactMember (req (tagName node))).
  - decide_kinds Hkind. unfold onVariableStatement. by rewrite Hdeclare.
  - decide_kinds Hkind. unfold onClassDeclaration. by rewrite Hdeclare.
  - decide_kinds Hkind. unfold onFunctionDeclaration. by rewrite Hdeclare.
Qed.

(** X11.  At a decorator, a namespace or enum declaration, a JSX closing
    element, and a [declare] variable statement, class or function, [visit]
    goes no further: it visits the node and nothing below it; and unless the
    node is an enum declaration the tracked names stay as they are. *)
Theorem pruned_subtrees sourceText node st :
  pruned node →
  trace sourceText node st = [(node, st)]
  ∧ (kind node ≠ EnumDeclaration →
     enumNames (visit sourceText node st) = enumNames st).
Proof.
  intros Hpruned. pose proof (dispatch_pruned sourceText node st Hpruned) as Hreturn.
  split.
  - by rewrite trace_unfold, Hreturn.
  - intros Hkind. rewrite visit_unfold, Hreturn. simpl.
    rewrite dispatch_enumNames. unfold enumNameOf, isKind.
    rewrite bool_decide_eq_false_2 by done. by rewrite (right_id_L ∅ (∪)).
Qed.

Lemma pruned_subtrees_witness :
  pruned DecoratorComment.decorator
  ∧ trace DecoratorComment.sourceText DecoratorComment.decorator initialState
    = [(DecoratorComment.decorator, initialState)].
Proof.
  assert (pruned DecoratorComment.decorator) as Hpruned by (left; reflexivity).
  split; [exact Hpruned|].
  exact (proj1 (pruned_subtrees DecoratorComment.sourceText _ initialState Hpruned)).
Defined.

(** *** The comment scanner as a list of candidates *)

Lemma commentCandidates_app cs1 cs2 :
  commentCandidates (cs1 ++ cs2) = commentCandidates cs1 ++ commentCandidates cs2.
Proof. unfold commentCandidates. by rewrite list.filter_app, fmap_app. Qed.

Lemma addComments_spec comments st :
  addComments comments st
  = mkState (rawRegions st ++ commentCandidates comments) (enumNames st).
Proof.
  unfold addComments. revert st.
  induction comments as [|c cs IH]; intros st; simpl.
  - unfold commentCandidates. simpl. rewrite app_nil_r. by destruct st.
  - rewrite IH. unfold addRegion, commentCandidates. rewrite filter_cons.
    case_bool_decide as Hc.
    + rewrite decide_True by done. simpl. by rewrite <-app_assoc.
    + by rewrite decide_False by done.
Qed.

Lemma visitForComments_spec `{ts : Compiler} sourceText node : ∀ st,
  visitForComments sourceText node st
  = mkState (rawRegions st
               ++ commentCandidates (descendants node ≫= commentRangesOf sourceText))
            (enumNames st).
Proof.
  induction node as [node IHfe _ _ _] using Node_descent_ind. intros st.
  assert (visitForComments sourceText node st
          = foldl (λ st child, visitForComments sourceText child st)
                  (addComments (commentRangesOf sourceText node) st)
                  (forEachChild node)) as ->.
  { destruct node; simpl. unfold commentRangesOf. simpl.
    f_equal. unfold addComments. rewrite foldl_app. by case_bool_decide. }
  assert (descendants node ≫= commentRangesOf sourceText
          = commentRangesOf sourceText node
              ++ ((forEachChild node ≫= descendants) ≫= commentRangesOf sourceText)) as ->.
  { by destruct node. }
  rewrite commentCandidates_app, addComments_spec.
  generalize (commentCandidates (commentRangesOf sourceText node)) as own.
  intros own. rewrite app_assoc.
  generalize (rawRegions st ++ own) as acc. generalize (enumNames st) as names.
  clear st own. induction IHfe as [|c rest Hc _ IH]; intros names acc; simpl.
  - unfold commentCandidates. simpl. by rewrite app_nil_r.
  - rewrite Hc. simpl.
    rewrite IH. f_equal. rewrite <-app_assoc. f_equal.
    change (flat_map descendants (c :: rest))
      with (descendants c ++ (rest ≫= descendants)).
    by rewrite bind_app, commentCandidates_app.
Qed.

(** X12.  The candidates of a document are those of the walk followed by
    one base-layer candidate for every non-empty comment range around every
    node of the tree, taken in document order of the nodes, the leading
    ranges of a node (looked up only when the node has leading trivia) before
    its trailing ones.  The comment scanner tracks no name. *)
Theorem collect_walk_then_comments `{ts : Compiler} sourceText :
  let sourceFile := createSourceFile sourceText in
  let walked := visit sourceText sourceFile initialState in
  rawRegions (collect sourceText)
  = rawRegions walked
      ++ commentCandidates (descendants sourceFile ≫= commentRangesOf sourceText)
  ∧ enumNames (collect sourceText) = enumNames walked.
Proof.
  cbv zeta. unfold collect, collectComments. by rewrite visitForComments_spec.
Qed.

(** X13.  When [findTypeParameterListRange] returns a range, the range lies
    within the text, starts at a ['<'] and ends just after a ['>'], the two
    match (the nesting depth is positive strictly between them and zero at
    the ['>']), and the ['<'] is the nearest one before the first type
    parameter. *)
Theorem type_parameter_range_wellformed typeParameters sourceText lo hi :
  findTypeParameterListRange typeParameters sourceText = Some (lo, hi) →
  (0 ≤ lo < hi ∧ hi ≤ textLen sourceText)
  ∧ charAt sourceText lo = Some "<"%char
  ∧ charAt sourceText (hi - 1) = Some ">"%char
  ∧ depthAfter sourceText lo (hi - 1) = 0
  ∧ (∀ p, lo < p < hi - 1 → 0 < depthAfter sourceText lo p)
  ∧ ∃ firstParam, head typeParameters = Some firstParam
                  ∧ lo < getStart firstParam
                  ∧ ∀ j, lo < j < getStart firstParam →
                         charAt sourceText j ≠ Some "<"%char.
Proof.
  unfold findTypeParameterListRange.
  destruct typeParameters as [|firstParam rest]; [done|].
  case_bool_decide as Hopen; [done|]. case_bool_decide as Hclose; [done|].
  intros [= <- <-].
  destruct (findOpeningBracket_spec sourceText (getStart firstParam - 1))
    as [[? _]|(Hrange & Hlt & Hnear)]; [done|].
  destruct (findMatchingCloseBracket_spec sourceText
              (findOpeningBracket sourceText (getStart firstParam - 1)))
    as [[? _]|(Hbetween & Hgt & Hzero & Hpos)]; [done|].
  simpl in *.
  set (lo := findOpeningBracket sourceText (getStart firstParam - 1)) in *.
  set (close := findMatchingCloseBracket sourceText lo) in *.
  replace (close + 1 - 1) with close by lia.
  split; [lia|]. split; [done|]. split; [done|]. split; [done|].
  split; [intros p Hp; apply Hpos; lia|].
  exists firstParam. split; [done|]. split; [lia|].
  intros j Hj. apply Hnear. lia.
Qed.

Lemma type_parameter_range_wellformed_witness :
  let text := "function f<T extends Map<K, V>, K, V>() {}" in
  let params := [leaf TypeParameter 11 11 30] in
  findTypeParameterListRange params text = Some (10, 37)
  ∧ charAt text 10 = Some "<"%char ∧ charAt text (37 - 1) = Some ">"%char.
Proof.
  cbv zeta.
  assert (findTypeParameterListRange [leaf TypeParameter 11 11 30]
            "function f<T extends Map<K, V>, K, V>() {}" = Some (10, 37)) as Hrange
    by (vm_compute; reflexivity).
  split; [exact Hrange|].
  destruct (type_parameter_range_wellformed _ _ _ _ Hrange) as (_ & Hopen & Hclose & _).
  split; [exact Hopen|exact Hclose].
Defined.

(** *** The spread attribute *)

Lemma skipWhiteSpace_spec sourceText steps spreadStart end_ :
  let r := skipWhiteSpace sourceText steps spreadStart end_ in
  spreadStart ≤ r
  ∧ (r ≤ end_ ∨ r = spreadStart)
  ∧ ∀ p, spreadStart ≤ p < r → isWhiteSpaceAt sourceText p = true.
Proof.
  revert spreadStart. induction steps as [|steps IH]; intros spreadStart; simpl.
  - repeat split; [lia|by right|lia].
  - destruct (bool_decide (spreadStart < end_) && isWhiteSpaceAt sourceText spreadStart)
      eqn:Hguard.
    + apply andb_true_iff in Hguard as [Hlt Hws]. apply bool_decide_eq_true in Hlt.
      destruct (IH (spreadStart + 1)) as (Hle & Hend & Hall).
      repeat split; [lia|left; lia|].
      intros p Hp. destruct (decide (p = spreadStart)) as [->|Hne]; [done|].
      apply Hall. lia.
    + repeat split; [lia|by right|lia].
Qed.

(** X15.  The rule of a JSX spread attribute skips the white space after the
    opening brace, never past the end of the node, and passes two spans of
    the markup layer to [addRegion]: from the start of the node to three
    characters after the first offset that is not white space (or after the
    end of the node, when only white space follows), and the last character
    of the node; then every child is visited. *)
Theorem spread_attribute_scan sourceText node st :
  let start := getStart node in
  let end_ := getEnd node in
  ∃ spreadStart,
    start + 1 ≤ spreadStart
    ∧ (spreadStart ≤ end_ ∨ spreadStart = start + 1)
    ∧ (∀ p, start + 1 ≤ p < spreadStart → isWhiteSpaceAt sourceText p = true)
    ∧ (spreadStart < end_ → isWhiteSpaceAt sourceText spreadStart = false)
    ∧ onJsxSpreadAttribute sourceText node st
      = (addRegion (end_ - 1) end_ jsx (addRegion start (spreadStart + 3) jsx st),
         ForEachChild).
Proof.
  intros start end_. unfold onJsxSpreadAttribute. cbv zeta. fold start end_.
  set (r := skipWhiteSpace sourceText _ (start + 1) end_).
  exists r.
  destruct (skipWhiteSpace_spec sourceText (Z.to_nat (end_ - (start + 1))) (start + 1) end_)
    as (Hle & Hend & Hall).
  pose proof (skipWhiteSpace_steps sourceText (Z.to_nat (end_ - (start + 1))) (start + 1)
                end_ ltac:(lia)) as Hstop.
  fold r in Hle, Hend, Hall, Hstop. cbv zeta in Hstop.
  repeat split; try done.
  intros Hlt. rewrite bool_decide_eq_true_2 in Hstop by done. done.
Qed.

(** *** Candidates gathered earlier do not matter to a walk *)

Section Shift.

Variable pre : list RawRegion.

Lemma enumNames_shift st : enumNames (shift pre st) = enumNames st.
Proof. done. Qed.

Lemma addRegion_shift s e l st :
  addRegion s e l (shift pre st) = shift pre (addRegion s e l st).
Proof.
  unfold addRegion, shift. case_bool_decide; [|done]. simpl. by rewrite app_assoc.
Qed.

Lemma addSpan_shift node l st :
  addSpan node l (shift pre st) = shift pre (addSpan node l st).
Proof. apply addRegion_shift. Qed.

Lemma foldl_shift {A} (f : State → A → State) l st :
  (∀ st a, f (shift pre st) a = shift pre (f st a)) →
  foldl f (shift pre st) l = shift pre (foldl f st l).
Proof.
  intros Hf. revert st. induction l as [|a l IH]; intros st; simpl; [done|].
  by rewrite Hf, IH.
Qed.

Ltac shift_step :=
  first
    [ rewrite addRegion_shift
    | rewrite addSpan_shift
    | rewrite enumNames_shift
    | (apply foldl_shift; intros)
    | match goal with
      | |- context [if ?b then _ else _] => destruct b
      | |- context [match ?x with _ => _ end] => destruct x
      end
    | reflexivity ].

Ltac shift_tac := cbv zeta; repeat shift_step.

Lemma addTypeParametersRegion_shift tps sourceText st :
  addTypeParametersRegion tps sourceText (shift pre st)
  = shift pre (addTypeParametersRegion tps sourceText st).
Proof. unfold addTypeParametersRegion. shift_tac. Qed.

Lemma addTypeArgumentsRegion_shift args sourceText st :
  addTypeArgumentsRegion args sourceText (shift pre st)
  = shift pre (addTypeArgumentsRegion args sourceText st).
Proof. unfold addTypeArgumentsRegion. shift_tac. Qed.

Lemma addModifierRegions_shift kinds node st :
  addModifierRegions kinds node (shift pre st)
  = shift pre (addModifierRegions kinds node st).
Proof. unfold addModifierRegions. shift_tac. Qed.

Lemma addReturnTypeRegion_shift node st :
  addReturnTypeRegion node (shift pre st) = shift pre (addReturnTypeRegion node st).
Proof. unfold addReturnTypeRegion. shift_tac. Qed.

Lemma addAnnotationRegion_shift node st :
  addAnnotationRegion node (shift pre st) = shift pre (addAnnotationRegion node st).
Proof. unfold addAnnotationRegion. shift_tac. Qed.

Lemma addReactSpecifiers_shift specifiers st :
  addReactSpecifiers specifiers (shift pre st)
  = shift pre (addReactSpecifiers specifiers st).
Proof. unfold addReactSpecifiers. shift_tac. Qed.

Lemma addTypeOnlySpecifiers_shift specifiers st :
  addTypeOnlySpecifiers specifiers (shift pre st)
  = shift pre (addTypeOnlySpecifiers specifiers st).
Proof. unfold addTypeOnlySpecifiers. shift_tac. Qed.


Ltac shift_rule :=
  cbv zeta;
  repeat first
    [ rewrite addRegion_shift
    | rewrite addSpan_shift
    | rewrite enumNames_shift
    | rewrite addTypeParametersRegion_shift
    | rewrite addTypeArgumentsRegion_shift
    | rewrite addModifierRegions_shift
    | rewrite addReturnTypeRegion_shift
    | rewrite addAnnotationRegion_shift
    | rewrite addReactSpecifiers_shift
    | rewrite addTypeOnlySpecifiers_shift
    | match goal with
      | |- foldl _ (shift pre _) _ = shift pre (foldl _ _ _) =>
          apply foldl_shift; intros
      | |- context [foldl ?f (shift pre ?st) ?l] =>
          rewrite (foldl_shift f l st) by (intros; shift_rule)
      | |- context [if ?b then _ else _] => destruct b
      | |- context [match ?x with _ => _ end] => destruct x
      end
    | progress cbn [fst snd]
    | reflexivity ].

Lemma onMisparsedGenericArrow_shift node st :
  onMisparsedGenericArrow node (shift pre st) = (shift pre (onMisparsedGenericArrow node st).1, (onMisparsedGenericArrow node st).2).
Proof. unfold onMisparsedGenericArrow. shift_rule. Qed.

Lemma onJsxTag_shift sourceText closeWidth node st :
  onJsxTag sourceText closeWidth node (shift pre st)
  = (shift pre (onJsxTag sourceText closeWidth node st).1,
     (onJsxTag sourceText closeWidth node st).2).
Proof. unfold onJsxTag. shift_rule. Qed.

Lemma onJsxClosingElement_shift node st :
  onJsxClosingElement node (shift pre st) = (shift pre (onJsxClosingElement node st).1, (onJsxClosingElement node st).2).
Proof. unfold onJsxClosingElement. shift_rule. Qed.

Lemma onJsxExpression_shift sourceText node st :
  onJsxExpression sourceText node (shift pre st)
  = (shift pre (onJsxExpression sourceText node st).1, (onJsxExpression sourceText node st).2).
Proof. unfold onJsxExpression. shift_rule. Qed.

Lemma onJsxSpreadAttribute_shift sourceText node st :
  onJsxSpreadAttribute sourceText node (shift pre st)
  = (shift pre (onJsxSpreadAttribute sourceText node st).1, (onJsxSpreadAttribute sourceText node st).2).
Proof. unfold onJsxSpreadAttribute. shift_rule. Qed.

Lemma onJsxAttribute_shift node st :
  onJsxAttribute node (shift pre st) = (shift pre (onJsxAttribute node st).1, (onJsxAttribute node st).2).
Proof. unfold onJsxAttribute. shift_rule. Qed.

Lemma onDirective_shift node st :
  onDirective node (shift pre st) = (shift pre (onDirective node st).1, (onDirective node st).2).
Proof. unfold onDirective. shift_rule. Qed.

Lemma onVariableStatement_shift node st :
  onVariableStatement node (shift pre st) = (shift pre (onVariableStatement node st).1, (onVariableStatement node st).2).
Proof. unfold onVariableStatement. shift_rule. Qed.

Lemma onEnumDeclaration_shift node st :
  onEnumDeclaration node (shift pre st) = (shift pre (onEnumDeclaration node st).1, (onEnumDeclaration node st).2).
Proof.
  unfold onEnumDeclaration. cbv zeta. destruct (name node) as [nm|].
  - change (mkState (rawRegions (shift pre st)) ({[ text nm ]} ∪ enumNames (shift pre st)))
      with (shift pre (mkState (rawRegions st) ({[ text nm ]} ∪ enumNames st))).
    by rewrite addSpan_shift.
  - by rewrite addSpan_shift.
Qed.

Lemma onExpressionWithTypeArguments_shift sourceText node st :
  onExpressionWithTypeArguments sourceText node (shift pre st)
  = (shift pre (onExpressionWithTypeArguments sourceText node st).1, (onExpressionWithTypeArguments sourceText node st).2).
Proof. unfold onExpressionWithTypeArguments. shift_rule. Qed.

Lemma onClassDeclaration_shift sourceText node st :
  onClassDeclaration sourceText node (shift pre st)
  = (shift pre (onClassDeclaration sourceText node st).1, (onClassDeclaration sourceText node st).2).
Proof. unfold onClassDeclaration. shift_rule. Qed.

Lemma onAsOrSatisfies_shift node st :
  onAsOrSatisfies node (shift pre st) = (shift pre (onAsOrSatisfies node st).1, (onAsOrSatisfies node st).2).
Proof. unfold onAsOrSatisfies. shift_rule. Qed.

Lemma onTypeAssertion_shift node st :
  onTypeAssertion node (shift pre st) = (shift pre (onTypeAssertion node st).1, (onTypeAssertion node st).2).
Proof. unfold onTypeAssertion. shift_rule. Qed.

Lemma onNonNull_shift node st :
  onNonNull node (shift pre st) = (shift pre (onNonNull node st).1, (onNonNull node st).2).
Proof. unfold onNonNull. shift_rule. Qed.

Lemma onParameter_shift node st :
  onParameter node (shift pre st) = (shift pre (onParameter node st).1, (onParameter node st).2).
Proof. unfold onParameter. shift_rule. Qed.

Lemma onPropertyDeclaration_shift node st :
  onPropertyDeclaration node (shift pre st) = (shift pre (onPropertyDeclaration node st).1, (onPropertyDeclaration node st).2).
Proof. unfold onPropertyDeclaration. shift_rule. Qed.

Lemma onFunctionDeclaration_shift sourceText node st :
  onFunctionDeclaration sourceText node (shift pre st)
  = (shift pre (onFunctionDeclaration sourceText node st).1, (onFunctionDeclaration sourceText node st).2).
Proof. unfold onFunctionDeclaration. shift_rule. Qed.

Lemma onMethodDeclaration_shift sourceText node st :
  onMethodDeclaration sourceText node (shift pre st)
  = (shift pre (onMethodDeclaration sourceText node st).1, (onMethodDeclaration sourceText node st).2).
Proof. unfold onMethodDeclaration. shift_rule. Qed.

Lemma onFunctionLike_shift sourceText node st :
  onFunctionLike sourceText node (shift pre st)
  = (shift pre (onFunctionLike sourceText node st).1, (onFunctionLike sourceText node st).2).
Proof. unfold onFunctionLike. shift_rule. Qed.

Lemma onImportDeclaration_shift node st :
  onImportDeclaration node (shift pre st) = (shift pre (onImportDeclaration node st).1, (onImportDeclaration node st).2).
Proof.
  unfold onImportDeclaration. cbv zeta. destruct (from_option isTypeOnly false (importClause node)); cbn [fst snd].
  - by rewrite addSpan_shift, addReactSpecifiers_shift.
  - by rewrite addSpan_shift, addTypeOnlySpecifiers_shift.
Qed.

Lemma onExportDeclaration_shift node st :
  onExportDeclaration node (shift pre st) = (shift pre (onExportDeclaration node st).1, (onExportDeclaration node st).2).
Proof.
  unfold onExportDeclaration. cbv zeta. destruct (isTypeOnly node); cbn [fst snd].
  - by rewrite addSpan_shift, addReactSpecifiers_shift.
  - by rewrite addSpan_shift, addTypeOnlySpecifiers_shift.
Qed.

Lemma onCreateElement_shift sourceText node st :
  onCreateElement sourceText node (shift pre st)
  = (shift pre (onCreateElement sourceText node st).1, (onCreateElement sourceText node st).2).
Proof. unfold onCreateElement. shift_rule. Qed.

Lemma onCallExpression_shift sourceText node st :
  onCallExpression sourceText node (shift pre st)
  = (shift pre (onCallExpression sourceText node st).1,
     (onCallExpression sourceText node st).2).
Proof.
  unfold onCallExpression. cbv zeta. rewrite addTypeArgumentsRegion_shift.
  repeat match goal with
         | |- context [if ?b then _ else _] => destruct b
         end;
    rewrite ?onCreateElement_shift; shift_rule.
Qed.

Lemma onNewExpression_shift sourceText node st :
  onNewExpression sourceText node (shift pre st)
  = (shift pre (onNewExpression sourceText node st).1, (onNewExpression sourceText node st).2).
Proof. unfold onNewExpression. shift_rule. Qed.

Lemma onOtherNode_shift sourceText node st :
  onOtherNode sourceText node (shift pre st)
  = (shift pre (onOtherNode sourceText node st).1, (onOtherNode sourceText node st).2).
Proof. unfold onOtherNode. shift_rule. Qed.

Lemma dispatch_shift sourceText node st :
  dispatch sourceText node (shift pre st)
  = (shift pre (dispatch sourceText node st).1, (dispatch sourceText node st).2).
Proof.
  unfold dispatch.
  change (isEnumAccess node (shift pre st)) with (isEnumAccess node st).
  repeat match goal with
         | |- context [if ?b then _ else _] => destruct b
         end;
    first [ apply onMisparsedGenericArrow_shift | apply onJsxTag_shift
          | apply onJsxClosingElement_shift | apply onJsxExpression_shift
          | apply onJsxSpreadAttribute_shift | apply onJsxAttribute_shift
          | apply onDirective_shift | apply onVariableStatement_shift
          | apply onEnumDeclaration_shift | apply onExpressionWithTypeArguments_shift
          | apply onClassDeclaration_shift | apply onAsOrSatisfies_shift
          | apply onTypeAssertion_shift | apply onNonNull_shift
          | apply onParameter_shift | apply onPropertyDeclaration_shift
          | apply onFunctionDeclaration_shift | apply onMethodDeclaration_shift
          | apply onFunctionLike_shift | apply onImportDeclaration_shift
          | apply onExportDeclaration_shift | apply onCallExpression_shift
          | apply onNewExpression_shift | apply onOtherNode_shift
          | (cbn [fst snd]; rewrite ?addSpan_shift, ?addReturnTypeRegion_shift,
               ?addAnnotationRegion_shift; reflexivity) ].
Qed.

Lemma visit_shift sourceText node : ∀ st,
  visit sourceText node (shift pre st) = shift pre (visit sourceText node st).
Proof.
  induction node as [node IHfe IHch IHex IHini] using Node_descent_ind.
  intros st. rewrite !visit_unfold, dispatch_shift. cbn [fst snd].
  pose proof (descentNodes_ind_step _ node (dispatch sourceText node st).2
                IHfe IHch IHex IHini) as Hall.
  revert Hall. generalize (dispatch sourceText node st).1.
  generalize (descentNodes node (dispatch sourceText node st).2).
  clear. intros l. unfold visitAll.
  induction l as [|c l IH]; intros st Hall; simpl; [done|].
  apply Forall_cons in Hall as [Hc Hl]. rewrite Hc. by apply IH.
Qed.

End Shift.

(** X14.  What a walk appends does not depend on the candidates gathered
    before it: the candidates after the walk are those before it followed
    by the candidates of the same walk started from the same tracked names
    and no candidate, and the tracked names are those of that walk. *)
Theorem visit_frame sourceText node st :
  let alone := visit sourceText node (mkState [] (enumNames st)) in
  rawRegions (visit sourceText node st) = rawRegions st ++ rawRegions alone
  ∧ enumNames (visit sourceText node st) = enumNames alone.
Proof.
  intros alone.
  assert (st = shift (rawRegions st) (mkState [] (enumNames st))) as Hst.
  { destruct st as [rs es]. unfold shift. simpl. by rewrite app_nil_r. }
  rewrite Hst at 1 3. rewrite visit_shift. done.
Qed.

(** ** Decorations *)

Section DecoratorProperties.
Context {Position DecorationType : Type}.
Implicit Types (editor : TextEditor Position) (regions : list ClassifiedRegion).
Implicit Types (decorationTypes : DecorationTypes DecorationType).

Lemma groupByLayer_snoc editor regions region :
  groupByLayer editor (regions ++ [region])
  = pushRange (region_layer region) (rangeOf editor region) (groupByLayer editor regions).
Proof. unfold groupByLayer. by rewrite foldl_app. Qed.

Lemma groupByLayer_spec editor regions layer :
  groupByLayer editor regions layer = rangesOfLayer editor regions layer.
Proof.
  unfold rangesOfLayer.
  induction regions as [|region regions IH] using rev_ind; [done|].
  rewrite groupByLayer_snoc, list.filter_app, fmap_app. unfold pushRange.
  destruct (decide (layer = region_layer region)) as [->|Hne].
  - rewrite IH. f_equal. by rewrite filter_cons_True.
  - rewrite IH. rewrite filter_cons_False by done. simpl. by rewrite app_nil_r.
Qed.

Lemma filter_layers_permutation regions :
  layerKeys ≫= (λ layer, filter (λ r, region_layer r = layer) regions) ≡ₚ regions.
Proof.
  induction regions as [|r regions IH]; [done|].
  unfold layerKeys in *. cbn [mbind list_bind] in *. rewrite !app_nil_r in *.
  revert IH.
  destruct r as [s e []];
    rewrite !filter_cons; cbn [region_layer];
    repeat (case_decide; [try done|try done]);
    generalize (filter (λ r, region_layer r = javascript) regions);
    generalize (filter (λ r, region_layer r = typescript) regions);
    generalize (filter (λ r, region_layer r = jsx) regions);
    generalize (filter (λ r, region_layer r = react) regions);
    intros D C B A IH.
  - simpl. by constructor.
  - simpl. rewrite <-Permutation_middle. by constructor.
  - simpl. rewrite (assoc_L (++) A B), <-Permutation_middle, <-(assoc_L (++)).
    by constructor.
  - simpl. rewrite (assoc_L (++) B C), (assoc_L (++) A), <-Permutation_middle,
      <-!(assoc_L (++)). by constructor.
Qed.

(** X16.  [applyDecorations] makes four calls of [setDecorations] on the
    editor, one per layer in the order of the keys, each with the decoration
    type of the layer and the ranges of the regions of that layer, in the
    order of the regions. *)
Theorem applyDecorations_groups editor regions decorationTypes :
  applyDecorations editor regions decorationTypes
  = (λ layer, setDecorations editor (decorationTypes layer)
                (rangesOfLayer editor regions layer)) <$> layerKeys.
Proof.
  unfold applyDecorations. apply list_fmap_ext. intros _ layer _.
  by rewrite groupByLayer_spec.
Qed.

(** X17.  [applyDecorations] hands every region to the editor exactly once:
    the ranges of its four calls together are the ranges of the regions, up
    to order. *)
Theorem applyDecorations_each_region_once editor regions decorationTypes :
  applyDecorations editor regions decorationTypes ≫= call_ranges
  ≡ₚ rangeOf editor <$> regions.
Proof.
  rewrite <-(filter_layers_permutation regions) at 2.
  unfold applyDecorations, layerKeys. cbn [fmap list_fmap mbind list_bind call_ranges].
  rewrite !groupByLayer_spec, !app_nil_r, !fmap_app. done.
Qed.

(** X18.  Whatever range [updateDecorations] hands to the editor, the file
    name of the document ends in [.tsx] or [.jsx], the call is made on the
    active editor, and the range is that of a region of the classified
    document, non-empty and within the document, under the decoration type
    of the layer of that region. *)
Theorem updateDecorations_ranges `{ts : Compiler} editor decorationTypes c range :
  c ∈ updateDecorations (Some editor) decorationTypes →
  range ∈ call_ranges c →
  isTsxOrJsx (fileName (document editor)) = true
  ∧ call_editor c = editor
  ∧ ∃ r, r ∈ classifyDocument (documentText (document editor))
         ∧ call_type c = decorationTypes (region_layer r)
         ∧ range = rangeOf editor r
         ∧ 0 ≤ region_start r < region_end r
         ∧ region_end r ≤ Z.of_nat (String.length (documentText (document editor))).
Proof.
  unfold updateDecorations.
  destruct (isTsxOrJsx _); simpl; [|by intros ?%elem_of_nil].
  intros Hc Hrange. split; [done|].
  unfold applyDecorations in Hc.
  apply list_elem_of_fmap in Hc as (layer & -> & _). simpl in *.
  split; [done|].
  rewrite groupByLayer_spec in Hrange. unfold rangesOfLayer in Hrange.
  apply list_elem_of_fmap in Hrange as (r & -> & Hr).
  apply list_elem_of_filter in Hr as [<- Hr].
  exists r. repeat split; try done.
  all: unfold classifyDocument in Hr;
    destruct (resolveOverlaps_shape
                (rawRegions (collect (documentText (document editor))))
                (String.length (documentText (document editor)))) as (Hbound & _);
    by apply Hbound.
Qed.

(** X19.  Whatever decoration type [applyDecorations] sets on an editor,
    [clearDecorations] resets on that editor, and [clearAllDecorations]
    resets there when the editor is visible; and [clearAllDecorations] only
    ever sets the empty list of ranges, on visible editors. *)
Theorem clear_covers_apply editor regions decorationTypes visibleTextEditors c :
  c ∈ applyDecorations editor regions decorationTypes →
  setDecorations editor (call_type c) [] ∈ clearDecorations (Some editor) decorationTypes
  ∧ (editor ∈ visibleTextEditors →
     setDecorations editor (call_type c) []
       ∈ clearAllDecorations visibleTextEditors decorationTypes)
  ∧ Forall (λ c', call_ranges c' = [] ∧ call_editor c' ∈ visibleTextEditors)
           (clearAllDecorations visibleTextEditors decorationTypes).
Proof.
  unfold applyDecorations. intros (layer & -> & Hlayer)%list_elem_of_fmap. cbn [call_type].
  split; [|split].
  - unfold clearDecorations. apply list_elem_of_fmap. by exists layer.
  - intros Heditor. unfold clearAllDecorations. apply list_elem_of_bind.
    exists editor. split; [|done]. apply list_elem_of_fmap. by exists layer.
  - apply Forall_forall. intros c' Hc'. unfold clearAllDecorations in Hc'.
    apply list_elem_of_bind in Hc' as (editor' & Hc' & Heditor').
    by apply list_elem_of_fmap in Hc' as (layer' & -> & _).
Qed.

End DecoratorProperties.

Lemma updateDecorations_ranges_witness :
  let editor := Editor.editor "App.tsx" UseState.sourceText in
  let c := setDecorations editor "react"%string [newRange 0 8] in
  c ∈ @updateDecorations _ _ UseState.compiler (Some editor) Editor.decorationTypes
  ∧ newRange 0 8 ∈ call_ranges c
  ∧ isTsxOrJsx (fileName (document editor)) = true.
Proof.
  intros editor c.
  assert (c ∈ @updateDecorations _ _ UseState.compiler (Some editor)
                Editor.decorationTypes) as Hc
    by (apply (list_elem_of_lookup_2 _ 3%nat); vm_compute; reflexivity).
  assert (newRange 0 8 ∈ call_ranges c) as Hrange by (apply elem_of_cons; by left).
  split; [exact Hc|]. split; [exact Hrange|].
  exact (proj1 (@updateDecorations_ranges _ _ UseState.compiler editor
                  Editor.decorationTypes c (newRange 0 8) Hc Hrange)).
Defined.

Lemma clear_covers_apply_witness :
  let editor := Editor.editor "App.tsx" UseState.sourceText in
  let c := setDecorations editor "react"%string [newRange 0 8] in
  c ∈ applyDecorations editor [mkRegion 0 8 react] Editor.decorationTypes
  ∧ setDecorations editor "react"%string []
      ∈ clearDecorations (Some editor) Editor.decorationTypes.
Proof.
  intros editor c.
  assert (c ∈ applyDecorations editor [mkRegion 0 8 react] Editor.decorationTypes) as Hc
    by (apply (list_elem_of_lookup_2 _ 3%nat); vm_compute; reflexivity).
  split; [exact Hc|].
  exact (proj1 (clear_covers_apply editor _ Editor.decorationTypes [] c Hc)).
Defined.
